(** * Vote accounting of the consensus package: VoteSet and HeightVoteSet

    A shallow embedding of [consensus/vote_set.go] and
    [consensus/height_vote_set.go].  Mutable receivers become explicit
    state passing, Go panics become the [Panic] outcome of a small
    result monad, Go maps become finite maps, [[]byte] and [string]
    become byte strings, and a nil [*VoteSet] is [None]. *)

From Stdlib Require Import ZArith Bool Lia.
From stdpp Require Import base option gmap strings list fin_maps.

Local Open Scope Z_scope.

(** ** Outcomes of a call *)

(** A call returns normally, panics, or (for a loop that is run with a
    budget of iterations) exhausts its budget. *)
Inductive result (A : Type) : Type :=
| Ok (a : A)
| Panic (msg : string)
| Diverge.
Arguments Ok {A} a.
Arguments Panic {A} msg.
Arguments Diverge {A}.

#[global] Instance result_ret : MRet result := fun A a => Ok a.
#[global] Instance result_bind : MBind result := fun A B f m =>
  match m with
  | Ok a => f a
  | Panic msg => Panic msg
  | Diverge => Diverge
  end.

Definition is_Ok {A} (r : result A) : Prop :=
  match r with Ok _ => True | _ => False end.

Definition is_Panic {A} (r : result A) : Prop :=
  match r with Panic _ => True | _ => False end.

(** ** Machine integers *)

(** [int64] arithmetic wraps around in two's complement; [int] is taken
    to be 64 bits wide as well. *)
Definition wrap64 (z : Z) : Z := (z + 2 ^ 63) mod 2 ^ 64 - 2 ^ 63.

Definition MaxInt64 : Z := 2 ^ 63 - 1.

(** [s[i]] on a Go slice: [None] stands for the index-out-of-range panic. *)
Definition index {A} (l : list A) (i : Z) : option A :=
  if i <? 0 then None else l !! Z.to_nat i.

(** ** Package types *)

Module types.

(** Modelled from the spec: [PartSetHeader], the pair [(total, hash)]
    that describes how a block is cut into parts; package [types] is not
    among the files under study. *)
Record PartSetHeader : Type := { Total : Z; Hash : string }.

(** Modelled from the spec: [PartSetHeader.Equals], declared outside the
    files under study; two headers are equal iff both fields match. *)
Definition PartSetHeader_Equals (a b : PartSetHeader) : bool :=
  (Total a =? Total b) && String.eqb (Hash a) (Hash b).

(** Modelled from the spec: the vote type byte.  The constants
    [VoteTypePrevote] and [VoteTypePrecommit] are declared in package
    [types]; only their being distinct matters here, and every other
    byte value is [VoteTypeOther]. *)
Inductive VoteType : Type :=
| VoteTypePrevote
| VoteTypePrecommit
| VoteTypeOther (tag : Z).

#[global] Instance VoteType_eq_dec : EqDecision VoteType.
Proof. solve_decision. Defined.

(** Modelled from the spec: [Vote], with the fields that the vote sets
    read. *)
Record Vote : Type := {
  Height : Z;
  Round : Z;
  Type_ : VoteType;
  BlockHash : string;
  BlockParts : PartSetHeader;
  Signature : string
}.

(** Modelled from the spec: the vote errors, under the names the vote
    set returns them by. *)
Inductive ErrVote : Type :=
| ErrVoteUnexpectedStep
| ErrVoteInvalidAccount
| ErrVoteInvalidSignature
| ErrVoteInvalidBlockHash
| ErrVoteConflictingSignature (VoteA VoteB : Vote).

(** Modelled from the spec: [Validation], one precommit slot per
    validator, in index order. *)
Record Validation : Type := { Precommits : list (option Vote) }.

End types.
Import types.

(** [bytes.Equal]: a nil slice and an empty slice are equal, both are
    the empty string here. *)
Definition bytes_Equal (a b : string) : bool := String.eqb a b.

(** ** External collaborators *)

(** Modelled from the spec: the sign-bytes codec [account.SignBytes],
    the configured [chain_id] and the encoding [binary.BinaryBytes] of a
    parts header, which the vote set only calls. *)
Class Codec : Type := {
  chain_id : string;
  SignBytes : string -> Vote -> string;
  BinaryBytes : PartSetHeader -> string
}.

Module account.

(** Modelled from the spec: the [PubKey] interface, as the one method
    the vote set calls, [VerifyBytes(msg, sig)]. *)
Record PubKey : Type := { VerifyBytes : string -> string -> bool }.

End account.

Module sm.

(** Modelled from the spec: [Validator], with its address, public key
    and voting power ([int64]). *)
Record Validator : Type := {
  Address : string;
  PubKey : account.PubKey;
  VotingPower : Z
}.

(** Modelled from the spec: the validator set is an ordered sequence of
    validators with [Size], [TotalVotingPower], lookup by index and by
    address, and iteration in index order. *)
Record ValidatorSet : Type := { Validators : list Validator }.

(** Modelled from the spec: [Size()], the number of validators. *)
Definition Size (valSet : ValidatorSet) : Z :=
  Z.of_nat (length (Validators valSet)).

(** Modelled from the spec: [TotalVotingPower()], the sum of all
    voting powers. *)
Definition TotalVotingPower (valSet : ValidatorSet) : Z :=
  foldr (fun v acc => VotingPower v + acc) 0 (Validators valSet).

(** Modelled from the spec: [GetByIndex(i)], nil when [i] is not the
    index of a validator. *)
Definition GetByIndex (valSet : ValidatorSet) (i : Z) : option Validator :=
  index (Validators valSet) i.

(** Modelled from the spec: [GetByAddress(address)], the index and the
    validator that has this address, nil when there is none. *)
Fixpoint find_address (address : string) (vals : list Validator) (i : Z)
  : option (Z * Validator) :=
  match vals with
  | [] => None
  | v :: rest =>
      if bytes_Equal (Address v) address then Some (i, v)
      else find_address address rest (i + 1)
  end.

(** Modelled from the spec: [GetByAddress(address)], as the search from
    index 0. *)
Definition GetByAddress (valSet : ValidatorSet) (address : string)
  : option (Z * Validator) :=
  find_address address (Validators valSet) 0.

(** Modelled from the spec: [Iterate(fn)] calls [fn] on every validator
    in index order and stops as soon as [fn] returns true.  The state
    [S] is what the closure captures and mutates. *)
Fixpoint Iterate_from {S : Type}
  (fn : Z -> Validator -> S -> result (S * bool))
  (i : Z) (vals : list Validator) (s : S) : result S :=
  match vals with
  | [] => Ok s
  | v :: rest =>
      match fn i v s with
      | Ok (s', stop) => if stop then Ok s' else Iterate_from fn (i + 1) rest s'
      | Panic msg => Panic msg
      | Diverge => Diverge
      end
  end.

(** Modelled from the spec: [Iterate(fn)], from index 0. *)
Definition Iterate {S : Type} (valSet : ValidatorSet)
  (fn : Z -> Validator -> S -> result (S * bool)) (s : S) : result S :=
  Iterate_from fn 0 (Validators valSet) s.

End sm.

(** ** BitArray *)

(** Modelled from the spec: the presence bitmap, one bit per validator.
    [SetIndex] out of range changes nothing. *)
Definition BitArray : Type := list bool.

(** Modelled from the spec: [NewBitArray(bits)], all bits clear. *)
Definition NewBitArray (bits : Z) : BitArray := replicate (Z.to_nat bits) false.

(** Modelled from the spec: [SetIndex(i, v)]. *)
Definition BitArray_SetIndex (bA : BitArray) (i : Z) (v : bool) : BitArray :=
  if i <? 0 then bA else <[Z.to_nat i := v]> bA.

(** Modelled from the spec: [Copy()], a snapshot of the bits. *)
Definition BitArray_Copy (bA : BitArray) : BitArray := bA.

(** ** VoteSet *)

(** The three results [(added bool, index int, err error)] of an add. *)
Record AddResult : Type := {
  added : bool;
  index_ : Z;
  err : option ErrVote
}.

Module VoteSet.

Record t : Type := {
  height : Z;
  round : Z;
  type_ : VoteType;
  valSet : sm.ValidatorSet;
  votes : list (option Vote);
  votesBitArray : BitArray;
  votesByBlock : gmap string Z;
  totalVotes : Z;
  maj23Hash : string;
  maj23Parts : PartSetHeader;
  maj23Exists : bool
}.

Definition NewVoteSet (height round : Z) (type_ : VoteType)
  (valSet : sm.ValidatorSet) : result t :=
  if height =? 0 then
    Panic "Cannot make VoteSet for height == 0, doesn't make sense."
  else
    Ok {| height := height;
          round := round;
          type_ := type_;
          valSet := valSet;
          votes := replicate (Z.to_nat (sm.Size valSet)) None;
          votesBitArray := NewBitArray (sm.Size valSet);
          votesByBlock := ∅;
          totalVotes := 0;
          maj23Hash := "";
          maj23Parts := {| Total := 0; Hash := "" |};
          maj23Exists := false |}.

(** *** Accessors with a nil guard.  The receiver is a [*VoteSet]. *)

Definition Height (voteSet : option t) : Z :=
  match voteSet with None => 0 | Some vs => height vs end.

Definition Round (voteSet : option t) : Z :=
  match voteSet with None => 0 | Some vs => round vs end.

Definition Size (voteSet : option t) : Z :=
  match voteSet with None => 0 | Some vs => sm.Size (valSet vs) end.

Definition BitArray (voteSet : option t) : option BitArray :=
  match voteSet with
  | None => None
  | Some vs => Some (BitArray_Copy (votesBitArray vs))
  end.

Definition HasTwoThirdsMajority (voteSet : option t) : bool :=
  match voteSet with None => false | Some vs => maj23Exists vs end.

(** The threshold [valSet.TotalVotingPower()*2/3] in [int64]: the product
    wraps, the division truncates. *)
Definition twoThirds (valSet : sm.ValidatorSet) : Z :=
  Z.quot (wrap64 (sm.TotalVotingPower valSet * 2)) 3.

Definition HasTwoThirdsAny (voteSet : option t) : bool :=
  match voteSet with
  | None => false
  | Some vs => totalVotes vs >? twoThirds (valSet vs)
  end.

(** *** Accessors without a nil guard: a nil receiver is dereferenced. *)

Definition nil_deref : string :=
  "invalid memory address or nil pointer dereference".

Definition GetByIndex (voteSet : option t) (valIndex : Z)
  : result (option Vote) :=
  match voteSet with
  | None => Panic nil_deref
  | Some vs =>
      match index (votes vs) valIndex with
      | None => Panic "index out of range"
      | Some v => Ok v
      end
  end.

Definition GetByAddress (voteSet : option t) (address : string)
  : result (option Vote) :=
  match voteSet with
  | None => Panic nil_deref
  | Some vs =>
      match sm.GetByAddress (valSet vs) address with
      | None => Panic "GetByAddress(address) returned nil"
      | Some (valIndex, _) =>
          match index (votes vs) valIndex with
          | None => Panic "index out of range"
          | Some v => Ok v
          end
      end
  end.

Definition TwoThirdsMajority (voteSet : option t)
  : result (string * PartSetHeader * bool) :=
  match voteSet with
  | None => Panic nil_deref
  | Some vs =>
      if maj23Exists vs then Ok (maj23Hash vs, maj23Parts vs, true)
      else Ok ("", {| Total := 0; Hash := "" |}, false)
  end.

(** *** Adding a vote *)

Section Add.
Context `{Codec}.

Definition blockKey (vote : Vote) : string :=
  BlockHash vote +:+ BinaryBytes (BlockParts vote).

Definition addVote (vs : t) (val : sm.Validator) (valIndex : Z) (vote : Vote)
  : result (t * AddResult) :=
  (* Make sure the step matches. *)
  if negb (types.Height vote =? height vs)
     || negb (types.Round vote =? round vs)
     || negb (bool_decide (Type_ vote = type_ vs)) then
    Ok (vs, {| added := false; index_ := 0; err := Some ErrVoteUnexpectedStep |})
  (* Check signature. *)
  else if negb (account.VerifyBytes (sm.PubKey val)
                  (SignBytes chain_id vote) (Signature vote)) then
    Ok (vs, {| added := false; index_ := 0; err := Some ErrVoteInvalidSignature |})
  else
    match index (votes vs) valIndex with
    | None => Panic "index out of range"
    (* If vote already exists, return false. *)
    | Some (Some existingVote) =>
        if bytes_Equal (BlockHash existingVote) (BlockHash vote) then
          Ok (vs, {| added := false; index_ := valIndex; err := None |})
        else
          Ok (vs, {| added := false; index_ := valIndex;
                     err := Some (ErrVoteConflictingSignature existingVote vote) |})
    (* Add vote. *)
    | Some None =>
        let totalBlockHashVotes :=
          wrap64 (default 0 (votesByBlock vs !! blockKey vote)
                  + sm.VotingPower val) in
        let latch :=
          (totalBlockHashVotes >? twoThirds (valSet vs))
          && (wrap64 (totalBlockHashVotes - sm.VotingPower val)
              <=? twoThirds (valSet vs)) in
        Ok ({| height := height vs;
               round := round vs;
               type_ := type_ vs;
               valSet := valSet vs;
               votes := <[Z.to_nat valIndex := Some vote]> (votes vs);
               votesBitArray := BitArray_SetIndex (votesBitArray vs) valIndex true;
               votesByBlock :=
                 <[blockKey vote := totalBlockHashVotes]> (votesByBlock vs);
               totalVotes := wrap64 (totalVotes vs + sm.VotingPower val);
               (* If we just nudged it up to two thirds majority, add it. *)
               maj23Hash := if latch then BlockHash vote else maj23Hash vs;
               maj23Parts := if latch then BlockParts vote else maj23Parts vs;
               maj23Exists := if latch then true else maj23Exists vs |},
            {| added := true; index_ := valIndex; err := None |})
    end.

Definition AddByAddress (vs : t) (address : string) (vote : Vote)
  : result (t * AddResult) :=
  (* Ensure that signer is a validator. *)
  match sm.GetByAddress (valSet vs) address with
  | None =>
      Ok (vs, {| added := false; index_ := 0; err := Some ErrVoteInvalidAccount |})
  | Some (valIndex, val) => addVote vs val valIndex vote
  end.

Definition AddByIndex (vs : t) (valIndex : Z) (vote : Vote)
  : result (t * AddResult) :=
  (* Ensure that signer is a validator. *)
  match sm.GetByIndex (valSet vs) valIndex with
  | None =>
      Ok (vs, {| added := false; index_ := 0; err := Some ErrVoteInvalidAccount |})
  | Some val => addVote vs val valIndex vote
  end.

End Add.

(** *** Validation *)

(** The closure that [MakeValidation] hands to [Iterate]: it reads
    [voteSet.votes] and writes the captured slice [precommits]; it always
    returns false, so the iteration visits every validator. *)
Definition MakeValidation_visit (vs : t) (valIndex : Z) (val : sm.Validator)
  (precommits : list (option Vote)) : result (list (option Vote) * bool) :=
  match index (votes vs) valIndex with
  | None => Panic "index out of range"
  | Some None => Ok (precommits, false)
  | Some (Some vote) =>
      if negb (bytes_Equal (BlockHash vote) (maj23Hash vs)) then
        Ok (precommits, false)
      else if negb (PartSetHeader_Equals (BlockParts vote) (maj23Parts vs)) then
        Ok (precommits, false)
      else
        match index precommits valIndex with
        | None => Panic "index out of range"
        | Some _ => Ok (<[Z.to_nat valIndex := Some vote]> precommits, false)
        end
  end.

Definition MakeValidation (vs : t) : result Validation :=
  if negb (bool_decide (type_ vs = VoteTypePrecommit)) then
    Panic "Cannot MakeValidation() unless VoteSet.Type is types.VoteTypePrecommit"
  else if Z.of_nat (String.length (maj23Hash vs)) =? 0 then
    Panic "Cannot MakeValidation() unless a blockhash has +2/3"
  else
    precommits ←
      sm.Iterate (valSet vs) (MakeValidation_visit vs)
        (replicate (Z.to_nat (sm.Size (valSet vs))) None);
    Ok {| Precommits := precommits |}.

End VoteSet.

(** ** HeightVoteSet *)

Module RoundVoteSet.

(** The two fields are [*VoteSet]; [addRound] is the only place that
    builds a [RoundVoteSet] and it fills both, so the pointers are never
    nil and the pointed-to vote sets are kept in place. *)
Record t : Type := {
  Prevotes : VoteSet.t;
  Precommits : VoteSet.t
}.

End RoundVoteSet.

Module HeightVoteSet.

Record t : Type := {
  height : Z;
  valSet : sm.ValidatorSet;
  round : Z;
  roundVoteSets : gmap Z RoundVoteSet.t;
  peerCatchupRounds : gmap string Z
}.

Definition with_roundVoteSets (hvs : t) (m : gmap Z RoundVoteSet.t) : t :=
  {| height := height hvs;
     valSet := valSet hvs;
     round := round hvs;
     roundVoteSets := m;
     peerCatchupRounds := peerCatchupRounds hvs |}.

Definition with_round (hvs : t) (r : Z) : t :=
  {| height := height hvs;
     valSet := valSet hvs;
     round := r;
     roundVoteSets := roundVoteSets hvs;
     peerCatchupRounds := peerCatchupRounds hvs |}.

Definition with_peerCatchupRounds (hvs : t) (m : gmap string Z) : t :=
  {| height := height hvs;
     valSet := valSet hvs;
     round := round hvs;
     roundVoteSets := roundVoteSets hvs;
     peerCatchupRounds := m |}.

Definition addRound (hvs : t) (round : Z) : result t :=
  match roundVoteSets hvs !! round with
  | Some _ => Panic "addRound() for an existing round"
  | None =>
      prevotes ←
        VoteSet.NewVoteSet (height hvs) round VoteTypePrevote (valSet hvs);
      precommits ←
        VoteSet.NewVoteSet (height hvs) round VoteTypePrecommit (valSet hvs);
      Ok (with_roundVoteSets hvs
            (<[round := {| RoundVoteSet.Prevotes := prevotes;
                           RoundVoteSet.Precommits := precommits |}]>
               (roundVoteSets hvs)))
  end.

Definition NewHeightVoteSet (height : Z) (valSet : sm.ValidatorSet)
  : result t :=
  hvs ← addRound {| height := height;
                    valSet := valSet;
                    round := 0;
                    roundVoteSets := ∅;
                    peerCatchupRounds := ∅ |} 0;
  Ok (with_round hvs 0).

Definition Height (hvs : t) : Z := height hvs.

Definition Round (hvs : t) : Z := round hvs.

(** The loop [for r := hvs.round + 1; r <= round; r++] of [SetRound],
    with a budget of iterations.  The body adds the round [round], the
    method's argument. *)
Fixpoint SetRound_loop (fuel : nat) (hvs : t) (r round : Z) : result t :=
  if r <=? round then
    match fuel with
    | O => Diverge
    | S fuel' =>
        match roundVoteSets hvs !! r with
        | Some _ =>
            (* Already exists because peerCatchupRounds. *)
            SetRound_loop fuel' hvs (wrap64 (r + 1)) round
        | None =>
            hvs' ← addRound hvs round;
            SetRound_loop fuel' hvs' (wrap64 (r + 1)) round
        end
    end
  else Ok hvs.

(** Create more RoundVoteSets up to round.  The budget is the number of
    values from [hvs.round + 1] to [round]. *)
Definition SetRound (hvs : t) (round_ : Z) : result t :=
  if negb (round hvs =? 0) && (round_ <? wrap64 (round hvs + 1)) then
    Panic "SetRound() must increment hvs.round"
  else
    hvs' ← SetRound_loop (Z.to_nat (round_ - wrap64 (round hvs + 1) + 1))
             hvs (wrap64 (round hvs + 1)) round_;
    Ok (with_round hvs' round_).

Definition getVoteSet (hvs : t) (round : Z) (type_ : VoteType)
  : result (option VoteSet.t) :=
  match roundVoteSets hvs !! round with
  | None => Ok None
  | Some rvs =>
      match type_ with
      | VoteTypePrevote => Ok (Some (RoundVoteSet.Prevotes rvs))
      | VoteTypePrecommit => Ok (Some (RoundVoteSet.Precommits rvs))
      | VoteTypeOther _ => Panic "Unexpected vote type"
      end
  end.

(** The vote set that [getVoteSet] returns is a pointer into the map:
    what an add does to it is seen by every later lookup. *)
Definition putVoteSet (hvs : t) (round : Z) (type_ : VoteType)
  (vs : VoteSet.t) : t :=
  match roundVoteSets hvs !! round with
  | None => hvs
  | Some rvs =>
      match type_ with
      | VoteTypePrevote =>
          with_roundVoteSets hvs
            (<[round := {| RoundVoteSet.Prevotes := vs;
                           RoundVoteSet.Precommits := RoundVoteSet.Precommits rvs |}]>
               (roundVoteSets hvs))
      | VoteTypePrecommit =>
          with_roundVoteSets hvs
            (<[round := {| RoundVoteSet.Prevotes := RoundVoteSet.Prevotes rvs;
                           RoundVoteSet.Precommits := vs |}]>
               (roundVoteSets hvs))
      | VoteTypeOther _ => hvs
      end
  end.

Section Add.
Context `{Codec}.

(** Duplicate votes return added=false, err=nil.
    By convention, peerKey is the empty string if origin is self. *)
Definition AddByAddress (hvs : t) (address : string) (vote : Vote)
  (peerKey : string) : result (t * AddResult) :=
  voteSet ← getVoteSet hvs (types.Round vote) (Type_ vote);
  match voteSet with
  | None =>
      match peerCatchupRounds hvs !! peerKey with
      | None =>
          hvs1 ← addRound hvs (types.Round vote);
          Ok (with_peerCatchupRounds hvs1
                (<[peerKey := types.Round vote]> (peerCatchupRounds hvs1)),
              {| added := false; index_ := 0; err := None |})
      | Some _ =>
          (* Peer has sent a vote that does not match our round,
             for more than one round. *)
          Ok (hvs, {| added := false; index_ := 0; err := None |})
      end
  | Some vs =>
      '(vs', res) ← VoteSet.AddByAddress vs address vote;
      Ok (putVoteSet hvs (types.Round vote) (Type_ vote) vs', res)
  end.

End Add.

Definition Prevotes (hvs : t) (round : Z) : result (option VoteSet.t) :=
  getVoteSet hvs round VoteTypePrevote.

Definition Precommits (hvs : t) (round : Z) : result (option VoteSet.t) :=
  getVoteSet hvs round VoteTypePrecommit.

(** The loop [for r := hvs.round; r >= 0; r--] of [POLRound], with a
    budget of iterations. *)
Fixpoint POLRound_loop (fuel : nat) (hvs : t) (r : Z) : result Z :=
  if r >=? 0 then
    match fuel with
    | O => Diverge
    | S fuel' =>
        voteSet ← getVoteSet hvs r VoteTypePrevote;
        if VoteSet.HasTwoThirdsMajority voteSet then Ok r
        else POLRound_loop fuel' hvs (r - 1)
    end
  else Ok (-1).

(** Last round that has +2/3 prevotes for a particular block or nil.
    Returns -1 if no such round exists. *)
Definition POLRound (hvs : t) : result Z :=
  POLRound_loop (Z.to_nat (round hvs + 1)) hvs (round hvs).

End HeightVoteSet.

(** ** A concrete validator set and codec, for evaluation *)

Module Sample.

Definition codec : Codec := {|
  chain_id := "test";
  SignBytes := fun _ vote => BlockHash vote;
  BinaryBytes := fun parts => Hash parts
|}.

(** A key whose signatures are the signed bytes themselves. *)
Definition key : account.PubKey :=
  {| account.VerifyBytes := fun msg sig => String.eqb msg sig |}.

Definition validator (address : string) (power : Z) : sm.Validator :=
  {| sm.Address := address; sm.PubKey := key; sm.VotingPower := power |}.

Definition vote (height round : Z) (type_ : VoteType) (hash : string)
  (parts : PartSetHeader) : Vote :=
  {| types.Height := height; types.Round := round; Type_ := type_;
     BlockHash := hash; BlockParts := parts; Signature := hash |}.

Definition parts (total : Z) (hash : string) : PartSetHeader :=
  {| Total := total; Hash := hash |}.

(** One validator of power 1. *)
Definition one : sm.ValidatorSet :=
  {| sm.Validators := [validator "a" 1] |}.

(** Total voting power 9: two thirds of it is exactly 6. *)
Definition nine : sm.ValidatorSet :=
  {| sm.Validators := [validator "a" 6; validator "b" 3] |}.

(** Four validators of power 1. *)
Definition four : sm.ValidatorSet :=
  {| sm.Validators := [validator "a" 1; validator "b" 1;
                       validator "c" 1; validator "d" 1] |}.

(** Votes for height 1 and round 0. *)
Definition prevote (hash : string) : Vote :=
  vote 1 0 VoteTypePrevote hash (parts 1 "BB").

Definition precommit (hash : string) : Vote :=
  vote 1 0 VoteTypePrecommit hash (parts 1 "BB").

(** A vote whose signature is not the one the key expects. *)
Definition forged (hash : string) : Vote :=
  {| types.Height := 1; types.Round := 0; Type_ := VoteTypePrevote;
     BlockHash := hash; BlockParts := parts 1 "BB"; Signature := "??" |}.

End Sample.

(** ** Histories of a VoteSet *)

(** One public add call. *)
Inductive op : Type :=
| OpAddByIndex (valIndex : Z) (vote : Vote)
| OpAddByAddress (address : string) (vote : Vote).

Definition op_vote (o : op) : Vote :=
  match o with
  | OpAddByIndex _ vote => vote
  | OpAddByAddress _ vote => vote
  end.

(** The validator and slot that a call resolves its signer to. *)
Definition signer (vs : VoteSet.t) (o : op) : option (Z * sm.Validator) :=
  match o with
  | OpAddByIndex valIndex _ =>
      (fun val => (valIndex, val)) <$> sm.GetByIndex (VoteSet.valSet vs) valIndex
  | OpAddByAddress address _ => sm.GetByAddress (VoteSet.valSet vs) address
  end.

(** The weighted sum that a block key has received so far; a key that is
    not in the Go map reads as zero. *)
Definition tally (vs : VoteSet.t) (key : string) : Z :=
  default 0 (VoteSet.votesByBlock vs !! key).

(** The voting power of the validators whose slot is filled. *)
Fixpoint votedPower (votes : list (option Vote)) (vals : list sm.Validator)
  : Z :=
  match votes, vals with
  | o :: votes', v :: vals' =>
      match o with
      | Some _ => sm.VotingPower v + votedPower votes' vals'
      | None => votedPower votes' vals'
      end
  | _, _ => 0
  end.

(** What the vote set assumes of its validator set: no negative voting
    power, and a total whose double fits [int64]. *)
Definition valSet_ok (valSet : sm.ValidatorSet) : Prop :=
  Forall (fun v => 0 <= sm.VotingPower v) (sm.Validators valSet)
  /\ sm.TotalVotingPower valSet * 2 <= MaxInt64.

Section Histories.
Context `{Codec}.

Definition apply_op (vs : VoteSet.t) (o : op) : result (VoteSet.t * AddResult) :=
  match o with
  | OpAddByIndex valIndex vote => VoteSet.AddByIndex vs valIndex vote
  | OpAddByAddress address vote => VoteSet.AddByAddress vs address vote
  end.

Fixpoint run (vs : VoteSet.t) (ops : list op) : result VoteSet.t :=
  match ops with
  | [] => Ok vs
  | o :: rest =>
      match apply_op vs o with
      | Ok (vs', _) => run vs' rest
      | Panic msg => Panic msg
      | Diverge => Diverge
      end
  end.

(** The vote sets that the constructor and the add calls can produce. *)
Inductive reachable : VoteSet.t -> Prop :=
| reachable_new height round type_ valSet vs :
    VoteSet.NewVoteSet height round type_ valSet = Ok vs ->
    reachable vs
| reachable_add vs o vs' res :
    reachable vs ->
    apply_op vs o = Ok (vs', res) ->
    reachable vs'.

(** A vote that passes the step check and the signature check against
    the validator [val]. *)
Definition valid_vote (vs : VoteSet.t) (val : sm.Validator) (vote : Vote)
  : Prop :=
  types.Height vote = VoteSet.height vs
  /\ types.Round vote = VoteSet.round vs
  /\ Type_ vote = VoteSet.type_ vs
  /\ account.VerifyBytes (sm.PubKey val) (SignBytes chain_id vote)
       (Signature vote) = true.

(** The test of [addVote] that latches the majority: the vote lifts the
    tally of its block key from at most two thirds to above two thirds. *)
Definition crosses (vs : VoteSet.t) (val : sm.Validator) (vote : Vote) : bool :=
  let totalBlockHashVotes :=
    wrap64 (tally vs (VoteSet.blockKey vote) + sm.VotingPower val) in
  (totalBlockHashVotes >? VoteSet.twoThirds (VoteSet.valSet vs))
  && (wrap64 (totalBlockHashVotes - sm.VotingPower val)
      <=? VoteSet.twoThirds (VoteSet.valSet vs)).

(** What holds of every reachable vote set over a validator set that is
    [valSet_ok]. *)
Record Inv (vs : VoteSet.t) : Prop := {
  inv_len : length (VoteSet.votes vs) = length (sm.Validators (VoteSet.valSet vs));
  inv_total :
    VoteSet.totalVotes vs
    = votedPower (VoteSet.votes vs) (sm.Validators (VoteSet.valSet vs));
  inv_tally_nonneg : forall K, 0 <= tally vs K;
  inv_tally_le : forall K, tally vs K <= VoteSet.totalVotes vs;
  inv_tally_pair :
    forall K1 K2, K1 <> K2 -> tally vs K1 + tally vs K2 <= VoteSet.totalVotes vs;
  inv_latched :
    VoteSet.maj23Exists vs = true ->
    exists K, VoteSet.twoThirds (VoteSet.valSet vs) < tally vs K;
  inv_unlatched :
    VoteSet.maj23Exists vs = false ->
    VoteSet.maj23Hash vs = ""
    /\ forall K, tally vs K <= VoteSet.twoThirds (VoteSet.valSet vs)
}.

End Histories.

(** The prevote vote set of round [r] has latched a +2/3 majority. *)
Definition prevoteMaj23 (hvs : HeightVoteSet.t) (r : Z) : bool :=
  match HeightVoteSet.Prevotes hvs r with
  | Ok voteSet => VoteSet.HasTwoThirdsMajority voteSet
  | _ => false
  end.

(** The rounds up to [upto] that have an entry, in increasing order. *)
Definition rounds_present (hvs : HeightVoteSet.t) (upto : nat) : list Z :=
  filter (fun r => is_Some (HeightVoteSet.roundVoteSets hvs !! r))
    (Z.of_nat <$> seq 0 (S upto)).

(** What [MakeValidation] leaves in slot [i]: the stored vote when it
    matches the latched block hash and parts header. *)
Definition matching_vote (vs : VoteSet.t) (slot : option Vote) : option Vote :=
  match slot with
  | None => None
  | Some vote =>
      if bytes_Equal (BlockHash vote) (VoteSet.maj23Hash vs)
         && PartSetHeader_Equals (BlockParts vote) (VoteSet.maj23Parts vs)
      then Some vote else None
  end.

(** ** Further notions for the vote set *)

(** The bit that the bit array keeps for a slot. *)
Definition slot_filled (slot : option Vote) : bool :=
  match slot with Some _ => true | None => false end.


(** The step check of [addVote]. *)
Definition step_matches (vs : VoteSet.t) (vote : Vote) : Prop :=
  types.Height vote = VoteSet.height vs
  /\ types.Round vote = VoteSet.round vs
  /\ Type_ vote = VoteSet.type_ vs.

Section Keys.
Context `{Codec}.

(** The block key under which the latched majority was tallied. *)
Definition maj23Key (vs : VoteSet.t) : string :=
  VoteSet.maj23Hash vs +:+ BinaryBytes (VoteSet.maj23Parts vs).

(** The voting power of the validators whose stored vote has the block
    key [key]. *)
Fixpoint keyPower (key : string) (votes : list (option Vote))
  (vals : list sm.Validator) : Z :=
  match votes, vals with
  | slot :: votes', v :: vals' =>
      match slot with
      | Some vote =>
          if decide (VoteSet.blockKey vote = key)
          then sm.VotingPower v + keyPower key votes' vals'
          else keyPower key votes' vals'
      | None => keyPower key votes' vals'
      end
  | _, _ => 0
  end.

End Keys.

(** ** Histories of a HeightVoteSet *)

(** One public mutating call. *)
Inductive hop : Type :=
| HSetRound (round : Z)
| HAddByAddress (address : string) (vote : Vote) (peerKey : string).

(** [SetRound] is called with a round number that is not negative and
    below the largest [int]. *)
Definition hop_ok (o : hop) : Prop :=
  match o with
  | HSetRound round => 0 <= round < MaxInt64
  | HAddByAddress _ _ _ => True
  end.

Section HeightHistories.
Context `{Codec}.

Definition apply_hop (hvs : HeightVoteSet.t) (o : hop) : result HeightVoteSet.t :=
  match o with
  | HSetRound round => HeightVoteSet.SetRound hvs round
  | HAddByAddress address vote peerKey =>
      match HeightVoteSet.AddByAddress hvs address vote peerKey with
      | Ok (hvs', _) => Ok hvs'
      | Panic msg => Panic msg
      | Diverge => Diverge
      end
  end.

Fixpoint hrun (hvs : HeightVoteSet.t) (ops : list hop) : result HeightVoteSet.t :=
  match ops with
  | [] => Ok hvs
  | o :: rest =>
      match apply_hop hvs o with
      | Ok hvs' => hrun hvs' rest
      | Panic msg => Panic msg
      | Diverge => Diverge
      end
  end.

(** The height vote sets that the constructor, [SetRound] and
    [AddByAddress] can produce. *)
Inductive hreachable : HeightVoteSet.t -> Prop :=
| hreachable_new height valSet hvs :
    HeightVoteSet.NewHeightVoteSet height valSet = Ok hvs ->
    hreachable hvs
| hreachable_step hvs o hvs' :
    hreachable hvs ->
    apply_hop hvs o = Ok hvs' ->
    hreachable hvs'.

(** A vote set stored for round [r] under the type [type_] was built for
    the height and validators of the height vote set and for that round
    and type, and has only seen add calls since. *)
Definition stored_ok (hvs : HeightVoteSet.t) (r : Z) (type_ : VoteType)
  (vs : VoteSet.t) : Prop :=
  reachable vs
  /\ VoteSet.height vs = HeightVoteSet.height hvs
  /\ VoteSet.round vs = r
  /\ VoteSet.type_ vs = type_
  /\ VoteSet.valSet vs = HeightVoteSet.valSet hvs.

(** Every stored vote set is as [stored_ok] says, and the height is not
    0. *)
Definition rounds_ok (hvs : HeightVoteSet.t) : Prop :=
  HeightVoteSet.height hvs <> 0
  /\ forall r rvs,
       HeightVoteSet.roundVoteSets hvs !! r = Some rvs ->
       stored_ok hvs r VoteTypePrevote (RoundVoteSet.Prevotes rvs)
       /\ stored_ok hvs r VoteTypePrecommit (RoundVoteSet.Precommits rvs).

End HeightHistories.

(** The current round is a non-negative [int] below the largest, round 0
    and the current round have an entry, and every round that has an
    entry lies in [[0, round]] or is the catch-up round of a peer. *)
Definition rounds_bounded (hvs : HeightVoteSet.t) : Prop :=
  0 <= HeightVoteSet.round hvs < MaxInt64
  /\ is_Some (HeightVoteSet.roundVoteSets hvs !! 0)
  /\ is_Some (HeightVoteSet.roundVoteSets hvs !! HeightVoteSet.round hvs)
  /\ forall k,
       is_Some (HeightVoteSet.roundVoteSets hvs !! k) ->
       0 <= k <= HeightVoteSet.round hvs
       \/ exists peerKey,
            HeightVoteSet.peerCatchupRounds hvs !! peerKey = Some k.

(** * Properties *)

(** ** Arithmetic and lists *)

Lemma wrap64_id z : - 2 ^ 63 <= z < 2 ^ 63 -> wrap64 z = z.
Proof.
  intros Hz. unfold wrap64.
  rewrite Z.mod_small by lia. lia.
Qed.

Lemma index_Some {A} (l : list A) i x :
  index l i = Some x <-> 0 <= i /\ l !! Z.to_nat i = Some x.
Proof.
  unfold index. destruct (Z.ltb_spec i 0); split; intros; try lia.
  - discriminate.
  - tauto.
  - tauto.
Qed.

Lemma index_lt {A} (l : list A) i :
  0 <= i < Z.of_nat (length l) -> is_Some (index l i).
Proof.
  intros Hi. unfold index.
  destruct (Z.ltb_spec i 0); [lia|].
  apply lookup_lt_is_Some. lia.
Qed.

Lemma find_address_spec address vals i0 i v :
  sm.find_address address vals i0 = Some (i, v) ->
  i0 <= i /\ vals !! Z.to_nat (i - i0) = Some v.
Proof.
  revert i0. induction vals as [|w vals IH]; intros i0; simpl; [discriminate|].
  destruct (bytes_Equal (sm.Address w) address).
  - intros [= <- <-]. rewrite Z.sub_diag. split; [lia | reflexivity].
  - intros Hf. apply IH in Hf as [Hle Hl]. split; [lia|].
    replace (Z.to_nat (i - i0)) with (S (Z.to_nat (i - (i0 + 1)))) by lia.
    exact Hl.
Qed.

Lemma signer_spec `{Codec} vs o i val :
  signer vs o = Some (i, val) ->
  0 <= i /\ sm.Validators (VoteSet.valSet vs) !! Z.to_nat i = Some val.
Proof.
  destruct o as [valIndex vote | address vote]; simpl.
  - unfold sm.GetByIndex.
    destruct (index _ valIndex) as [v|] eqn:E; simpl; [|discriminate].
    intros [= <- <-]. by apply index_Some in E.
  - unfold sm.GetByAddress. intros Hf.
    apply find_address_spec in Hf as [Hle Hl].
    rewrite Z.sub_0_r in Hl. done.
Qed.

Lemma votedPower_insert votes vals i val vote :
  votes !! i = Some None ->
  vals !! i = Some val ->
  votedPower (<[i := Some vote]> votes) vals
  = votedPower votes vals + sm.VotingPower val.
Proof.
  revert vals i. induction votes as [|o votes IH]; intros vals i; [done|].
  destruct vals as [|v vals]; [done|].
  destruct i as [|i]; simpl.
  - intros [= ->] [= ->]. simpl. lia.
  - intros Hv Hl. rewrite (IH _ _ Hv Hl). destruct o; lia.
Qed.

Lemma votedPower_bounds votes vals :
  Forall (fun v => 0 <= sm.VotingPower v) vals ->
  0 <= votedPower votes vals
  <= foldr (fun v acc => sm.VotingPower v + acc) 0 vals.
Proof.
  intros Hvals. revert votes.
  induction Hvals as [|v vals Hv _ IH]; intros votes.
  - destruct votes; simpl; lia.
  - destruct votes as [|o votes]; simpl.
    + specialize (IH []). destruct vals; simpl in *; lia.
    + specialize (IH votes). destruct o; lia.
Qed.

Lemma votedPower_replicate n vals :
  votedPower (replicate n None) vals = 0.
Proof.
  revert vals. induction n as [|n IH]; intros vals; [done|].
  destruct vals; simpl; [done|]. rewrite IH. lia.
Qed.

Lemma twoThirds_exact valSet :
  valSet_ok valSet ->
  VoteSet.twoThirds valSet = sm.TotalVotingPower valSet * 2 / 3
  /\ 0 <= sm.TotalVotingPower valSet.
Proof.
  intros [Hpos Hfit].
  pose proof (votedPower_bounds [] _ Hpos) as Hb.
  assert (0 <= sm.TotalVotingPower valSet) as HT.
  { unfold sm.TotalVotingPower. destruct (sm.Validators valSet); simpl in *; lia. }
  split; [|done].
  unfold VoteSet.twoThirds. unfold MaxInt64 in Hfit.
  rewrite wrap64_id by lia.
  apply Z.quot_div_nonneg; lia.
Qed.

(** ** The invariant of a vote set *)

Section VoteSetFacts.
Context `{Codec}.

Lemma NewVoteSet_Inv height round type_ valSet vs :
  valSet_ok valSet ->
  VoteSet.NewVoteSet height round type_ valSet = Ok vs ->
  Inv vs /\ VoteSet.valSet vs = valSet.
Proof.
  intros Hok. pose proof (twoThirds_exact _ Hok) as [Htt HT].
  unfold VoteSet.NewVoteSet. destruct (height =? 0); [discriminate|].
  intros [= <-]. split; [|done].
  assert (0 <= VoteSet.twoThirds valSet) as Hnn.
  { rewrite Htt. apply Z.div_pos; lia. }
  split; simpl; unfold tally; simpl.
  - rewrite length_replicate. unfold sm.Size. lia.
  - by rewrite votedPower_replicate.
  - intros K. rewrite lookup_empty. simpl. lia.
  - intros K. rewrite lookup_empty. simpl. lia.
  - intros K1 K2 _. rewrite !lookup_empty. simpl. lia.
  - discriminate.
  - intros _. split; [done|]. intros K. rewrite lookup_empty. simpl. lia.
Qed.

(** The arithmetic behind the latch: two different keys cannot both be
    above two thirds of a total that bounds their sum. *)
Lemma two_thirds_exclusive T a b :
  0 <= T -> 0 <= a -> 0 <= b -> a + b <= T ->
  T * 2 / 3 < a -> b <= T * 2 / 3.
Proof.
  intros HT Ha Hb Hab Hlt.
  pose proof (Z.div_mod (T * 2) 3 ltac:(lia)) as Hdm.
  pose proof (Z.mod_pos_bound (T * 2) 3 ltac:(lia)) as Hm.
  lia.
Qed.

Lemma addVote_Inv vs val valIndex vote vs' res :
  valSet_ok (VoteSet.valSet vs) ->
  Inv vs ->
  0 <= valIndex ->
  sm.Validators (VoteSet.valSet vs) !! Z.to_nat valIndex = Some val ->
  VoteSet.addVote vs val valIndex vote = Ok (vs', res) ->
  Inv vs' /\ VoteSet.valSet vs' = VoteSet.valSet vs.
Proof.
  intros Hok HI Hi Hval. unfold VoteSet.addVote.
  destruct (_ || _); [by intros [= <- <-]|].
  destruct (negb _); [by intros [= <- <-]|].
  destruct (index (VoteSet.votes vs) valIndex) as [[existing|]|] eqn:Hslot;
    [| |discriminate].
  { destruct (bytes_Equal _ _); by intros [= <- <-]. }
  apply index_Some in Hslot as [_ Hslot].
  pose proof (twoThirds_exact _ Hok) as [Htt HT].
  destruct Hok as [Hpos Hfit]. unfold MaxInt64 in Hfit.
  destruct HI as [Hlen Htot Hnn Hle Hpair Hlat Hunl].
  assert (0 <= sm.VotingPower val) as Hp.
  { rewrite Forall_lookup in Hpos. exact (Hpos _ _ Hval). }
  set (p := sm.VotingPower val) in *.
  remember (VoteSet.blockKey vote) as K eqn:HK. clear HK.
  pose proof (votedPower_insert _ _ _ _ vote Hslot Hval) as Hins.
  pose proof (votedPower_bounds (<[Z.to_nat valIndex := Some vote]> (VoteSet.votes vs))
                _ Hpos) as Hbound.
  fold (sm.TotalVotingPower (VoteSet.valSet vs)) in Hbound.
  rewrite Hins, <- Htot in Hbound. fold p in Hbound.
  pose proof (Hnn K) as HnnK. pose proof (Hle K) as HleK.
  fold (tally vs K).
  rewrite (wrap64_id (tally vs K + p)) by lia.
  rewrite (wrap64_id (tally vs K + p - p)) by lia.
  rewrite (wrap64_id (VoteSet.totalVotes vs + p)) by lia.
  replace (tally vs K + p - p) with (tally vs K) by lia.
  set (T := sm.TotalVotingPower (VoteSet.valSet vs)) in *.
  set (th := VoteSet.twoThirds (VoteSet.valSet vs)) in *.
  intros [= <- <-]. split; [|done].
  assert (forall K', tally
            {| VoteSet.height := VoteSet.height vs;
               VoteSet.round := VoteSet.round vs;
               VoteSet.type_ := VoteSet.type_ vs;
               VoteSet.valSet := VoteSet.valSet vs;
               VoteSet.votes := <[Z.to_nat valIndex := Some vote]> (VoteSet.votes vs);
               VoteSet.votesBitArray :=
                 BitArray_SetIndex (VoteSet.votesBitArray vs) valIndex true;
               VoteSet.votesByBlock := <[K := tally vs K + p]> (VoteSet.votesByBlock vs);
               VoteSet.totalVotes := VoteSet.totalVotes vs + p;
               VoteSet.maj23Hash :=
                 if (tally vs K + p >? th) && (tally vs K <=? th)
                 then BlockHash vote else VoteSet.maj23Hash vs;
               VoteSet.maj23Parts :=
                 if (tally vs K + p >? th) && (tally vs K <=? th)
                 then BlockParts vote else VoteSet.maj23Parts vs;
               VoteSet.maj23Exists :=
                 if (tally vs K + p >? th) && (tally vs K <=? th)
                 then true else VoteSet.maj23Exists vs |} K'
          = if decide (K = K') then tally vs K + p else tally vs K') as Htally.
  { intros K'. unfold tally at 1. simpl. rewrite lookup_insert.
    destruct (decide (K = K')); done. }
  split; simpl.
  - rewrite length_insert. done.
  - rewrite Hins. fold p. lia.
  - intros K'. rewrite Htally. destruct (decide _); [lia | apply Hnn].
  - intros K'. rewrite Htally. specialize (Hle K'). destruct (decide _); lia.
  - intros K1 K2 Hne. rewrite !Htally.
    pose proof (Hle K1). pose proof (Hle K2). pose proof (Hpair K1 K2 Hne).
    destruct (decide (K = K1)) as [E1|], (decide (K = K2)) as [E2|];
      subst; try lia; congruence.
  - intros Hex.
    destruct ((tally vs K + p >? th) && (tally vs K <=? th)) eqn:Hl.
    + exists K. rewrite Htally. rewrite decide_True by done.
      apply andb_true_iff in Hl as [Hgt _]. lia.
    + destruct (Hlat Hex) as [K' HK']. exists K'. rewrite Htally.
      destruct (decide _) as [<-|]; lia.
  - destruct ((tally vs K + p >? th) && (tally vs K <=? th)) eqn:Hl;
      [discriminate|].
    intros Hex. destruct (Hunl Hex) as [Hh Hall]. split; [done|].
    intros K'. rewrite Htally. specialize (Hall K').
    destruct (decide _) as [<-|]; [|done].
    apply andb_false_iff in Hl as [Hl|Hl]; lia.
Qed.

Lemma apply_op_Inv vs o vs' res :
  valSet_ok (VoteSet.valSet vs) ->
  Inv vs ->
  apply_op vs o = Ok (vs', res) ->
  Inv vs' /\ VoteSet.valSet vs' = VoteSet.valSet vs.
Proof.
  intros Hok HI. pose proof (signer_spec vs o) as Hs.
  destruct o as [valIndex vote | address vote]; simpl in *.
  - unfold VoteSet.AddByIndex.
    destruct (sm.GetByIndex _ _) as [val|]; simpl in Hs.
    + destruct (Hs _ _ eq_refl). by apply addVote_Inv.
    + by intros [= <- <-].
  - unfold VoteSet.AddByAddress.
    destruct (sm.GetByAddress _ _) as [[i val]|].
    + destruct (Hs _ _ eq_refl). by apply addVote_Inv.
    + by intros [= <- <-].
Qed.

Lemma reachable_Inv vs :
  reachable vs -> valSet_ok (VoteSet.valSet vs) -> Inv vs.
Proof.
  induction 1 as [height round type_ valSet vs Hnew | vs o vs' res Hr IH Hop];
    intros Hok.
  - assert (VoteSet.valSet vs = valSet) as E.
    { revert Hnew. unfold VoteSet.NewVoteSet.
      destruct (height =? 0); [discriminate|]. by intros [= <-]. }
    rewrite E in Hok. by destruct (NewVoteSet_Inv _ _ _ _ _ Hok Hnew).
  - assert (VoteSet.valSet vs' = VoteSet.valSet vs) as E.
    { revert Hop. clear. intros Hop.
      destruct o as [valIndex vote | address vote]; simpl in Hop.
      - unfold VoteSet.AddByIndex in Hop.
        destruct (sm.GetByIndex _ _); [|by injection Hop as <- <-].
        unfold VoteSet.addVote in Hop.
        repeat (match type of Hop with
                | context [if ?b then _ else _] => destruct b
                | context [match ?x with _ => _ end] => destruct x
                end; try discriminate; try (by injection Hop as <- <-)).
      - unfold VoteSet.AddByAddress in Hop.
        destruct (sm.GetByAddress _ _) as [[i val]|]; [|by injection Hop as <- <-].
        unfold VoteSet.addVote in Hop.
        repeat (match type of Hop with
                | context [if ?b then _ else _] => destruct b
                | context [match ?x with _ => _ end] => destruct x
                end; try discriminate; try (by injection Hop as <- <-)). }
    rewrite E in Hok. by destruct (apply_op_Inv _ _ _ _ Hok (IH Hok) Hop).
Qed.

End VoteSetFacts.

(** ** One add call *)

Section AddFacts.
Context `{Codec}.

Lemma apply_op_signer vs o i val :
  signer vs o = Some (i, val) ->
  apply_op vs o = VoteSet.addVote vs val i (op_vote o).
Proof.
  destruct o as [valIndex vote | address vote]; simpl.
  - unfold VoteSet.AddByIndex.
    destruct (sm.GetByIndex _ _); simpl; [|discriminate]. by intros [= <- <-].
  - unfold VoteSet.AddByAddress. by intros ->.
Qed.

Lemma apply_op_no_signer vs o :
  signer vs o = None ->
  apply_op vs o
  = Ok (vs, {| added := false; index_ := 0; err := Some ErrVoteInvalidAccount |}).
Proof.
  destruct o as [valIndex vote | address vote]; simpl.
  - unfold VoteSet.AddByIndex. by destruct (sm.GetByIndex _ _).
  - unfold VoteSet.AddByAddress. by intros ->.
Qed.

Lemma valid_vote_checks vs val vote :
  valid_vote vs val vote ->
  negb (types.Height vote =? VoteSet.height vs)
  || negb (types.Round vote =? VoteSet.round vs)
  || negb (bool_decide (Type_ vote = VoteSet.type_ vs)) = false
  /\ negb (account.VerifyBytes (sm.PubKey val) (SignBytes chain_id vote)
             (Signature vote)) = false.
Proof.
  intros (Hh & Hr & Ht & Hs). rewrite Hh, Hr, Hs, !Z.eqb_refl.
  by rewrite bool_decide_eq_true_2.
Qed.

(** An add either leaves the vote set as it was and reports
    [added = false], or fills the empty slot of the signer with a valid
    vote. *)
Lemma addVote_inv vs val valIndex vote vs' res :
  VoteSet.addVote vs val valIndex vote = Ok (vs', res) ->
  (vs' = vs /\ added res = false)
  \/ (index (VoteSet.votes vs) valIndex = Some None
      /\ res = {| added := true; index_ := valIndex; err := None |}
      /\ VoteSet.valSet vs' = VoteSet.valSet vs
      /\ VoteSet.votes vs' = <[Z.to_nat valIndex := Some vote]> (VoteSet.votes vs)
      /\ VoteSet.maj23Exists vs'
         = (if crosses vs val vote then true else VoteSet.maj23Exists vs)
      /\ VoteSet.maj23Hash vs'
         = (if crosses vs val vote then BlockHash vote else VoteSet.maj23Hash vs)
      /\ VoteSet.maj23Parts vs'
         = (if crosses vs val vote then BlockParts vote else VoteSet.maj23Parts vs)).
Proof.
  unfold VoteSet.addVote.
  destruct (_ || _); [intros [= <- <-]; by left|].
  destruct (negb _); [intros [= <- <-]; by left|].
  destruct (index (VoteSet.votes vs) valIndex) as [[existing|]|];
    [| |discriminate].
  - destruct (bytes_Equal _ _); intros [= <- <-]; by left.
  - intros [= <- <-]. right. by repeat split.
Qed.

(** A valid vote for an empty slot is accepted. *)
Lemma addVote_accept vs val valIndex vote :
  valid_vote vs val vote ->
  index (VoteSet.votes vs) valIndex = Some None ->
  exists vs1,
    VoteSet.addVote vs val valIndex vote
    = Ok (vs1, {| added := true; index_ := valIndex; err := None |})
    /\ VoteSet.valSet vs1 = VoteSet.valSet vs
    /\ VoteSet.votes vs1 = <[Z.to_nat valIndex := Some vote]> (VoteSet.votes vs)
    /\ tally vs1 (VoteSet.blockKey vote)
       = wrap64 (tally vs (VoteSet.blockKey vote) + sm.VotingPower val)
    /\ VoteSet.totalVotes vs1 = wrap64 (VoteSet.totalVotes vs + sm.VotingPower val)
    /\ VoteSet.maj23Exists vs1
       = (if crosses vs val vote then true else VoteSet.maj23Exists vs)
    /\ VoteSet.maj23Hash vs1
       = (if crosses vs val vote then BlockHash vote else VoteSet.maj23Hash vs)
    /\ VoteSet.maj23Parts vs1
       = (if crosses vs val vote then BlockParts vote else VoteSet.maj23Parts vs).
Proof.
  intros Hv Hslot.
  destruct (valid_vote_checks _ _ _ Hv) as [Hstep Hsig].
  unfold VoteSet.addVote. rewrite Hstep, Hsig, Hslot.
  eexists. split; [reflexivity|]. repeat split.
  unfold tally at 1. simpl. by rewrite lookup_insert_eq.
Qed.

(** On a vote set that satisfies the invariant the sums of [addVote] do
    not wrap, and an accepted vote keeps the total within the voting
    power of the validator set. *)
Lemma crosses_exact vs val valIndex vote :
  valSet_ok (VoteSet.valSet vs) ->
  Inv vs ->
  index (VoteSet.votes vs) valIndex = Some None ->
  sm.Validators (VoteSet.valSet vs) !! Z.to_nat valIndex = Some val ->
  let T := sm.TotalVotingPower (VoteSet.valSet vs) in
  let K := VoteSet.blockKey vote in
  0 <= sm.VotingPower val
  /\ VoteSet.totalVotes vs + sm.VotingPower val <= T
  /\ wrap64 (tally vs K + sm.VotingPower val) = tally vs K + sm.VotingPower val
  /\ crosses vs val vote
     = (tally vs K + sm.VotingPower val >? T * 2 / 3) && (tally vs K <=? T * 2 / 3).
Proof.
  intros Hok HI Hslot Hval T K.
  apply index_Some in Hslot as [_ Hslot].
  pose proof (twoThirds_exact _ Hok) as [Htt HT].
  destruct Hok as [Hpos Hfit]. unfold MaxInt64 in Hfit.
  destruct HI as [Hlen Htot Hnn Hle Hpair Hlat Hunl].
  assert (0 <= sm.VotingPower val) as Hp.
  { rewrite Forall_lookup in Hpos. exact (Hpos _ _ Hval). }
  pose proof (votedPower_insert _ _ _ _ vote Hslot Hval) as Hins.
  pose proof (votedPower_bounds (<[Z.to_nat valIndex := Some vote]> (VoteSet.votes vs))
                _ Hpos) as Hbound.
  fold (sm.TotalVotingPower (VoteSet.valSet vs)) in Hbound.
  rewrite Hins, <- Htot in Hbound.
  pose proof (Hnn K) as HnnK. pose proof (Hle K) as HleK.
  fold T in Hfit, Hbound, HT.
  assert (wrap64 (tally vs K + sm.VotingPower val)
          = tally vs K + sm.VotingPower val) as Hw by (apply wrap64_id; lia).
  repeat split; [done|lia|done|].
  unfold crosses. fold K. rewrite Hw, Htt. fold T.
  rewrite wrap64_id by lia.
  by replace (tally vs K + sm.VotingPower val - sm.VotingPower val)
    with (tally vs K) by lia.
Qed.

(** A reachable vote set has one slot per validator, so no add call
    indexes out of range. *)
Lemma apply_op_total vs o :
  length (VoteSet.votes vs) = length (sm.Validators (VoteSet.valSet vs)) ->
  exists vs' res, apply_op vs o = Ok (vs', res).
Proof.
  intros Hlen. destruct (signer vs o) as [[i val]|] eqn:Hs.
  - rewrite (apply_op_signer _ _ _ _ Hs).
    apply signer_spec in Hs as [Hi Hval].
    apply lookup_lt_Some in Hval.
    destruct (index_lt (VoteSet.votes vs) i ltac:(lia)) as [slot Hslot].
    unfold VoteSet.addVote. rewrite Hslot.
    destruct (_ || _); [eauto|]. destruct (negb _); [eauto|].
    destruct slot as [existing|]; [|eauto].
    destruct (bytes_Equal _ _); eauto.
  - rewrite (apply_op_no_signer _ _ Hs). eauto.
Qed.

End AddFacts.

(** ** Votes for a slot that is already filled *)

Section Duplicates.
Context `{Codec}.

(** Claim C5.  When a valid vote arrives from a validator whose slot
    already holds a vote with a different block hash, the add call (by
    index or by address) returns [added = false], the validator's index
    and the conflicting-signature error that carries the prior vote and
    the new one, and the vote set it leaves is the vote set it found: the
    prior vote is still in the slot, and the tallies, the total, the bit
    array and the latched majority are untouched. *)
Theorem conflicting_vote_is_reported vs o i val prior :
  signer vs o = Some (i, val) ->
  valid_vote vs val (op_vote o) ->
  index (VoteSet.votes vs) i = Some (Some prior) ->
  BlockHash prior <> BlockHash (op_vote o) ->
  apply_op vs o
  = Ok (vs, {| added := false; index_ := i;
               err := Some (ErrVoteConflictingSignature prior (op_vote o)) |}).
Proof.
  intros Hs Hv Hslot Hne.
  rewrite (apply_op_signer _ _ _ _ Hs).
  destruct (valid_vote_checks _ _ _ Hv) as [Hstep Hsig].
  unfold VoteSet.addVote. rewrite Hstep, Hsig, Hslot.
  unfold bytes_Equal.
  destruct (String.eqb_spec (BlockHash prior) (BlockHash (op_vote o)));
    [contradiction | reflexivity].
Qed.

(** Claim C9.  When the slot of the validator holds a vote and a second
    valid vote of the same validator has the same block hash but another
    parts header, the add call answers as for a duplicate: [added =
    false], the validator's index, no error.  The vote set is returned as
    it was, so the second vote is not stored and no tally, under any
    block key, has changed. *)
Theorem same_hash_other_parts_is_duplicate vs o i val prior :
  signer vs o = Some (i, val) ->
  valid_vote vs val (op_vote o) ->
  index (VoteSet.votes vs) i = Some (Some prior) ->
  BlockHash prior = BlockHash (op_vote o) ->
  BlockParts prior <> BlockParts (op_vote o) ->
  exists vs',
    apply_op vs o = Ok (vs', {| added := false; index_ := i; err := None |})
    /\ vs' = vs
    /\ index (VoteSet.votes vs') i = Some (Some prior)
    /\ forall K, VoteSet.votesByBlock vs' !! K = VoteSet.votesByBlock vs !! K.
Proof.
  intros Hs Hv Hslot Heq _. exists vs.
  rewrite (apply_op_signer _ _ _ _ Hs).
  destruct (valid_vote_checks _ _ _ Hv) as [Hstep Hsig].
  unfold VoteSet.addVote. rewrite Hstep, Hsig, Hslot.
  unfold bytes_Equal. rewrite Heq, String.eqb_refl. done.
Qed.

(** Claim C6.  A valid vote of a validator that has not voted yet, added
    twice: the first call returns [(true, index, nil)], the second
    [(false, index, nil)], the vote set after the second call is the one
    after the first, and the tally of the vote's block key has grown by
    the validator's voting power once. *)
Theorem same_vote_twice_is_idempotent vs o i val :
  signer vs o = Some (i, val) ->
  valid_vote vs val (op_vote o) ->
  index (VoteSet.votes vs) i = Some None ->
  exists vs1,
    apply_op vs o = Ok (vs1, {| added := true; index_ := i; err := None |})
    /\ apply_op vs1 o = Ok (vs1, {| added := false; index_ := i; err := None |})
    /\ index (VoteSet.votes vs1) i = Some (Some (op_vote o))
    /\ tally vs1 (VoteSet.blockKey (op_vote o))
       = wrap64 (tally vs (VoteSet.blockKey (op_vote o)) + sm.VotingPower val)
    /\ VoteSet.totalVotes vs1
       = wrap64 (VoteSet.totalVotes vs + sm.VotingPower val).
Proof.
  intros Hs Hv Hslot.
  destruct (valid_vote_checks _ _ _ Hv) as [Hstep Hsig].
  rewrite (apply_op_signer _ _ _ _ Hs).
  unfold VoteSet.addVote at 1. rewrite Hstep, Hsig, Hslot.
  eexists. split; [reflexivity|].
  match goal with |- context [apply_op ?s _] => set (vs1 := s) end.
  assert (index (VoteSet.votes vs1) i = Some (Some (op_vote o))) as Hslot1.
  { apply index_Some in Hslot as [Hi Hslot]. apply index_Some. split; [done|].
    simpl. apply list_lookup_insert_eq. by apply lookup_lt_Some in Hslot. }
  assert (signer vs1 o = Some (i, val)) as Hs1 by (by destruct o).
  split; [|split; [done|split]].
  - rewrite (apply_op_signer _ _ _ _ Hs1).
    unfold VoteSet.addVote. simpl VoteSet.height. simpl VoteSet.round.
    simpl VoteSet.type_. rewrite Hstep, Hsig, Hslot1.
    unfold bytes_Equal. by rewrite String.eqb_refl.
  - unfold tally at 1. simpl. by rewrite lookup_insert_eq.
  - reflexivity.
Qed.

End Duplicates.

(** ** The +2/3 latch *)

Section Latch.
Context `{Codec}.

(** Once a block key is above two thirds, no add crosses the threshold
    again. *)
Lemma latched_never_crosses vs val valIndex vote :
  valSet_ok (VoteSet.valSet vs) ->
  Inv vs ->
  VoteSet.maj23Exists vs = true ->
  index (VoteSet.votes vs) valIndex = Some None ->
  sm.Validators (VoteSet.valSet vs) !! Z.to_nat valIndex = Some val ->
  crosses vs val vote = false.
Proof.
  intros Hok HI Hex Hslot Hval.
  destruct (crosses_exact _ _ _ vote Hok HI Hslot Hval) as (Hp & Hsum & _ & ->).
  pose proof (twoThirds_exact _ Hok) as [Htt HT].
  destruct (inv_latched _ HI Hex) as [K0 HK0]. rewrite Htt in HK0.
  set (K := VoteSet.blockKey vote).
  apply andb_false_iff.
  destruct (decide (K0 = K)) as [->|Hne]; [right; lia|left].
  pose proof (inv_tally_pair _ HI K0 K Hne) as Hpair.
  pose proof (inv_tally_nonneg _ HI K0). pose proof (inv_tally_nonneg _ HI K).
  pose proof (two_thirds_exclusive (sm.TotalVotingPower (VoteSet.valSet vs))
                (tally vs K0) (tally vs K + sm.VotingPower val)
                ltac:(lia) ltac:(lia) ltac:(lia) ltac:(lia) HK0).
  lia.
Qed.

Lemma apply_op_keeps_latch vs o vs' res :
  valSet_ok (VoteSet.valSet vs) ->
  Inv vs ->
  VoteSet.maj23Exists vs = true ->
  apply_op vs o = Ok (vs', res) ->
  VoteSet.maj23Exists vs' = true
  /\ VoteSet.maj23Hash vs' = VoteSet.maj23Hash vs
  /\ VoteSet.maj23Parts vs' = VoteSet.maj23Parts vs.
Proof.
  intros Hok HI Hex Hop.
  destruct (signer vs o) as [[i val]|] eqn:Hs.
  - rewrite (apply_op_signer _ _ _ _ Hs) in Hop.
    apply signer_spec in Hs as [Hi Hval].
    apply addVote_inv in Hop
      as [[-> _] | (Hslot & _ & _ & _ & He & Hh & Hp)]; [done|].
    rewrite (latched_never_crosses _ _ _ _ Hok HI Hex Hslot Hval) in He, Hh, Hp.
    by rewrite He, Hh, Hp.
  - rewrite (apply_op_no_signer _ _ Hs) in Hop. by injection Hop as <- _.
Qed.

(** Claim C4.  In every history of adds on a vote set (over a validator
    set without negative powers whose doubled total fits [int64]), once
    [HasTwoThirdsMajority] is true, every further sequence of add calls
    returns, leaves it true, and [TwoThirdsMajority] answers with the same
    block hash and parts header as before: no later add replaces the
    latched identifier. *)
Theorem maj23_latch_is_permanent vs ops :
  valSet_ok (VoteSet.valSet vs) ->
  reachable vs ->
  VoteSet.HasTwoThirdsMajority (Some vs) = true ->
  exists vs',
    run vs ops = Ok vs'
    /\ reachable vs'
    /\ VoteSet.HasTwoThirdsMajority (Some vs') = true
    /\ VoteSet.TwoThirdsMajority (Some vs') = VoteSet.TwoThirdsMajority (Some vs).
Proof.
  revert vs. induction ops as [|o ops IH]; intros vs Hok Hr Hex.
  - exists vs. by repeat split.
  - pose proof (reachable_Inv _ Hr Hok) as HI.
    destruct (apply_op_total vs o (inv_len _ HI)) as (vs1 & res & Hop).
    destruct (apply_op_Inv _ _ _ _ Hok HI Hop) as [_ Hvals].
    simpl in Hex.
    destruct (apply_op_keeps_latch _ _ _ _ Hok HI Hex Hop) as (He & Hh & Hp).
    assert (reachable vs1) as Hr1 by (by eapply reachable_add).
    rewrite <- Hvals in Hok.
    destruct (IH vs1 Hok Hr1 He) as (vs' & Hrun & Hr' & He' & Htm).
    exists vs'. split; [simpl; by rewrite Hop|].
    split; [done|]. split; [done|].
    rewrite Htm. simpl. by rewrite He, Hex, Hh, Hp.
Qed.

(** Claim C7.  An accepted vote on a reachable vote set lifts the tally
    of its block key by the validator's power, and the majority latches
    on the strict comparison with the integer [T * 2 / 3] of the total
    voting power [T]: a vote set without a majority has one after the add
    iff the new tally is strictly greater than [T * 2 / 3]; a new tally
    equal to it does not latch (total 9, tally 6); and in a validator set
    of one validator of positive power the first vote latches its block
    at once. *)
Theorem maj23_threshold_is_strict vs o i val :
  valSet_ok (VoteSet.valSet vs) ->
  reachable vs ->
  signer vs o = Some (i, val) ->
  valid_vote vs val (op_vote o) ->
  index (VoteSet.votes vs) i = Some None ->
  let T := sm.TotalVotingPower (VoteSet.valSet vs) in
  let new := tally vs (VoteSet.blockKey (op_vote o)) + sm.VotingPower val in
  exists vs1,
    apply_op vs o = Ok (vs1, {| added := true; index_ := i; err := None |})
    /\ VoteSet.twoThirds (VoteSet.valSet vs) = T * 2 / 3
    /\ tally vs1 (VoteSet.blockKey (op_vote o)) = new
    /\ (VoteSet.HasTwoThirdsMajority (Some vs) = false ->
        (VoteSet.HasTwoThirdsMajority (Some vs1) = true <-> T * 2 / 3 < new))
    /\ (VoteSet.HasTwoThirdsMajority (Some vs) = false ->
        new = T * 2 / 3 ->
        VoteSet.HasTwoThirdsMajority (Some vs1) = false)
    /\ (sm.Validators (VoteSet.valSet vs) = [val] ->
        0 < sm.VotingPower val ->
        T * 2 / 3 < sm.VotingPower val
        /\ VoteSet.TwoThirdsMajority (Some vs1)
           = Ok (BlockHash (op_vote o), BlockParts (op_vote o), true)).
Proof.
  intros Hok Hr Hs Hv Hslot T new.
  pose proof (reachable_Inv _ Hr Hok) as HI.
  pose proof (twoThirds_exact _ Hok) as [Htt HT].
  destruct (signer_spec _ _ _ _ Hs) as [Hi Hval].
  destruct (crosses_exact _ _ _ (op_vote o) Hok HI Hslot Hval)
    as (Hp & Hsum & Hw & Hc).
  fold T in Hsum, Hc, HT, Htt. fold new in Hw, Hc.
  rewrite (apply_op_signer _ _ _ _ Hs).
  destruct (addVote_accept _ _ _ _ Hv Hslot)
    as (vs1 & Hadd & _ & _ & Htally & _ & He & Hh & Hparts).
  fold new in Htally. rewrite Hw in Htally.
  exists vs1. split; [done|]. split; [done|]. split; [done|].
  simpl. rewrite He, Hc.
  pose proof (inv_unlatched _ HI) as Hunl.
  split; [|split].
  - intros Hex. rewrite Hex. destruct (Hunl Hex) as [_ Hall].
    specialize (Hall (VoteSet.blockKey (op_vote o))). rewrite Htt in Hall.
    destruct (Z.gtb_spec new (T * 2 / 3)),
      (Z.leb_spec (tally vs (VoteSet.blockKey (op_vote o))) (T * 2 / 3));
      simpl; split; intros; try done; try lia.
  - intros Hex Heq. rewrite Hex.
    destruct (Z.gtb_spec new (T * 2 / 3)); [lia|done].
  - intros Hone Hpos.
    assert (T = sm.VotingPower val) as HTp.
    { unfold T, sm.TotalVotingPower. rewrite Hone. simpl. lia. }
    assert (T * 2 / 3 < sm.VotingPower val) as Hlt.
    { rewrite HTp. apply Z.div_lt_upper_bound; lia. }
    split; [done|].
    assert (VoteSet.totalVotes vs = 0) as Htot0.
    { rewrite (inv_total _ HI), Hone.
      apply index_Some in Hslot as [_ Hslot].
      rewrite Hone in Hval.
      destruct (Z.to_nat i) as [|n]; [|done].
      destruct (VoteSet.votes vs) as [|o0 rest]; [done|].
      simpl in Hslot. injection Hslot as ->. simpl. by destruct rest. }
    pose proof (inv_tally_le _ HI (VoteSet.blockKey (op_vote o))) as Hle.
    pose proof (inv_tally_nonneg _ HI (VoteSet.blockKey (op_vote o))) as Hnn.
    assert (tally vs (VoteSet.blockKey (op_vote o)) = 0) as Ht0 by lia.
    assert (crosses vs val (op_vote o) = true) as Hcr.
    { rewrite Hc. subst new. rewrite Ht0. simpl.
      apply andb_true_iff. split; [apply Z.gtb_lt; lia | apply Z.leb_le].
      apply Z.div_pos; lia. }
    rewrite Hh, Hparts, <- Hc, Hcr. done.
Qed.

End Latch.

(** ** MakeValidation *)

Section Validation.
Context `{Codec}.

(** What every reachable vote set looks like, whatever the validator
    set: one slot per validator, and no latched hash before the latch. *)
Lemma reachable_shape vs :
  reachable vs ->
  length (VoteSet.votes vs) = length (sm.Validators (VoteSet.valSet vs))
  /\ (VoteSet.maj23Exists vs = false -> VoteSet.maj23Hash vs = "").
Proof.
  induction 1 as [height round type_ valSet vs Hnew | vs o vs' res Hr IH Hop].
  - revert Hnew. unfold VoteSet.NewVoteSet.
    destruct (height =? 0); [discriminate|]. intros [= <-]. simpl.
    rewrite length_replicate. unfold sm.Size. split; [lia|done].
  - destruct IH as [Hlen Hhash].
    destruct (signer vs o) as [[i val]|] eqn:Hs.
    + rewrite (apply_op_signer _ _ _ _ Hs) in Hop.
      apply addVote_inv in Hop
        as [[-> _] | (_ & _ & -> & -> & -> & -> & _)]; [done|].
      rewrite length_insert. split; [done|].
      destruct (crosses vs val (op_vote o)); [discriminate|done].
    + rewrite (apply_op_no_signer _ _ Hs) in Hop. by injection Hop as <- _.
Qed.

Lemma MakeValidation_iterate vs filled rest vals :
  VoteSet.votes vs = filled ++ rest ->
  length rest = length vals ->
  sm.Iterate_from (VoteSet.MakeValidation_visit vs)
    (Z.of_nat (length filled)) vals
    ((matching_vote vs <$> filled) ++ replicate (length rest) None)
  = Ok (matching_vote vs <$> VoteSet.votes vs).
Proof.
  revert filled vals.
  induction rest as [|slot rest IH]; intros filled vals Hvotes Hlen.
  - destruct vals; [|done]. simpl. by rewrite Hvotes, !app_nil_r.
  - destruct vals as [|v vals]; [done|]. simpl sm.Iterate_from.
    assert (index (VoteSet.votes vs) (Z.of_nat (length filled)) = Some slot)
      as Hslot.
    { apply index_Some. split; [lia|]. rewrite Nat2Z.id, Hvotes.
      by apply list_lookup_middle. }
    assert (sm.Iterate_from (VoteSet.MakeValidation_visit vs)
              (Z.of_nat (length filled) + 1) vals
              ((matching_vote vs <$> filled)
               ++ matching_vote vs slot :: replicate (length rest) None)
            = Ok (matching_vote vs <$> VoteSet.votes vs)) as Hnext.
    { specialize (IH (filled ++ [slot]) vals).
      rewrite length_app, fmap_app, <- !app_assoc in IH. simpl in IH.
      replace (Z.of_nat (length filled + 1)) with (Z.of_nat (length filled) + 1)
        in IH by lia.
      apply IH; [done|]. simpl in Hlen. lia. }
    unfold VoteSet.MakeValidation_visit at 1. rewrite Hslot.
    destruct slot as [vote|]; [|exact Hnext].
    simpl matching_vote in Hnext.
    destruct (bytes_Equal (BlockHash vote) (VoteSet.maj23Hash vs));
      [|exact Hnext].
    destruct (PartSetHeader_Equals (BlockParts vote) (VoteSet.maj23Parts vs));
      [|exact Hnext].
    simpl in Hnext |- *.
    assert (length (matching_vote vs <$> filled) = length filled) as Hl
      by apply length_fmap.
    destruct (index ((matching_vote vs <$> filled) ++ _)
                (Z.of_nat (length filled))) as [x|] eqn:Hx.
    + rewrite Nat2Z.id. rewrite insert_app_r_alt by lia.
      rewrite Hl, Nat.sub_diag. exact Hnext.
    + exfalso. unfold index in Hx.
      destruct (Z.ltb_spec (Z.of_nat (length filled)) 0); [lia|].
      apply lookup_ge_None in Hx. rewrite Nat2Z.id, length_app in Hx.
      simpl in Hx. lia.
Qed.

Lemma length_zero_iff_empty (s : string) :
  (Z.of_nat (String.length s) =? 0) = true <-> s = "".
Proof.
  destruct s; simpl; [done|]. split; intros ?; discriminate.
Qed.

(** Claim C3, as the code has it.  On a reachable vote set,
    [MakeValidation] panics exactly when the type is not precommit, or no
    majority is latched, or the latched block hash is empty (a majority
    for the nil block); otherwise it returns the validation whose slot
    [i] is the stored vote of validator [i] when that vote matches the
    latched block hash and parts header, and is empty when it does not. *)
Theorem MakeValidation_needs_block_hash vs :
  reachable vs ->
  (is_Panic (VoteSet.MakeValidation vs) <->
   VoteSet.type_ vs <> VoteTypePrecommit
   \/ VoteSet.maj23Exists vs = false
   \/ VoteSet.maj23Hash vs = "")
  /\ (VoteSet.type_ vs = VoteTypePrecommit ->
      VoteSet.maj23Exists vs = true ->
      VoteSet.maj23Hash vs <> "" ->
      VoteSet.MakeValidation vs
      = Ok {| Precommits := matching_vote vs <$> VoteSet.votes vs |}
      /\ length (matching_vote vs <$> VoteSet.votes vs)
         = Z.to_nat (VoteSet.Size (Some vs))).
Proof.
  intros Hr. destruct (reachable_shape _ Hr) as [Hlen Hhash].
  assert (VoteSet.type_ vs = VoteTypePrecommit ->
          VoteSet.maj23Hash vs <> "" ->
          VoteSet.MakeValidation vs
          = Ok {| Precommits := matching_vote vs <$> VoteSet.votes vs |}) as Hok.
  { intros Hty Hne. unfold VoteSet.MakeValidation.
    rewrite bool_decide_eq_true_2 by done. simpl.
    destruct (Z.of_nat (String.length (VoteSet.maj23Hash vs)) =? 0) eqn:Hz.
    { by apply length_zero_iff_empty in Hz. }
    unfold sm.Iterate, sm.Size. rewrite Nat2Z.id, <- Hlen.
    pose proof (MakeValidation_iterate vs [] (VoteSet.votes vs)
                  (sm.Validators (VoteSet.valSet vs)) eq_refl Hlen) as Hit.
    simpl in Hit. change (Z.of_nat 0) with 0 in Hit.
    by rewrite Hit. }
  split.
  - split.
    + intros Hp.
      destruct (decide (VoteSet.type_ vs = VoteTypePrecommit)) as [Hty|Hty];
        [|by left].
      destruct (decide (VoteSet.maj23Hash vs = "")) as [He|He];
        [by (right; right)|].
      rewrite (Hok Hty He) in Hp. done.
    + intros Hcases. unfold VoteSet.MakeValidation.
      destruct (decide (VoteSet.type_ vs = VoteTypePrecommit)) as [Hty|Hty].
      * rewrite bool_decide_eq_true_2 by done. simpl.
        assert (VoteSet.maj23Hash vs = "") as He.
        { destruct Hcases as [?|[?|?]]; [done|by apply Hhash|done]. }
        apply length_zero_iff_empty in He. by rewrite He.
      * by rewrite bool_decide_eq_false_2.
  - intros Hty _ Hne. split; [by apply Hok|].
    rewrite length_fmap, Hlen. simpl. unfold sm.Size. lia.
Qed.

End Validation.

(** ** POLRound and the nil vote set *)

Lemma getVoteSet_prevote hvs r :
  HeightVoteSet.getVoteSet hvs r VoteTypePrevote
  = Ok (RoundVoteSet.Prevotes <$> HeightVoteSet.roundVoteSets hvs !! r).
Proof.
  unfold HeightVoteSet.getVoteSet.
  by destruct (HeightVoteSet.roundVoteSets hvs !! r).
Qed.

Lemma prevoteMaj23_unfold hvs r :
  prevoteMaj23 hvs r
  = VoteSet.HasTwoThirdsMajority
      (RoundVoteSet.Prevotes <$> HeightVoteSet.roundVoteSets hvs !! r).
Proof.
  unfold prevoteMaj23, HeightVoteSet.Prevotes. by rewrite getVoteSet_prevote.
Qed.

(** The scan from [r] down to 0, given a budget that covers it. *)
Lemma POLRound_loop_spec hvs fuel r :
  (Z.to_nat (r + 1) <= fuel)%nat ->
  exists res,
    HeightVoteSet.POLRound_loop fuel hvs r = Ok res
    /\ ((res = -1 /\ forall r', 0 <= r' <= r -> prevoteMaj23 hvs r' = false)
        \/ (0 <= res <= r
            /\ prevoteMaj23 hvs res = true
            /\ forall r', res < r' <= r -> prevoteMaj23 hvs r' = false)).
Proof.
  revert r. induction fuel as [|fuel IH]; intros r Hfuel.
  - simpl. destruct (Z.geb_spec r 0); [lia|].
    exists (-1). split; [done|]. left. split; [done|]. intros; lia.
  - simpl. destruct (Z.geb_spec r 0) as [Hr|Hr].
    + rewrite getVoteSet_prevote. simpl.
      destruct (VoteSet.HasTwoThirdsMajority _) eqn:Hm.
      * exists r. split; [done|]. right.
        rewrite prevoteMaj23_unfold. split; [lia|]. split; [done|]. intros; lia.
      * destruct (IH (r - 1) ltac:(lia)) as (res & Hres & Hcases).
        exists res. split; [done|].
        assert (forall r', r' = r -> prevoteMaj23 hvs r' = false) as Hhere.
        { intros r' ->. by rewrite prevoteMaj23_unfold. }
        destruct Hcases as [[-> Hnone] | (Hrange & Hyes & Habove)].
        -- left. split; [done|]. intros r' Hr'.
           destruct (decide (r' = r)); [by apply Hhere | apply Hnone; lia].
        -- right. split; [lia|]. split; [done|]. intros r' Hr'.
           destruct (decide (r' = r)); [by apply Hhere | apply Habove; lia].
    + exists (-1). split; [done|]. left. split; [done|]. intros; lia.
Qed.

(** Claim C8.  [POLRound] returns for every height vote set.  Its result
    is the highest round in [[0, round]] whose prevote vote set has
    latched a +2/3 majority (every round above it, up to [round], has
    none), and it is -1 when no round in [[0, round]] has one. *)
Theorem POLRound_is_highest_majority_round hvs :
  exists r,
    HeightVoteSet.POLRound hvs = Ok r
    /\ ((r = -1
         /\ forall r', 0 <= r' <= HeightVoteSet.round hvs ->
                       prevoteMaj23 hvs r' = false)
        \/ (0 <= r <= HeightVoteSet.round hvs
            /\ prevoteMaj23 hvs r = true
            /\ forall r', r < r' <= HeightVoteSet.round hvs ->
                          prevoteMaj23 hvs r' = false)).
Proof.
  unfold HeightVoteSet.POLRound. apply POLRound_loop_spec. lia.
Qed.

(** Claim C10, as the code has it.  The accessors that test their
    receiver return a default on a nil [*VoteSet]: [Height], [Round] and
    [Size] return 0, [BitArray] returns nil, [HasTwoThirdsMajority] and
    [HasTwoThirdsAny] return false.  So [POLRound] returns on every
    height vote set, and a round without an entry counts as a round
    without a majority. *)
Theorem nil_guarded_accessors_return_defaults :
  VoteSet.Height None = 0
  /\ VoteSet.Round None = 0
  /\ VoteSet.Size None = 0
  /\ VoteSet.BitArray None = None
  /\ VoteSet.HasTwoThirdsMajority None = false
  /\ VoteSet.HasTwoThirdsAny None = false
  /\ (forall hvs, is_Ok (HeightVoteSet.POLRound hvs))
  /\ (forall hvs r,
        HeightVoteSet.roundVoteSets hvs !! r = None ->
        HeightVoteSet.Prevotes hvs r = Ok None
        /\ prevoteMaj23 hvs r = false).
Proof.
  do 6 (split; [reflexivity|]). split.
  - intros hvs. unfold HeightVoteSet.POLRound.
    destruct (POLRound_loop_spec hvs (Z.to_nat (HeightVoteSet.round hvs + 1))
                (HeightVoteSet.round hvs) ltac:(lia)) as (res & -> & _).
    exact I.
  - intros hvs r Hnone. split.
    + unfold HeightVoteSet.Prevotes. rewrite getVoteSet_prevote.
      by rewrite Hnone.
    + rewrite prevoteMaj23_unfold. by rewrite Hnone.
Qed.

(** The accessors that do not test their receiver dereference a nil
    [*VoteSet]: not every read accessor is total on nil. *)
Lemma unguarded_accessors_panic_on_nil :
  ~ is_Ok (VoteSet.TwoThirdsMajority None)
  /\ ~ is_Ok (VoteSet.GetByIndex None 0)
  /\ ~ is_Ok (VoteSet.GetByAddress None "a").
Proof. repeat split; intros []. Qed.

(** ** The height vote set on concrete histories *)

Section HeightFacts.
Context `{Codec}.

(** A vote for a round that has no entry, from a peer that has no
    catch-up round yet: the round is allocated and the peer recorded, and
    the call returns before the vote reaches the new vote set. *)
Lemma AddByAddress_catchup hvs address vote peerKey :
  HeightVoteSet.roundVoteSets hvs !! types.Round vote = None ->
  HeightVoteSet.peerCatchupRounds hvs !! peerKey = None ->
  HeightVoteSet.height hvs <> 0 ->
  exists hvs',
    HeightVoteSet.AddByAddress hvs address vote peerKey
    = Ok (hvs', {| added := false; index_ := 0; err := None |})
    /\ HeightVoteSet.peerCatchupRounds hvs' !! peerKey = Some (types.Round vote)
    /\ exists rvs,
         HeightVoteSet.roundVoteSets hvs' !! types.Round vote = Some rvs
         /\ VoteSet.NewVoteSet (HeightVoteSet.height hvs) (types.Round vote)
              VoteTypePrevote (HeightVoteSet.valSet hvs)
            = Ok (RoundVoteSet.Prevotes rvs)
         /\ VoteSet.NewVoteSet (HeightVoteSet.height hvs) (types.Round vote)
              VoteTypePrecommit (HeightVoteSet.valSet hvs)
            = Ok (RoundVoteSet.Precommits rvs).
Proof.
  intros Hround Hpeer Hheight.
  unfold HeightVoteSet.AddByAddress, HeightVoteSet.getVoteSet.
  rewrite Hround. simpl. rewrite Hpeer.
  unfold HeightVoteSet.addRound. rewrite Hround.
  unfold VoteSet.NewVoteSet.
  destruct (Z.eqb_spec (HeightVoteSet.height hvs) 0); [done|]. simpl.
  eexists. split; [reflexivity|]. simpl.
  split; [by rewrite lookup_insert_eq|].
  eexists. split; [by rewrite lookup_insert_eq|]. done.
Qed.

End HeightFacts.

Section Scenarios.
#[local] Existing Instance Sample.codec.

(** Claim C1, on the code.  A height vote set at height 1 and round 0
    over one validator; peer P1, which has no catch-up round, delivers
    that validator's valid precommit for round 7.  The call allocates
    round 7 and records 7 for P1, but it returns [added = false]: the
    vote is not handed to the new vote set, whose slot stays empty. *)
Example catchup_vote_is_not_added :
  (hvs ← HeightVoteSet.NewHeightVoteSet 1 Sample.one;
   '(hvs', res) ← HeightVoteSet.AddByAddress hvs "a"
                    (Sample.vote 1 7 VoteTypePrecommit "AA" (Sample.parts 1 "BB"))
                    "P1";
   Ok (res,
       HeightVoteSet.peerCatchupRounds hvs' !! "P1",
       (fun rvs => VoteSet.votes (RoundVoteSet.Precommits rvs))
         <$> HeightVoteSet.roundVoteSets hvs' !! 7))
  = Ok ({| added := false; index_ := 0; err := None |}, Some 7, Some [None]).
Proof. vm_compute. reflexivity. Qed.

(** The same precommit, once round 7 exists, is accepted: the vote is
    valid, only the call that allocates the round drops it. *)
Example catchup_vote_is_added_on_retry :
  (hvs ← HeightVoteSet.NewHeightVoteSet 1 Sample.one;
   '(hvs1, _) ← HeightVoteSet.AddByAddress hvs "a"
                  (Sample.vote 1 7 VoteTypePrecommit "AA" (Sample.parts 1 "BB"))
                  "P1";
   '(hvs2, res) ← HeightVoteSet.AddByAddress hvs1 "a"
                    (Sample.vote 1 7 VoteTypePrecommit "AA" (Sample.parts 1 "BB"))
                    "P1";
   Ok (res,
       (fun rvs => VoteSet.votes (RoundVoteSet.Precommits rvs))
         <$> HeightVoteSet.roundVoteSets hvs2 !! 7))
  = Ok ({| added := true; index_ := 0; err := None |},
        Some [Some (Sample.vote 1 7 VoteTypePrecommit "AA" (Sample.parts 1 "BB"))]).
Proof. vm_compute. reflexivity. Qed.

(** Claim C2, on the code.  From the fresh height vote set (round 0),
    [SetRound(1)] creates round 1, but [SetRound(2)] adds round 2 in the
    iteration for round 1 and leaves round 1 without an entry, and
    [SetRound(3)] adds round 3 twice and panics: the loop body adds the
    target round, not the round of the iteration. *)
Example SetRound_adds_the_target_round :
  (hvs ← HeightVoteSet.NewHeightVoteSet 1 Sample.one;
   hvs' ← HeightVoteSet.SetRound hvs 1;
   Ok (HeightVoteSet.round hvs', rounds_present hvs' 3))
  = Ok (1, [0; 1])
  /\ (hvs ← HeightVoteSet.NewHeightVoteSet 1 Sample.one;
      hvs' ← HeightVoteSet.SetRound hvs 2;
      Ok (HeightVoteSet.round hvs', rounds_present hvs' 3,
          HeightVoteSet.Prevotes hvs' 1))
     = Ok (2, [0; 2], Ok None)
  /\ (hvs ← HeightVoteSet.NewHeightVoteSet 1 Sample.one;
      HeightVoteSet.SetRound hvs 3)
     = Panic "addRound() for an existing round".
Proof. repeat split; vm_compute; reflexivity. Qed.

(** Rounds 0 and 2 exist and round 1 does not: [POLRound] scans across
    the missing round and returns -1. *)
Example POLRound_skips_missing_round :
  (hvs ← HeightVoteSet.NewHeightVoteSet 1 Sample.one;
   hvs' ← HeightVoteSet.SetRound hvs 2;
   HeightVoteSet.POLRound hvs')
  = Ok (-1).
Proof. vm_compute. reflexivity. Qed.

(** A majority for the nil block: the vote set is a precommit vote set
    and its majority is latched, and [MakeValidation] panics. *)
Lemma MakeValidation_panics_on_nil_majority :
  (vs ← VoteSet.NewVoteSet 1 0 VoteTypePrecommit Sample.one;
   '(vs1, res) ← VoteSet.AddByIndex vs 0
                   (Sample.vote 1 0 VoteTypePrecommit "" (Sample.parts 0 ""));
   Ok (added res, VoteSet.type_ vs1, VoteSet.HasTwoThirdsMajority (Some vs1),
       VoteSet.TwoThirdsMajority (Some vs1), VoteSet.MakeValidation vs1))
  = Ok (true, VoteTypePrecommit, true,
        Ok ("", Sample.parts 0 "", true),
        Panic "Cannot MakeValidation() unless a blockhash has +2/3").
Proof. vm_compute. reflexivity. Qed.

Lemma valSet_ok_one : valSet_ok Sample.one.
Proof.
  split; [repeat constructor; simpl; lia | vm_compute; discriminate].
Defined.

Lemma valSet_ok_nine : valSet_ok Sample.nine.
Proof.
  split; [repeat constructor; simpl; lia | vm_compute; discriminate].
Defined.

Lemma MakeValidation_needs_block_hash_witness :
  exists vs0 vs res,
    VoteSet.NewVoteSet 1 0 VoteTypePrecommit Sample.one = Ok vs0
    /\ apply_op vs0
         (OpAddByIndex 0 (Sample.vote 1 0 VoteTypePrecommit "AA" (Sample.parts 1 "BB")))
       = Ok (vs, res)
    /\ VoteSet.MakeValidation vs
       = Ok {| Precommits :=
                 [Some (Sample.vote 1 0 VoteTypePrecommit "AA" (Sample.parts 1 "BB"))] |}.
Proof.
  eexists _, _, _. split; [reflexivity|]. split; [reflexivity|].
  match goal with |- VoteSet.MakeValidation ?s = _ => set (vs := s) end.
  assert (reachable vs) as Hr.
  { eapply (reachable_add _
              (OpAddByIndex 0
                 (Sample.vote 1 0 VoteTypePrecommit "AA" (Sample.parts 1 "BB")))
              _ _);
      [eapply (reachable_new 1 0 VoteTypePrecommit Sample.one)|]; reflexivity. }
  destruct (MakeValidation_needs_block_hash vs Hr) as [_ Hret].
  destruct Hret as [-> _]; [reflexivity | reflexivity | discriminate |].
  reflexivity.
Defined.

Lemma maj23_latch_is_permanent_witness :
  exists vs0 vs res,
    VoteSet.NewVoteSet 1 0 VoteTypePrevote Sample.one = Ok vs0
    /\ apply_op vs0
         (OpAddByIndex 0 (Sample.vote 1 0 VoteTypePrevote "AA" (Sample.parts 1 "BB")))
       = Ok (vs, res)
    /\ VoteSet.HasTwoThirdsMajority (Some vs) = true
    /\ exists vs',
         run vs [OpAddByAddress "a"
                   (Sample.vote 1 0 VoteTypePrevote "CC" (Sample.parts 1 "DD"));
                 OpAddByIndex 0
                   (Sample.vote 1 0 VoteTypePrevote "AA" (Sample.parts 2 "EE"))]
         = Ok vs'
         /\ VoteSet.HasTwoThirdsMajority (Some vs') = true
         /\ VoteSet.TwoThirdsMajority (Some vs')
            = Ok ("AA", Sample.parts 1 "BB", true).
Proof.
  eexists _, _, _. split; [reflexivity|]. split; [reflexivity|].
  split; [reflexivity|].
  match goal with
  | |- exists vs', run ?s ?ops = _ /\ _ =>
      destruct (maj23_latch_is_permanent s ops) as (vs' & Hrun & _ & Hex & Htm)
  end.
  - exact valSet_ok_one.
  - eapply (reachable_add _
              (OpAddByIndex 0
                 (Sample.vote 1 0 VoteTypePrevote "AA" (Sample.parts 1 "BB")))
              _ _);
      [eapply (reachable_new 1 0 VoteTypePrevote Sample.one)|]; reflexivity.
  - reflexivity.
  - exists vs'. split; [exact Hrun|]. split; [exact Hex|].
    rewrite Htm. reflexivity.
Defined.

Lemma conflicting_vote_is_reported_witness :
  exists vs0 vs res,
    VoteSet.NewVoteSet 1 0 VoteTypePrevote Sample.nine = Ok vs0
    /\ apply_op vs0
         (OpAddByIndex 0 (Sample.vote 1 0 VoteTypePrevote "AA" (Sample.parts 1 "BB")))
       = Ok (vs, res)
    /\ apply_op vs
         (OpAddByAddress "a"
            (Sample.vote 1 0 VoteTypePrevote "BB" (Sample.parts 1 "BB")))
       = Ok (vs,
             {| added := false; index_ := 0;
                err := Some (ErrVoteConflictingSignature
                               (Sample.vote 1 0 VoteTypePrevote "AA" (Sample.parts 1 "BB"))
                               (Sample.vote 1 0 VoteTypePrevote "BB" (Sample.parts 1 "BB"))) |}).
Proof.
  eexists _, _, _. split; [reflexivity|]. split; [reflexivity|].
  apply (conflicting_vote_is_reported _
           (OpAddByAddress "a"
              (Sample.vote 1 0 VoteTypePrevote "BB" (Sample.parts 1 "BB")))
           0 (Sample.validator "a" 6)
           (Sample.vote 1 0 VoteTypePrevote "AA" (Sample.parts 1 "BB"))).
  - reflexivity.
  - repeat split; reflexivity.
  - reflexivity.
  - simpl. discriminate.
Defined.

Lemma same_hash_other_parts_is_duplicate_witness :
  exists vs0 vs res,
    VoteSet.NewVoteSet 1 0 VoteTypePrevote Sample.nine = Ok vs0
    /\ apply_op vs0
         (OpAddByIndex 0 (Sample.vote 1 0 VoteTypePrevote "AA" (Sample.parts 1 "BB")))
       = Ok (vs, res)
    /\ apply_op vs
         (OpAddByIndex 0 (Sample.vote 1 0 VoteTypePrevote "AA" (Sample.parts 2 "EE")))
       = Ok (vs, {| added := false; index_ := 0; err := None |}).
Proof.
  eexists _, _, _. split; [reflexivity|]. split; [reflexivity|].
  match goal with
  | |- apply_op ?s ?o = _ =>
      destruct (same_hash_other_parts_is_duplicate s o 0 (Sample.validator "a" 6)
                  (Sample.vote 1 0 VoteTypePrevote "AA" (Sample.parts 1 "BB")))
        as (vs' & Hop & -> & _)
  end.
  - reflexivity.
  - repeat split; reflexivity.
  - reflexivity.
  - reflexivity.
  - simpl. discriminate.
  - exact Hop.
Defined.

Lemma same_vote_twice_is_idempotent_witness :
  exists vs0,
    VoteSet.NewVoteSet 1 0 VoteTypePrecommit Sample.nine = Ok vs0
    /\ exists vs1,
         apply_op vs0
           (OpAddByAddress "b"
              (Sample.vote 1 0 VoteTypePrecommit "AA" (Sample.parts 1 "BB")))
         = Ok (vs1, {| added := true; index_ := 1; err := None |})
         /\ apply_op vs1
              (OpAddByAddress "b"
                 (Sample.vote 1 0 VoteTypePrecommit "AA" (Sample.parts 1 "BB")))
            = Ok (vs1, {| added := false; index_ := 1; err := None |})
         /\ tally vs1 "AABB" = 3.
Proof.
  eexists. split; [reflexivity|].
  match goal with
  | |- exists vs1, apply_op ?s ?o = _ /\ _ =>
      destruct (same_vote_twice_is_idempotent s o 1 (Sample.validator "b" 3))
        as (vs1 & Hfirst & Hsecond & _ & Htally & _)
  end.
  - reflexivity.
  - repeat split; reflexivity.
  - reflexivity.
  - exists vs1. split; [exact Hfirst|]. split; [exact Hsecond|].
    exact Htally.
Defined.

Lemma maj23_threshold_is_strict_witness :
  (exists vs0,
     VoteSet.NewVoteSet 1 0 VoteTypePrevote Sample.nine = Ok vs0
     /\ exists vs1,
          apply_op vs0
            (OpAddByIndex 0
               (Sample.vote 1 0 VoteTypePrevote "AA" (Sample.parts 1 "BB")))
          = Ok (vs1, {| added := true; index_ := 0; err := None |})
          /\ sm.TotalVotingPower Sample.nine = 9
          /\ VoteSet.twoThirds Sample.nine = 6
          /\ tally vs1 "AABB" = 6
          /\ VoteSet.HasTwoThirdsMajority (Some vs1) = false)
  /\ (exists vs0,
        VoteSet.NewVoteSet 1 0 VoteTypePrevote Sample.one = Ok vs0
        /\ exists vs1,
             apply_op vs0
               (OpAddByAddress "a"
                  (Sample.vote 1 0 VoteTypePrevote "AA" (Sample.parts 1 "BB")))
             = Ok (vs1, {| added := true; index_ := 0; err := None |})
             /\ VoteSet.twoThirds Sample.one = 0
             /\ VoteSet.TwoThirdsMajority (Some vs1)
                = Ok ("AA", Sample.parts 1 "BB", true)).
Proof.
  split.
  - eexists. split; [reflexivity|].
    match goal with
    | |- exists vs1, apply_op ?s ?o = _ /\ _ =>
        destruct (maj23_threshold_is_strict s o 0 (Sample.validator "a" 6))
          as (vs1 & Hop & _ & Htally & _ & Hexact & _)
    end.
    + exact valSet_ok_nine.
    + eapply (reachable_new 1 0 VoteTypePrevote Sample.nine). reflexivity.
    + reflexivity.
    + repeat split; reflexivity.
    + reflexivity.
    + exists vs1. split; [exact Hop|]. split; [reflexivity|].
      split; [reflexivity|]. split; [exact Htally|].
      apply Hexact; reflexivity.
  - eexists. split; [reflexivity|].
    match goal with
    | |- exists vs1, apply_op ?s ?o = _ /\ _ =>
        destruct (maj23_threshold_is_strict s o 0 (Sample.validator "a" 1))
          as (vs1 & Hop & _ & _ & _ & _ & Hone)
    end.
    + exact valSet_ok_one.
    + eapply (reachable_new 1 0 VoteTypePrevote Sample.one). reflexivity.
    + reflexivity.
    + repeat split; reflexivity.
    + reflexivity.
    + exists vs1. split; [exact Hop|]. split; [reflexivity|].
      apply Hone; [reflexivity | simpl; lia].
Defined.

(** Total voting power 9: the validator of power 6 puts its block at
    exactly two thirds, which does not latch; the vote of the validator
    of power 3 for the same block lifts the tally to 9 and latches. *)
Example exactly_two_thirds_does_not_latch :
  (vs ← VoteSet.NewVoteSet 1 0 VoteTypePrevote Sample.nine;
   '(vs1, _) ← VoteSet.AddByIndex vs 0
                 (Sample.vote 1 0 VoteTypePrevote "AA" (Sample.parts 1 "BB"));
   '(vs2, _) ← VoteSet.AddByIndex vs1 1
                 (Sample.vote 1 0 VoteTypePrevote "AA" (Sample.parts 1 "BB"));
   Ok (tally vs1 "AABB", VoteSet.HasTwoThirdsMajority (Some vs1),
       tally vs2 "AABB", VoteSet.HasTwoThirdsMajority (Some vs2)))
  = Ok (6, false, 9, true).
Proof. vm_compute. reflexivity. Qed.

Lemma nil_guarded_accessors_return_defaults_witness :
  exists hvs,
    HeightVoteSet.NewHeightVoteSet 1 Sample.one = Ok hvs
    /\ HeightVoteSet.roundVoteSets hvs !! 5 = None
    /\ HeightVoteSet.Prevotes hvs 5 = Ok None
    /\ prevoteMaj23 hvs 5 = false
    /\ is_Ok (HeightVoteSet.POLRound hvs).
Proof.
  destruct nil_guarded_accessors_return_defaults
    as (_ & _ & _ & _ & _ & _ & Hpol & Hmissing).
  eexists. split; [reflexivity|]. split; [reflexivity|].
  split; [|split].
  - apply Hmissing. reflexivity.
  - apply Hmissing. reflexivity.
  - apply Hpol.
Defined.

(** Four validators of power 1 (two thirds of 4 is 2): the first two
    precommits for a block do not latch, the third does, and the
    validation has the three votes in slots 0 to 2 and slot 3 empty. *)
Example three_of_four_latch :
  let v := Sample.vote 1 0 VoteTypePrecommit "AA" (Sample.parts 1 "BB") in
  (vs ← VoteSet.NewVoteSet 1 0 VoteTypePrecommit Sample.four;
   '(vs1, _) ← VoteSet.AddByIndex vs 0 v;
   '(vs2, _) ← VoteSet.AddByIndex vs1 1 v;
   '(vs3, _) ← VoteSet.AddByIndex vs2 2 v;
   Ok (VoteSet.HasTwoThirdsMajority (Some vs1),
       VoteSet.HasTwoThirdsMajority (Some vs2),
       VoteSet.TwoThirdsMajority (Some vs3),
       VoteSet.HasTwoThirdsAny (Some vs3),
       VoteSet.BitArray (Some vs3),
       VoteSet.MakeValidation vs3))
  = Ok (false, false, Ok ("AA", Sample.parts 1 "BB", true), true,
        Some [true; true; true; false],
        Ok {| Precommits := [Some v; Some v; Some v; None] |}).
Proof. vm_compute. reflexivity. Qed.

(** Rounds 0 to 3, admitted one at a time; prevote majorities in rounds
    0 and 2 give [POLRound] 2, and a majority in round 3 then gives 3. *)
Example POLRound_scenario :
  let prevote r := Sample.vote 1 r VoteTypePrevote "AA" (Sample.parts 1 "BB") in
  (hvs ← HeightVoteSet.NewHeightVoteSet 1 Sample.one;
   hvs ← HeightVoteSet.SetRound hvs 1;
   hvs ← HeightVoteSet.SetRound hvs 2;
   hvs ← HeightVoteSet.SetRound hvs 3;
   let before := HeightVoteSet.POLRound hvs in
   '(hvs, _) ← HeightVoteSet.AddByAddress hvs "a" (prevote 0) "";
   '(hvs, _) ← HeightVoteSet.AddByAddress hvs "a" (prevote 2) "";
   let middle := HeightVoteSet.POLRound hvs in
   '(hvs, _) ← HeightVoteSet.AddByAddress hvs "a" (prevote 3) "";
   Ok (before, middle, HeightVoteSet.POLRound hvs))
  = Ok (Ok (-1), Ok 2, Ok 3).
Proof. vm_compute. reflexivity. Qed.

(** The catch-up history: P1 opens round 7, its vote for round 9 is
    dropped, P2 opens round 5; [SetRound(6)] then adds round 6 in the
    iteration for round 1 and again in the iteration for round 2. *)
Example SetRound_after_catchup :
  let precommit r := Sample.vote 1 r VoteTypePrecommit "AA" (Sample.parts 1 "BB") in
  (hvs ← HeightVoteSet.NewHeightVoteSet 1 Sample.one;
   '(hvs, _) ← HeightVoteSet.AddByAddress hvs "a" (precommit 7) "P1";
   '(hvs, _) ← HeightVoteSet.AddByAddress hvs "a" (precommit 9) "P1";
   '(hvs, _) ← HeightVoteSet.AddByAddress hvs "a" (precommit 5) "P2";
   Ok (rounds_present hvs 9,
       HeightVoteSet.peerCatchupRounds hvs !! "P1",
       HeightVoteSet.peerCatchupRounds hvs !! "P2",
       HeightVoteSet.SetRound hvs 6))
  = Ok ([0; 5; 7], Some 7, Some 5, Panic "addRound() for an existing round").
Proof. vm_compute. reflexivity. Qed.

End Scenarios.

(** * Further properties of the vote set *)

(** ** What an add call returns *)

Section AddResults.
Context `{Codec}.

Lemma checks_valid_vote vs val vote :
  negb (types.Height vote =? VoteSet.height vs)
  || negb (types.Round vote =? VoteSet.round vs)
  || negb (bool_decide (Type_ vote = VoteSet.type_ vs)) = false ->
  negb (account.VerifyBytes (sm.PubKey val) (SignBytes chain_id vote)
          (Signature vote)) = false ->
  valid_vote vs val vote.
Proof.
  intros Hstep Hsig.
  apply orb_false_iff in Hstep as [Hstep Ht].
  apply orb_false_iff in Hstep as [Hh Hr].
  apply negb_false_iff in Hh, Hr, Ht, Hsig.
  apply Z.eqb_eq in Hh, Hr. apply bool_decide_eq_true_1 in Ht.
  by repeat split.
Qed.

Lemma step_check_false vs vote :
  negb (types.Height vote =? VoteSet.height vs)
  || negb (types.Round vote =? VoteSet.round vs)
  || negb (bool_decide (Type_ vote = VoteSet.type_ vs)) = false
  <-> step_matches vs vote.
Proof.
  split.
  - intros Hstep.
    apply orb_false_iff in Hstep as [Hstep Ht].
    apply orb_false_iff in Hstep as [Hh Hr].
    apply negb_false_iff in Hh, Hr, Ht.
    apply Z.eqb_eq in Hh, Hr. apply bool_decide_eq_true_1 in Ht.
    by repeat split.
  - intros (Hh & Hr & Ht). rewrite Hh, Hr, !Z.eqb_refl.
    by rewrite bool_decide_eq_true_2.
Qed.



(** An add call that returns has either added nothing and left the vote
    set as it was, or has put a valid vote into the empty slot of its
    signer. *)
Lemma apply_op_inv vs o vs' res :
  apply_op vs o = Ok (vs', res) ->
  (added res = false /\ vs' = vs)
  \/ (added res = true
      /\ err res = None
      /\ exists val,
           signer vs o = Some (index_ res, val)
           /\ valid_vote vs val (op_vote o)
           /\ index (VoteSet.votes vs) (index_ res) = Some None
           /\ VoteSet.votes vs'
              = <[Z.to_nat (index_ res) := Some (op_vote o)]> (VoteSet.votes vs)
           /\ VoteSet.votesBitArray vs'
              = BitArray_SetIndex (VoteSet.votesBitArray vs) (index_ res) true
           /\ VoteSet.height vs' = VoteSet.height vs
           /\ VoteSet.round vs' = VoteSet.round vs
           /\ VoteSet.type_ vs' = VoteSet.type_ vs
           /\ VoteSet.valSet vs' = VoteSet.valSet vs).
Proof.
  destruct (signer vs o) as [[i val]|] eqn:Hs.
  - rewrite (apply_op_signer _ _ _ _ Hs). unfold VoteSet.addVote.
    destruct (_ || _) eqn:Hstep; [intros [= <- <-]; by left|].
    destruct (negb (account.VerifyBytes _ _ _)) eqn:Hsig;
      [intros [= <- <-]; by left|].
    destruct (index (VoteSet.votes vs) i) as [[existing|]|] eqn:Hslot;
      [| |discriminate].
    + destruct (bytes_Equal _ _); intros [= <- <-]; by left.
    + intros [= <- <-]. right. simpl. split; [done|]. split; [done|].
      exists val. split; [done|].
      split; [by apply checks_valid_vote|]. done.
  - rewrite (apply_op_no_signer _ _ Hs). intros [= <- <-]. by left.
Qed.

(** Extra X1.  Whatever an add call (by index or by address) returns
    without adding, be it an error or a duplicate, it has not changed
    the vote set; and a call that returns [added = true] returns no
    error and the index of the signer's slot, which was empty, took a
    vote that passes the step and signature checks, and now holds it. *)
Theorem add_mutates_only_when_it_adds vs o vs' res :
  apply_op vs o = Ok (vs', res) ->
  (added res = false /\ vs' = vs)
  \/ (added res = true
      /\ err res = None
      /\ exists val,
           signer vs o = Some (index_ res, val)
           /\ valid_vote vs val (op_vote o)
           /\ index (VoteSet.votes vs) (index_ res) = Some None
           /\ index (VoteSet.votes vs') (index_ res) = Some (Some (op_vote o))).
Proof.
  intros Hop.
  apply apply_op_inv in Hop
    as [? | (Hadd & Herr & val & Hs & Hv & Hslot & Hvotes & _)]; [by left|].
  right. split; [done|]. split; [done|]. exists val.
  split; [done|]. split; [done|]. split; [done|].
  apply index_Some in Hslot as [Hi Hslot]. apply index_Some. split; [done|].
  rewrite Hvotes. apply list_lookup_insert_eq. by apply lookup_lt_Some in Hslot.
Qed.


(** Extra X3.  For a known signer the step is checked before the
    signature and both before the slot is read: a vote whose height,
    round or type is not the vote set's is answered with
    [ErrVoteUnexpectedStep], a vote for the right step whose signature
    does not verify with [ErrVoteInvalidSignature]; in both cases the
    index returned is 0 and the vote set is unchanged, whatever the slot
    of the signer holds. *)
Theorem step_and_signature_are_checked_first vs o i val :
  signer vs o = Some (i, val) ->
  (~ step_matches vs (op_vote o) ->
   apply_op vs o
   = Ok (vs, {| added := false; index_ := 0;
                err := Some ErrVoteUnexpectedStep |}))
  /\ (step_matches vs (op_vote o) ->
      account.VerifyBytes (sm.PubKey val) (SignBytes chain_id (op_vote o))
        (Signature (op_vote o)) = false ->
      apply_op vs o
      = Ok (vs, {| added := false; index_ := 0;
                   err := Some ErrVoteInvalidSignature |})).
Proof.
  intros Hs. rewrite (apply_op_signer _ _ _ _ Hs). unfold VoteSet.addVote.
  split.
  - intros Hstep.
    destruct (_ || _) eqn:Hc; [done|].
    by apply step_check_false in Hc.
  - intros Hstep Hsig. apply step_check_false in Hstep.
    by rewrite Hstep, Hsig.
Qed.

End AddResults.

(** ** The slots of a vote set *)

Section Slots.
Context `{Codec}.

Lemma signer_GetByIndex vs o i val :
  signer vs o = Some (i, val) ->
  sm.GetByIndex (VoteSet.valSet vs) i = Some val.
Proof.
  intros Hs. apply signer_spec in Hs as [Hi Hval].
  unfold sm.GetByIndex. by apply index_Some.
Qed.

Lemma index_insert_ne {A} (l : list A) i j x :
  0 <= i -> 0 <= j -> i <> j ->
  index (<[Z.to_nat i := x]> l) j = index l j.
Proof.
  intros Hi Hj Hne. unfold index.
  destruct (Z.ltb_spec j 0); [done|].
  apply list_lookup_insert_ne. lia.
Qed.

Lemma index_insert_eq {A} (l : list A) i x y :
  index l i = Some y ->
  index (<[Z.to_nat i := x]> l) i = Some x.
Proof.
  intros Hl. apply index_Some in Hl as [Hi Hl]. apply index_Some.
  split; [done|]. apply list_lookup_insert_eq. by apply lookup_lt_Some in Hl.
Qed.

(** In every reachable vote set the bit array is the image of the slots,
    and each stored vote passed the checks against the validator of its
    slot. *)
Lemma reachable_slots vs :
  reachable vs ->
  VoteSet.votesBitArray vs = slot_filled <$> VoteSet.votes vs
  /\ forall i v,
       index (VoteSet.votes vs) i = Some (Some v) ->
       exists val,
         sm.GetByIndex (VoteSet.valSet vs) i = Some val
         /\ valid_vote vs val v.
Proof.
  induction 1 as [height round type_ valSet vs Hnew | vs o vs' res Hr IH Hop].
  - revert Hnew. unfold VoteSet.NewVoteSet.
    destruct (height =? 0); [discriminate|]. intros [= <-]. simpl. split.
    + unfold NewBitArray. by rewrite fmap_replicate.
    + intros i v Hi. apply index_Some in Hi as [_ Hi].
      by apply lookup_replicate in Hi as [? _].
  - destruct IH as [Hbits Hvalid].
    apply apply_op_inv in Hop
      as [[_ ->] | (_ & _ & val & Hs & Hv & Hslot & Hvotes & Hb
                    & Hh & Hro & Hty & Hvs)]; [done|].
    set (i := index_ res) in *.
    pose proof Hslot as Hslot'. apply index_Some in Hslot' as [Hi _].
    split.
    + rewrite Hb, Hvotes, Hbits, list_fmap_insert. unfold BitArray_SetIndex.
      by destruct (Z.ltb_spec i 0); [lia|].
    + intros j v Hj. rewrite Hvotes in Hj.
      assert (forall val0, valid_vote vs val0 v -> valid_vote vs' val0 v)
        as Hsame.
      { unfold valid_vote. by rewrite Hh, Hro, Hty. }
      rewrite Hvs.
      destruct (decide (j = i)) as [->|Hne].
      * rewrite (index_insert_eq _ _ _ _ Hslot) in Hj. injection Hj as <-.
        exists val. split; [by eapply signer_GetByIndex | by apply Hsame].
      * pose proof Hj as Hj'. apply index_Some in Hj' as [Hj0 _].
        rewrite index_insert_ne in Hj by done.
        destruct (Hvalid _ _ Hj) as (val0 & Hg & Hv0).
        exists val0. split; [done | by apply Hsame].
Qed.

(** Extra X4.  In every reachable vote set the bit array that
    [BitArray] returns has one bit per validator, and bit [i] is set
    exactly when slot [i] holds a vote. *)
Theorem bit_array_mirrors_slots vs :
  reachable vs ->
  exists bits,
    VoteSet.BitArray (Some vs) = Some bits
    /\ Z.of_nat (length bits) = VoteSet.Size (Some vs)
    /\ forall i, 0 <= i < VoteSet.Size (Some vs) ->
         exists slot,
           VoteSet.GetByIndex (Some vs) i = Ok slot
           /\ index bits i = Some (slot_filled slot).
Proof.
  intros Hr. destruct (reachable_slots _ Hr) as [Hbits _].
  destruct (reachable_shape _ Hr) as [Hlen _].
  exists (slot_filled <$> VoteSet.votes vs). simpl.
  unfold BitArray_Copy. rewrite Hbits. split; [done|].
  unfold sm.Size. rewrite length_fmap, Hlen. split; [done|].
  intros i Hi.
  destruct (index_lt (VoteSet.votes vs) i ltac:(lia)) as [slot Hslot].
  exists slot. rewrite Hslot. split; [done|].
  apply index_Some in Hslot as [Hi0 Hslot]. apply index_Some.
  split; [done|]. by rewrite list_lookup_fmap, Hslot.
Qed.

(** Extra X5.  Every vote that a reachable vote set stores is a vote for
    the height, round and type of the vote set, and its signature
    verifies under the public key of the validator whose slot it is
    in. *)
Theorem stored_votes_passed_the_checks vs i vote :
  reachable vs ->
  VoteSet.GetByIndex (Some vs) i = Ok (Some vote) ->
  types.Height vote = VoteSet.height vs
  /\ types.Round vote = VoteSet.round vs
  /\ Type_ vote = VoteSet.type_ vs
  /\ exists val,
       sm.GetByIndex (VoteSet.valSet vs) i = Some val
       /\ account.VerifyBytes (sm.PubKey val) (SignBytes chain_id vote)
            (Signature vote) = true.
Proof.
  intros Hr Hget. destruct (reachable_slots _ Hr) as [_ Hvalid].
  simpl in Hget.
  destruct (index (VoteSet.votes vs) i) as [slot|] eqn:Hslot; [|done].
  injection Hget as ->.
  destruct (Hvalid _ _ Hslot) as (val & Hg & Hh & Hro & Hty & Hsig).
  repeat split; try done. by exists val.
Qed.

(** Extra X6.  A slot that holds a vote keeps that vote through every
    further sequence of add calls: no call overwrites or clears it. *)
Theorem filled_slot_is_never_overwritten vs ops vs' i vote :
  run vs ops = Ok vs' ->
  VoteSet.GetByIndex (Some vs) i = Ok (Some vote) ->
  VoteSet.GetByIndex (Some vs') i = Ok (Some vote).
Proof.
  revert vs. induction ops as [|o ops IH]; intros vs Hrun Hget.
  - simpl in Hrun. by injection Hrun as <-.
  - simpl in Hrun.
    destruct (apply_op vs o) as [[vs1 res]| |] eqn:Hop; [|done..].
    apply (IH vs1 Hrun).
    apply apply_op_inv in Hop
      as [[_ ->] | (_ & _ & val & _ & _ & Hslot & Hvotes & _)]; [done|].
    simpl in Hget |- *.
    destruct (index (VoteSet.votes vs) i) as [slot|] eqn:Hi; [|done].
    injection Hget as ->.
    assert (i <> index_ res) as Hne by (intros ->; congruence).
    apply index_Some in Hslot as [Hr0 _]. pose proof Hi as Hi'.
    apply index_Some in Hi' as [Hi0 _].
    by rewrite Hvotes, index_insert_ne, Hi.
Qed.

(** Extra X7.  A valid vote for an empty slot can be read back after the
    add: [GetByIndex] of the slot and [GetByAddress] of every address
    that resolves to it return the vote, the bit of the slot is set, and
    every other slot reads as before. *)
Theorem accepted_vote_is_read_back vs o i val :
  reachable vs ->
  signer vs o = Some (i, val) ->
  valid_vote vs val (op_vote o) ->
  index (VoteSet.votes vs) i = Some None ->
  exists vs1 bits,
    apply_op vs o = Ok (vs1, {| added := true; index_ := i; err := None |})
    /\ VoteSet.GetByIndex (Some vs1) i = Ok (Some (op_vote o))
    /\ (forall address val',
          sm.GetByAddress (VoteSet.valSet vs) address = Some (i, val') ->
          VoteSet.GetByAddress (Some vs1) address = Ok (Some (op_vote o)))
    /\ VoteSet.BitArray (Some vs1) = Some bits
    /\ index bits i = Some true
    /\ (forall j, j <> i ->
          VoteSet.GetByIndex (Some vs1) j = VoteSet.GetByIndex (Some vs) j).
Proof.
  intros Hr Hs Hv Hslot.
  rewrite (apply_op_signer _ _ _ _ Hs).
  destruct (addVote_accept _ _ _ _ Hv Hslot)
    as (vs1 & Hadd & Hvs & Hvotes & _).
  assert (reachable vs1) as Hr1.
  { eapply reachable_add; [exact Hr|].
    rewrite (apply_op_signer _ _ _ _ Hs). exact Hadd. }
  destruct (reachable_slots _ Hr1) as [Hbits _].
  assert (index (VoteSet.votes vs1) i = Some (Some (op_vote o))) as Hi1.
  { rewrite Hvotes. by eapply index_insert_eq. }
  exists vs1, (slot_filled <$> VoteSet.votes vs1).
  split; [done|]. simpl. rewrite Hi1. split; [done|].
  split; [|split; [|split]].
  - intros address val' Ha. by rewrite Hvs, Ha, Hi1.
  - unfold BitArray_Copy. by rewrite Hbits.
  - apply index_Some in Hi1 as [Hi0 Hi1]. apply index_Some.
    split; [done|]. by rewrite list_lookup_fmap, Hi1.
  - intros j Hne. rewrite Hvotes.
    apply index_Some in Hslot as [Hi0 _].
    assert (index (<[Z.to_nat i := Some (op_vote o)]> (VoteSet.votes vs)) j
            = index (VoteSet.votes vs) j) as ->; [|done].
    unfold index. destruct (Z.ltb_spec j 0); [done|].
    apply list_lookup_insert_ne. lia.
Qed.

Lemma find_address_Some address vals i0 :
  Exists (fun v => sm.Address v = address) vals ->
  is_Some (sm.find_address address vals i0).
Proof.
  intros Hex. revert i0.
  induction Hex as [v vals Hv | v vals _ IH]; intros i0; simpl;
    unfold bytes_Equal.
  - rewrite Hv, String.eqb_refl. eauto.
  - destruct (String.eqb _ _); eauto.
Qed.

(** Extra X8.  On a reachable vote set [GetByIndex] returns exactly for
    the indices in [[0, Size)] and panics for every other index, and
    [GetByAddress] returns exactly for the addresses of validators and
    panics for every other address. *)
Theorem reads_panic_outside_the_validator_set vs :
  reachable vs ->
  (forall i, is_Ok (VoteSet.GetByIndex (Some vs) i)
             <-> 0 <= i < VoteSet.Size (Some vs))
  /\ (forall i, is_Panic (VoteSet.GetByIndex (Some vs) i)
                <-> ~ 0 <= i < VoteSet.Size (Some vs))
  /\ (forall address,
        is_Ok (VoteSet.GetByAddress (Some vs) address)
        <-> Exists (fun v => sm.Address v = address)
              (sm.Validators (VoteSet.valSet vs)))
  /\ (forall address,
        is_Panic (VoteSet.GetByAddress (Some vs) address)
        <-> Forall (fun v => sm.Address v <> address)
              (sm.Validators (VoteSet.valSet vs))).
Proof.
  intros Hr. destruct (reachable_shape _ Hr) as [Hlen _].
  assert (forall i, 0 <= i < VoteSet.Size (Some vs) ->
                    is_Some (index (VoteSet.votes vs) i)) as Hin.
  { intros i Hi. apply index_lt. simpl in Hi. unfold sm.Size in Hi. lia. }
  assert (forall i, ~ 0 <= i < VoteSet.Size (Some vs) ->
                    index (VoteSet.votes vs) i = None) as Hout.
  { intros i Hi. simpl in Hi. unfold sm.Size in Hi. unfold index.
    destruct (Z.ltb_spec i 0); [done|]. apply lookup_ge_None. lia. }
  assert (forall i, is_Ok (VoteSet.GetByIndex (Some vs) i)
                    <-> 0 <= i < VoteSet.Size (Some vs)) as HokI.
  { intros i. simpl VoteSet.GetByIndex.
    destruct (decide (0 <= i < VoteSet.Size (Some vs))) as [Hi|Hi].
    - destruct (Hin i Hi) as [slot ->]. done.
    - rewrite (Hout i Hi). done. }
  assert (forall address,
            is_Ok (VoteSet.GetByAddress (Some vs) address)
            <-> Exists (fun v => sm.Address v = address)
                  (sm.Validators (VoteSet.valSet vs))) as HokA.
  { intros address. simpl VoteSet.GetByAddress. unfold sm.GetByAddress.
    destruct (sm.find_address address _ 0) as [[i val]|] eqn:Hf.
    - pose proof Hf as Hf'. apply find_address_spec in Hf' as [Hi Hval].
      rewrite Z.sub_0_r in Hval.
      destruct (Hin i) as [slot ->].
      { apply lookup_lt_Some in Hval. simpl. unfold sm.Size. lia. }
      split; [intros _|done].
      apply Exists_exists. exists val. split.
      + apply list_elem_of_lookup. eauto.
      + revert Hf. clear. generalize 0.
        induction (sm.Validators (VoteSet.valSet vs)) as [|v l IH];
          intros i0; simpl; [done|].
        unfold bytes_Equal.
        destruct (String.eqb_spec (sm.Address v) address);
          [by intros [= _ <-] | apply IH].
    - split; [done|]. intros Hex.
      apply (find_address_Some _ _ 0) in Hex as [x Hx]. congruence. }
  split; [exact HokI|]. split; [|split; [exact HokA|]].
  - intros i. rewrite <- HokI. simpl.
    destruct (index (VoteSet.votes vs) i); simpl; tauto.
  - intros address.
    pose proof (Forall_Exists_neg (fun v => sm.Address v = address)
                  (sm.Validators (VoteSet.valSet vs))) as Hneg.
    unfold compose in Hneg. rewrite Hneg, <- HokA. simpl.
    destruct (sm.GetByAddress _ _) as [[i val]|]; simpl; [|tauto].
    destruct (index (VoteSet.votes vs) i); simpl; tauto.
Qed.

End Slots.

(** ** Tallies and voting power *)

Section Tallies.
Context `{Codec}.

Lemma keyPower_insert key votes vals i val vote :
  votes !! i = Some None ->
  vals !! i = Some val ->
  keyPower key (<[i := Some vote]> votes) vals
  = keyPower key votes vals
    + (if decide (VoteSet.blockKey vote = key) then sm.VotingPower val else 0).
Proof.
  revert vals i. induction votes as [|slot votes IH]; intros vals i; [done|].
  destruct vals as [|v vals]; [done|].
  destruct i as [|i]; simpl.
  - intros [= ->] [= ->]. simpl. destruct (decide _); lia.
  - intros Hv Hl. rewrite (IH _ _ Hv Hl).
    destruct slot as [w|]; [|lia]. destruct (decide (VoteSet.blockKey w = key)); lia.
Qed.

Lemma keyPower_replicate key n vals :
  keyPower key (replicate n None) vals = 0.
Proof.
  revert vals. induction n as [|n IH]; intros vals; [done|].
  destruct vals; simpl; [done|]. apply IH.
Qed.

Lemma keyPower_le_votedPower key votes vals :
  Forall (fun v => 0 <= sm.VotingPower v) vals ->
  0 <= keyPower key votes vals <= votedPower votes vals.
Proof.
  intros Hvals. revert votes.
  induction Hvals as [|v vals Hv _ IH]; intros votes.
  - destruct votes; simpl; lia.
  - destruct votes as [|slot votes]; simpl; [lia|].
    specialize (IH votes). destruct slot as [w|]; [|lia].
    destruct (decide _); lia.
Qed.

(** The tallies after an accepted vote. *)
Lemma addVote_tallies vs val valIndex vote vs1 res :
  VoteSet.addVote vs val valIndex vote = Ok (vs1, res) ->
  added res = true ->
  forall key,
    tally vs1 key
    = if decide (VoteSet.blockKey vote = key)
      then wrap64 (tally vs (VoteSet.blockKey vote) + sm.VotingPower val)
      else tally vs key.
Proof.
  unfold VoteSet.addVote.
  destruct (_ || _); [by intros [= <- <-]|].
  destruct (negb _); [by intros [= <- <-]|].
  destruct (index (VoteSet.votes vs) valIndex) as [[existing|]|];
    [| |discriminate].
  - destruct (bytes_Equal _ _); by intros [= <- <-].
  - intros [= <- <-] _ key. unfold tally at 1. simpl.
    rewrite lookup_insert. destruct (decide _); done.
Qed.

(** In every reachable vote set over a validator set that is
    [valSet_ok], the tally of a block key is the voting power of the
    validators whose stored vote has that key, and the latched block key
    is above two thirds. *)
Lemma reachable_tallies vs :
  reachable vs ->
  valSet_ok (VoteSet.valSet vs) ->
  (forall key,
     tally vs key
     = keyPower key (VoteSet.votes vs) (sm.Validators (VoteSet.valSet vs)))
  /\ (VoteSet.maj23Exists vs = true ->
      VoteSet.twoThirds (VoteSet.valSet vs) < tally vs (maj23Key vs)).
Proof.
  induction 1 as [height round type_ valSet vs Hnew | vs o vs' res Hr IH Hop];
    intros Hok.
  - revert Hnew Hok. unfold VoteSet.NewVoteSet.
    destruct (height =? 0); [discriminate|]. intros [= <-] Hok. simpl.
    split; [|discriminate].
    intros key. unfold tally. simpl. by rewrite lookup_empty, keyPower_replicate.
  - destruct (signer vs o) as [[i val]|] eqn:Hs; cycle 1.
    { rewrite (apply_op_no_signer _ _ Hs) in Hop. injection Hop as <- _.
      by apply IH. }
    rewrite (apply_op_signer _ _ _ _ Hs) in Hop.
    pose proof Hop as Hinv.
    apply addVote_inv in Hinv
      as [[-> _] | (Hslot & -> & Hvs & Hvotes & He & Hh & Hp)]; [by apply IH|].
    rewrite Hvs in Hok |- *.
    destruct (IH Hok) as [IHt IHm].
    pose proof (reachable_Inv _ Hr Hok) as HI.
    pose proof (addVote_tallies _ _ _ _ _ _ Hop eq_refl) as Ht.
    destruct (signer_spec _ _ _ _ Hs) as [Hi Hval].
    destruct (crosses_exact _ _ _ (op_vote o) Hok HI Hslot Hval)
      as (Hp0 & _ & Hw & Hc).
    pose proof (twoThirds_exact _ Hok) as [Htt _].
    rewrite Hw in Ht.
    apply index_Some in Hslot as [_ Hslot].
    split.
    + intros key. rewrite Ht, Hvotes.
      rewrite (keyPower_insert _ _ _ _ _ _ Hslot Hval), !IHt.
      destruct (decide _) as [<-|]; lia.
    + rewrite He. unfold maj23Key. rewrite Hh, Hp, Ht.
      destruct (crosses vs val (op_vote o)) eqn:Hcr.
      * intros _. fold (VoteSet.blockKey (op_vote o)).
        rewrite decide_True by done.
        symmetry in Hc. apply andb_true_iff in Hc as [Hgt _].
        rewrite Htt. lia.
      * intros Hex. specialize (IHm Hex). fold (maj23Key vs).
        destruct (decide _) as [Heq|]; [|done].
        rewrite <- Heq in IHm. lia.
Qed.

(** Extra X9.  In every reachable vote set over a validator set without
    negative powers whose doubled total fits [int64], the total of the
    votes is the voting power of the validators whose slot is filled; it
    is never negative and never above the total voting power; and
    [HasTwoThirdsAny] tells whether it is strictly above two thirds of
    the total voting power. *)
Theorem total_votes_is_the_voted_power vs :
  reachable vs ->
  valSet_ok (VoteSet.valSet vs) ->
  let T := sm.TotalVotingPower (VoteSet.valSet vs) in
  VoteSet.totalVotes vs
  = votedPower (VoteSet.votes vs) (sm.Validators (VoteSet.valSet vs))
  /\ 0 <= VoteSet.totalVotes vs <= T
  /\ (VoteSet.HasTwoThirdsAny (Some vs) = true
      <-> T * 2 / 3
          < votedPower (VoteSet.votes vs) (sm.Validators (VoteSet.valSet vs))).
Proof.
  intros Hr Hok T.
  pose proof (reachable_Inv _ Hr Hok) as HI.
  pose proof (twoThirds_exact _ Hok) as [Htt _].
  pose proof (votedPower_bounds (VoteSet.votes vs) _ (proj1 Hok)) as Hb.
  fold (sm.TotalVotingPower (VoteSet.valSet vs)) in Hb. fold T in Hb.
  rewrite <- (inv_total _ HI) in Hb |- *.
  split; [done|]. split; [done|].
  simpl. rewrite Htt. fold T. split; intros Hgt; [|apply Z.gtb_lt]; lia.
Qed.

(** Extra X10.  In every reachable vote set (validator set as in X9)
    the entry of [votesByBlock] for a block key (a key without an entry
    counting as 0) is the voting power of the validators whose stored
    vote has that block key, which lies between 0 and the total of the
    votes. *)
Theorem tally_is_the_power_behind_the_key vs key :
  reachable vs ->
  valSet_ok (VoteSet.valSet vs) ->
  default 0 (VoteSet.votesByBlock vs !! key)
  = keyPower key (VoteSet.votes vs) (sm.Validators (VoteSet.valSet vs))
  /\ 0 <= keyPower key (VoteSet.votes vs) (sm.Validators (VoteSet.valSet vs))
     <= VoteSet.totalVotes vs.
Proof.
  intros Hr Hok. destruct (reachable_tallies _ Hr Hok) as [Ht _].
  pose proof (reachable_Inv _ Hr Hok) as HI.
  split; [apply Ht|]. rewrite (inv_total _ HI).
  apply keyPower_le_votedPower, Hok.
Qed.

(** Extra X11.  When [TwoThirdsMajority] of a reachable vote set
    (validator set as in X9) reports a block, the validators whose
    stored vote has the block key of that block hold strictly more than
    two thirds of the total voting power, and [HasTwoThirdsAny] is true
    as well. *)
Theorem latched_block_is_above_two_thirds vs hash parts :
  reachable vs ->
  valSet_ok (VoteSet.valSet vs) ->
  VoteSet.TwoThirdsMajority (Some vs) = Ok (hash, parts, true) ->
  sm.TotalVotingPower (VoteSet.valSet vs) * 2 / 3
  < keyPower (hash +:+ BinaryBytes parts) (VoteSet.votes vs)
      (sm.Validators (VoteSet.valSet vs))
  /\ VoteSet.HasTwoThirdsAny (Some vs) = true.
Proof.
  intros Hr Hok Htm. simpl in Htm.
  destruct (VoteSet.maj23Exists vs) eqn:Hex; [|done].
  injection Htm as <- <-.
  destruct (reachable_tallies _ Hr Hok) as [Ht Hm].
  pose proof (reachable_Inv _ Hr Hok) as HI.
  pose proof (twoThirds_exact _ Hok) as [Htt _].
  specialize (Hm Hex). unfold maj23Key in Hm. rewrite Ht, Htt in Hm.
  split; [done|]. simpl. apply Z.gtb_lt. rewrite Htt.
  pose proof (keyPower_le_votedPower
                (VoteSet.maj23Hash vs +:+ BinaryBytes (VoteSet.maj23Parts vs))
                (VoteSet.votes vs) _ (proj1 Hok)).
  rewrite (inv_total _ HI). lia.
Qed.

(** Extra X12.  In a reachable vote set (validator set as in X9) the
    majority is latched exactly when the votes stored under some block
    key carry strictly more than two thirds of the total voting power,
    and there is at most one such block key: the key of the latched
    block. *)
Theorem majority_iff_some_key_above_two_thirds vs :
  reachable vs ->
  valSet_ok (VoteSet.valSet vs) ->
  let T := sm.TotalVotingPower (VoteSet.valSet vs) in
  let power key :=
    keyPower key (VoteSet.votes vs) (sm.Validators (VoteSet.valSet vs)) in
  (VoteSet.HasTwoThirdsMajority (Some vs) = true
   <-> exists key, T * 2 / 3 < power key)
  /\ (forall key, T * 2 / 3 < power key -> key = maj23Key vs).
Proof.
  intros Hr Hok T power.
  destruct (reachable_tallies _ Hr Hok) as [Ht Hm].
  pose proof (reachable_Inv _ Hr Hok) as HI.
  pose proof (twoThirds_exact _ Hok) as [Htt HT]. fold T in Htt, HT.
  assert (forall key, T * 2 / 3 < power key ->
                      VoteSet.maj23Exists vs = true) as Hlatched.
  { intros key Hkey. destruct (VoteSet.maj23Exists vs) eqn:Hex; [done|].
    destruct (inv_unlatched _ HI Hex) as [_ Hall]. specialize (Hall key).
    rewrite Ht, Htt in Hall. fold (power key) in Hall. lia. }
  split.
  - simpl. split.
    + intros Hex. exists (maj23Key vs). specialize (Hm Hex).
      rewrite Ht, Htt in Hm. exact Hm.
    + intros [key Hkey]. by eapply Hlatched.
  - intros key Hkey. specialize (Hm (Hlatched _ Hkey)).
    rewrite Ht, Htt in Hm. fold (power (maj23Key vs)) in Hm.
    destruct (decide (key = maj23Key vs)) as [|Hne]; [done|exfalso].
    pose proof (inv_tally_pair _ HI _ _ Hne) as Hpair.
    rewrite !Ht in Hpair.
    pose proof (votedPower_bounds (VoteSet.votes vs) _ (proj1 Hok)) as Hb.
    fold (sm.TotalVotingPower (VoteSet.valSet vs)) in Hb. fold T in Hb.
    rewrite <- (inv_total _ HI) in Hb.
    pose proof (keyPower_le_votedPower key (VoteSet.votes vs) _ (proj1 Hok))
      as Hk1.
    pose proof (keyPower_le_votedPower (maj23Key vs) (VoteSet.votes vs) _
                  (proj1 Hok)) as Hk2.
    unfold power in Hkey, Hm.
    assert (keyPower (maj23Key vs) (VoteSet.votes vs)
              (sm.Validators (VoteSet.valSet vs)) <= T * 2 / 3); [|lia].
    apply (two_thirds_exclusive T
             (keyPower key (VoteSet.votes vs)
                (sm.Validators (VoteSet.valSet vs)))); lia.
Qed.

End Tallies.

(** ** The votes of a validation *)

Section ValidationVotes.
Context `{Codec}.

Lemma PartSetHeader_Equals_eq a b :
  PartSetHeader_Equals a b = true <-> a = b.
Proof.
  destruct a as [ta ha], b as [tb hb]. unfold PartSetHeader_Equals. simpl.
  rewrite andb_true_iff, Z.eqb_eq, String.eqb_eq. split.
  - by intros [-> ->].
  - by intros [= -> ->].
Qed.

Lemma matching_vote_Some vs slot vote :
  matching_vote vs slot = Some vote ->
  slot = Some vote
  /\ BlockHash vote = VoteSet.maj23Hash vs
  /\ BlockParts vote = VoteSet.maj23Parts vs.
Proof.
  destruct slot as [w|]; simpl; [|done].
  destruct (bytes_Equal _ _) eqn:Hh; simpl; [|done].
  destruct (PartSetHeader_Equals _ _) eqn:Hp; [|done].
  intros [= ->]. apply String.eqb_eq in Hh.
  apply PartSetHeader_Equals_eq in Hp. done.
Qed.

(** Extra X13.  Every precommit that [MakeValidation] of a reachable
    vote set puts into slot [i] of the validation is the vote stored in
    slot [i]; it is a precommit for the height and round of the vote
    set, for the latched block hash (which is not empty) and parts
    header, and its signature verifies under the key of validator
    [i]. *)
Theorem validation_holds_signed_precommits_for_the_block vs validation i vote :
  reachable vs ->
  VoteSet.MakeValidation vs = Ok validation ->
  index (Precommits validation) i = Some (Some vote) ->
  VoteSet.GetByIndex (Some vs) i = Ok (Some vote)
  /\ BlockHash vote = VoteSet.maj23Hash vs
  /\ BlockParts vote = VoteSet.maj23Parts vs
  /\ BlockHash vote <> ""
  /\ types.Height vote = VoteSet.height vs
  /\ types.Round vote = VoteSet.round vs
  /\ Type_ vote = VoteTypePrecommit
  /\ exists val,
       sm.GetByIndex (VoteSet.valSet vs) i = Some val
       /\ account.VerifyBytes (sm.PubKey val) (SignBytes chain_id vote)
            (Signature vote) = true.
Proof.
  intros Hr Hmake Hi.
  destruct (reachable_shape _ Hr) as [Hlen _].
  destruct (reachable_slots _ Hr) as [_ Hvalid].
  revert Hmake. unfold VoteSet.MakeValidation.
  destruct (decide (VoteSet.type_ vs = VoteTypePrecommit)) as [Hty|Hty];
    [|by rewrite bool_decide_eq_false_2].
  rewrite bool_decide_eq_true_2 by done. simpl.
  destruct (Z.of_nat (String.length (VoteSet.maj23Hash vs)) =? 0) eqn:Hz;
    [done|].
  assert (VoteSet.maj23Hash vs <> "") as Hne.
  { intros He. apply length_zero_iff_empty in He. congruence. }
  unfold sm.Iterate, sm.Size. rewrite Nat2Z.id, <- Hlen.
  pose proof (MakeValidation_iterate vs [] (VoteSet.votes vs)
                (sm.Validators (VoteSet.valSet vs)) eq_refl Hlen) as Hit.
  simpl in Hit. change (Z.of_nat 0) with 0 in Hit. rewrite Hit. simpl.
  intros [= <-]. simpl in Hi.
  apply index_Some in Hi as [Hi0 Hi]. rewrite list_lookup_fmap in Hi.
  destruct (VoteSet.votes vs !! Z.to_nat i) as [slot|] eqn:Hslot; [|done].
  simpl in Hi. injection Hi as Hm.
  apply matching_vote_Some in Hm as (-> & Hh & Hp).
  assert (index (VoteSet.votes vs) i = Some (Some vote)) as Hidx
    by (by apply index_Some).
  destruct (Hvalid _ _ Hidx) as (val & Hg & Hhe & Hro & Hty' & Hsig).
  simpl. rewrite Hidx.
  repeat split; try done; try congruence. by exists val.
Qed.

End ValidationVotes.

(** * Further properties of the height vote set *)

(** ** Rounds *)

Lemma addRound_inv hvs r hvs' :
  HeightVoteSet.addRound hvs r = Ok hvs' ->
  HeightVoteSet.roundVoteSets hvs !! r = None
  /\ HeightVoteSet.height hvs <> 0
  /\ exists prevotes precommits,
       VoteSet.NewVoteSet (HeightVoteSet.height hvs) r VoteTypePrevote
         (HeightVoteSet.valSet hvs) = Ok prevotes
       /\ VoteSet.NewVoteSet (HeightVoteSet.height hvs) r VoteTypePrecommit
            (HeightVoteSet.valSet hvs) = Ok precommits
       /\ hvs' = HeightVoteSet.with_roundVoteSets hvs
                   (<[r := {| RoundVoteSet.Prevotes := prevotes;
                              RoundVoteSet.Precommits := precommits |}]>
                      (HeightVoteSet.roundVoteSets hvs)).
Proof.
  unfold HeightVoteSet.addRound.
  destruct (HeightVoteSet.roundVoteSets hvs !! r); [done|].
  unfold VoteSet.NewVoteSet.
  destruct (Z.eqb_spec (HeightVoteSet.height hvs) 0); [done|]. simpl.
  intros [= <-]. split; [done|]. split; [done|]. eauto.
Qed.

Lemma addRound_Ok hvs r :
  HeightVoteSet.roundVoteSets hvs !! r = None ->
  HeightVoteSet.height hvs <> 0 ->
  exists hvs', HeightVoteSet.addRound hvs r = Ok hvs'.
Proof.
  intros Hnone Hh. unfold HeightVoteSet.addRound, VoteSet.NewVoteSet.
  rewrite Hnone. destruct (Z.eqb_spec (HeightVoteSet.height hvs) 0); [done|].
  simpl. eauto.
Qed.

(** The loop of [SetRound] returns the height vote set it was given, or
    that set after one [addRound] of the target round. *)
Lemma SetRound_loop_inv fuel hvs r round_ hvs' :
  HeightVoteSet.SetRound_loop fuel hvs r round_ = Ok hvs' ->
  hvs' = hvs \/ HeightVoteSet.addRound hvs round_ = Ok hvs'.
Proof.
  revert hvs r. induction fuel as [|fuel IH]; intros hvs r; simpl.
  - destruct (r <=? round_); [done|]. intros [= <-]. by left.
  - destruct (r <=? round_); [|intros [= <-]; by left].
    destruct (HeightVoteSet.roundVoteSets hvs !! r); [apply IH|].
    destruct (HeightVoteSet.addRound hvs round_) as [hvs1| |] eqn:Hadd;
      simpl; [|done..].
    intros Hloop. right. apply IH in Hloop as [->|Hagain]; [done|].
    apply addRound_inv in Hadd as (_ & _ & pv & pc & _ & _ & ->).
    apply addRound_inv in Hagain as [Hnone _]. simpl in Hnone.
    by rewrite lookup_insert_eq in Hnone.
Qed.

Lemma SetRound_inv hvs r hvs' :
  HeightVoteSet.SetRound hvs r = Ok hvs' ->
  (HeightVoteSet.round hvs = 0 \/ wrap64 (HeightVoteSet.round hvs + 1) <= r)
  /\ (hvs' = HeightVoteSet.with_round hvs r
      \/ exists hvs1,
           HeightVoteSet.addRound hvs r = Ok hvs1
           /\ hvs' = HeightVoteSet.with_round hvs1 r).
Proof.
  unfold HeightVoteSet.SetRound.
  destruct (Z.eqb_spec (HeightVoteSet.round hvs) 0) as [H0|H0]; simpl.
  - destruct (HeightVoteSet.SetRound_loop _ _ _ _) as [hvs1| |] eqn:Hloop;
      simpl; [|done..].
    intros [= <-]. split; [by left|].
    apply SetRound_loop_inv in Hloop as [->|Hadd]; [by left | right; eauto].
  - destruct (Z.ltb_spec r (wrap64 (HeightVoteSet.round hvs + 1))); [done|].
    destruct (HeightVoteSet.SetRound_loop _ _ _ _) as [hvs1| |] eqn:Hloop;
      simpl; [|done..].
    intros [= <-]. split; [by right|].
    apply SetRound_loop_inv in Hloop as [->|Hadd]; [by left | right; eauto].
Qed.

(** Extra X14.  [NewHeightVoteSet] panics for height 0.  For every
    other height it returns a height vote set at round 0 whose only
    round is round 0, with the prevote and the precommit vote set that
    [NewVoteSet] builds for that height, round 0 and the validator set;
    no peer has a catch-up round and [POLRound] is -1. *)
Theorem NewHeightVoteSet_starts_at_round_0 height valSet :
  (height = 0 -> is_Panic (HeightVoteSet.NewHeightVoteSet height valSet))
  /\ (height <> 0 ->
      exists hvs prevotes precommits,
        HeightVoteSet.NewHeightVoteSet height valSet = Ok hvs
        /\ HeightVoteSet.Height hvs = height
        /\ HeightVoteSet.Round hvs = 0
        /\ VoteSet.NewVoteSet height 0 VoteTypePrevote valSet = Ok prevotes
        /\ VoteSet.NewVoteSet height 0 VoteTypePrecommit valSet = Ok precommits
        /\ HeightVoteSet.Prevotes hvs 0 = Ok (Some prevotes)
        /\ HeightVoteSet.Precommits hvs 0 = Ok (Some precommits)
        /\ (forall r, r <> 0 ->
              HeightVoteSet.Prevotes hvs r = Ok None
              /\ HeightVoteSet.Precommits hvs r = Ok None)
        /\ HeightVoteSet.peerCatchupRounds hvs = ∅
        /\ HeightVoteSet.POLRound hvs = Ok (-1)).
Proof.
  unfold HeightVoteSet.NewHeightVoteSet, HeightVoteSet.addRound,
    VoteSet.NewVoteSet. simpl. rewrite lookup_empty. split.
  - intros ->. done.
  - intros Hh. destruct (Z.eqb_spec height 0); [done|]. simpl.
    eexists _, _, _. split; [reflexivity|].
    unfold HeightVoteSet.Prevotes, HeightVoteSet.Precommits,
      HeightVoteSet.getVoteSet, HeightVoteSet.POLRound. simpl.
    rewrite lookup_insert_eq.
    repeat split; try reflexivity.
    + by rewrite lookup_insert_ne, lookup_empty.
    + by rewrite lookup_insert_ne, lookup_empty.
Qed.

(** Extra X15.  [SetRound] must advance, except out of round 0: when
    the current round is not 0, a call with a round that is not above
    it panics; when the current round is 0, a call with a round that is
    not above 0 (0 itself, or a negative round) allocates nothing and
    stores that round as the current round. *)
Theorem SetRound_must_advance_except_from_round_0 hvs r :
  (HeightVoteSet.round hvs <> 0 ->
   - 2 ^ 63 <= HeightVoteSet.round hvs < MaxInt64 ->
   r <= HeightVoteSet.round hvs ->
   HeightVoteSet.SetRound hvs r = Panic "SetRound() must increment hvs.round")
  /\ (HeightVoteSet.round hvs = 0 ->
      r <= 0 ->
      HeightVoteSet.SetRound hvs r = Ok (HeightVoteSet.with_round hvs r)).
Proof.
  unfold HeightVoteSet.SetRound. split.
  - intros Hne Hrange Hle. unfold MaxInt64 in Hrange.
    rewrite wrap64_id by lia.
    destruct (Z.eqb_spec (HeightVoteSet.round hvs) 0); [done|]. simpl.
    destruct (Z.ltb_spec r (HeightVoteSet.round hvs + 1)); [done|lia].
  - intros -> Hle. simpl.
    assert (HeightVoteSet.SetRound_loop
              (Z.to_nat (r - wrap64 (0 + 1) + 1)) hvs (wrap64 (0 + 1)) r
            = Ok hvs) as ->; [|done].
    change (wrap64 (0 + 1)) with 1.
    destruct (Z.to_nat (r - 1 + 1)); simpl;
      destruct (Z.leb_spec 1 r); (lia || done).
Qed.

(** Extra X16.  [SetRound] never disturbs what is there: when it
    returns, the current round is its argument, every round that had an
    entry (round 0, the rounds admitted before, the catch-up rounds)
    still has the same prevote and precommit vote sets, and the height
    and the catch-up rounds of the peers are untouched. *)
Theorem SetRound_keeps_existing_rounds hvs r hvs' :
  HeightVoteSet.SetRound hvs r = Ok hvs' ->
  HeightVoteSet.Round hvs' = r
  /\ HeightVoteSet.Height hvs' = HeightVoteSet.Height hvs
  /\ HeightVoteSet.peerCatchupRounds hvs' = HeightVoteSet.peerCatchupRounds hvs
  /\ (forall k vs,
        HeightVoteSet.Prevotes hvs k = Ok (Some vs) ->
        HeightVoteSet.Prevotes hvs' k = Ok (Some vs))
  /\ (forall k vs,
        HeightVoteSet.Precommits hvs k = Ok (Some vs) ->
        HeightVoteSet.Precommits hvs' k = Ok (Some vs)).
Proof.
  intros Hset.
  apply SetRound_inv in Hset as [_ [-> | (hvs1 & Hadd & ->)]].
  - repeat split; done.
  - apply addRound_inv in Hadd as (Hnone & _ & pv & pc & _ & _ & ->).
    unfold HeightVoteSet.Prevotes, HeightVoteSet.Precommits,
      HeightVoteSet.getVoteSet. simpl.
    split; [done|]. split; [done|]. split; [done|].
    split; intros k vs;
      (destruct (decide (r = k)) as [<-|Hne];
       [by rewrite Hnone | by rewrite lookup_insert_ne]).
Qed.

(** Extra X17.  Advancing by one round works: at a height other than 0
    and a current round below the largest [int] minus one,
    [SetRound(round + 1)] returns, the current round becomes [round + 1]
    and that round has a prevote and a precommit vote set (the ones it
    had, when a catch-up had allocated the round). *)
Theorem SetRound_by_one_allocates_the_round hvs :
  HeightVoteSet.height hvs <> 0 ->
  - 2 ^ 63 <= HeightVoteSet.round hvs ->
  HeightVoteSet.round hvs + 1 < MaxInt64 ->
  exists hvs' prevotes precommits,
    HeightVoteSet.SetRound hvs (HeightVoteSet.round hvs + 1) = Ok hvs'
    /\ HeightVoteSet.Round hvs' = HeightVoteSet.round hvs + 1
    /\ HeightVoteSet.Prevotes hvs' (HeightVoteSet.round hvs + 1)
       = Ok (Some prevotes)
    /\ HeightVoteSet.Precommits hvs' (HeightVoteSet.round hvs + 1)
       = Ok (Some precommits)
    /\ (forall rvs,
          HeightVoteSet.roundVoteSets hvs !! (HeightVoteSet.round hvs + 1)
          = Some rvs ->
          prevotes = RoundVoteSet.Prevotes rvs
          /\ precommits = RoundVoteSet.Precommits rvs).
Proof.
  intros Hh Hlo Hhi. unfold MaxInt64 in Hhi.
  set (r := HeightVoteSet.round hvs + 1).
  unfold HeightVoteSet.SetRound. fold r.
  rewrite (wrap64_id r) by (unfold r; lia).
  replace (Z.to_nat (r - r + 1)) with 1%nat by lia.
  destruct (negb (HeightVoteSet.round hvs =? 0) && (r <? r)) eqn:Hguard.
  { apply andb_true_iff in Hguard as [_ Hlt]. apply Z.ltb_lt in Hlt. lia. }
  simpl HeightVoteSet.SetRound_loop.
  destruct (Z.leb_spec r r); [|lia].
  rewrite (wrap64_id (r + 1)) by (unfold r; lia).
  destruct (Z.leb_spec (r + 1) r); [lia|].
  unfold HeightVoteSet.Prevotes, HeightVoteSet.Precommits,
    HeightVoteSet.getVoteSet.
  destruct (HeightVoteSet.roundVoteSets hvs !! r) as [rvs|] eqn:Hr.
  - simpl. eexists _, _, _. split; [reflexivity|]. simpl. rewrite Hr.
    split; [done|]. split; [done|]. split; [done|].
    by intros ? [= <-].
  - destruct (addRound_Ok _ _ Hr Hh) as [hvs1 Hadd]. rewrite Hadd. simpl.
    apply addRound_inv in Hadd as (_ & _ & pv & pc & _ & _ & ->).
    eexists _, _, _. split; [reflexivity|]. simpl.
    rewrite lookup_insert_eq. split; [done|]. split; [done|].
    split; [done|]. done.
Qed.

(** ** Votes that reach the height vote set *)

Section HeightAdd.
Context `{Codec}.

(** The three ways in which [AddByAddress] returns: the throttle, the
    catch-up, and the delegation to the vote set of the round. *)
Lemma HeightVoteSet_AddByAddress_inv hvs address vote peerKey hvs' res :
  HeightVoteSet.AddByAddress hvs address vote peerKey = Ok (hvs', res) ->
  let r := types.Round vote in
  (HeightVoteSet.roundVoteSets hvs !! r = None
   /\ is_Some (HeightVoteSet.peerCatchupRounds hvs !! peerKey)
   /\ hvs' = hvs
   /\ res = {| added := false; index_ := 0; err := None |})
  \/ (HeightVoteSet.roundVoteSets hvs !! r = None
      /\ HeightVoteSet.peerCatchupRounds hvs !! peerKey = None
      /\ res = {| added := false; index_ := 0; err := None |}
      /\ exists hvs1,
           HeightVoteSet.addRound hvs r = Ok hvs1
           /\ hvs' = HeightVoteSet.with_peerCatchupRounds hvs1
                       (<[peerKey := r]> (HeightVoteSet.peerCatchupRounds hvs1)))
  \/ (exists rvs vs',
        HeightVoteSet.roundVoteSets hvs !! r = Some rvs
        /\ ((Type_ vote = VoteTypePrevote
             /\ VoteSet.AddByAddress (RoundVoteSet.Prevotes rvs) address vote
                = Ok (vs', res)
             /\ hvs' = HeightVoteSet.with_roundVoteSets hvs
                         (<[r := {| RoundVoteSet.Prevotes := vs';
                                    RoundVoteSet.Precommits :=
                                      RoundVoteSet.Precommits rvs |}]>
                            (HeightVoteSet.roundVoteSets hvs)))
            \/ (Type_ vote = VoteTypePrecommit
                /\ VoteSet.AddByAddress (RoundVoteSet.Precommits rvs) address vote
                   = Ok (vs', res)
                /\ hvs' = HeightVoteSet.with_roundVoteSets hvs
                            (<[r := {| RoundVoteSet.Prevotes :=
                                         RoundVoteSet.Prevotes rvs;
                                       RoundVoteSet.Precommits := vs' |}]>
                               (HeightVoteSet.roundVoteSets hvs))))).
Proof.
  intros Hadd r. revert Hadd.
  unfold HeightVoteSet.AddByAddress, HeightVoteSet.getVoteSet,
    HeightVoteSet.putVoteSet. fold r.
  destruct (HeightVoteSet.roundVoteSets hvs !! r) as [rvs|] eqn:Hr; simpl.
  - destruct (Type_ vote) eqn:Hty; simpl; [| |done].
    + destruct (VoteSet.AddByAddress _ _ _) as [[vs' res']| |] eqn:Hv;
        simpl; [|done..].
      intros [= <- <-]. right. right. exists rvs, vs'. split; [done|].
      left. done.
    + destruct (VoteSet.AddByAddress _ _ _) as [[vs' res']| |] eqn:Hv;
        simpl; [|done..].
      intros [= <- <-]. right. right. exists rvs, vs'. split; [done|].
      right. done.
  - destruct (HeightVoteSet.peerCatchupRounds hvs !! peerKey) as [k|] eqn:Hp.
    + intros [= <- <-]. left. split; [done|]. split; [by eexists|]. done.
    + destruct (HeightVoteSet.addRound hvs r) as [hvs1| |] eqn:Ha;
        simpl; [|done..].
      intros [= <- <-]. right. left. split; [done|]. split; [done|].
      split; [done|]. by exists hvs1.
Qed.

(** A hop never touches the height and the validator set, and it keeps
    the catch-up round of every peer that has one. *)
Lemma apply_hop_keeps hvs o hvs' :
  apply_hop hvs o = Ok hvs' ->
  HeightVoteSet.height hvs' = HeightVoteSet.height hvs
  /\ HeightVoteSet.valSet hvs' = HeightVoteSet.valSet hvs
  /\ (forall p k,
        HeightVoteSet.peerCatchupRounds hvs !! p = Some k ->
        HeightVoteSet.peerCatchupRounds hvs' !! p = Some k)
  /\ (forall k, is_Some (HeightVoteSet.roundVoteSets hvs !! k) ->
                is_Some (HeightVoteSet.roundVoteSets hvs' !! k)).
Proof.
  destruct o as [r | address vote peerKey]; simpl.
  - intros Hset.
    apply SetRound_inv in Hset as [_ [-> | (hvs1 & Hadd & ->)]]; [done|].
    apply addRound_inv in Hadd as (Hnone & _ & pv & pc & _ & _ & ->). simpl.
    repeat split; try done. intros k Hk.
    destruct (decide (r = k)) as [<-|];
      [by rewrite lookup_insert_eq | by rewrite lookup_insert_ne].
  - destruct (HeightVoteSet.AddByAddress _ _ _ _) as [[hvs1 res]| |] eqn:Hadd;
      [|done..].
    intros [= <-].
    apply HeightVoteSet_AddByAddress_inv in Hadd
      as [(_ & _ & -> & _)
         | [(Hnone & Hpeer & _ & hvs2 & Ha & ->)
           | (rvs & vs' & Hr & [(_ & _ & ->) | (_ & _ & ->)])]]; simpl.
    + done.
    + apply addRound_inv in Ha as (_ & _ & pv & pc & _ & _ & ->). simpl.
      repeat split; try done.
      * intros p k Hp. rewrite lookup_insert_ne; [done|]. congruence.
      * intros k Hk.
        destruct (decide (types.Round vote = k)) as [<-|];
          [by rewrite lookup_insert_eq | by rewrite lookup_insert_ne].
    + repeat split; try done. intros k Hk.
      destruct (decide (types.Round vote = k)) as [<-|];
        [by rewrite lookup_insert_eq | by rewrite lookup_insert_ne].
    + repeat split; try done. intros k Hk.
      destruct (decide (types.Round vote = k)) as [<-|];
        [by rewrite lookup_insert_eq | by rewrite lookup_insert_ne].
Qed.

(** Extra X18.  A peer is granted one catch-up round for the lifetime
    of the height vote set: once a round is recorded for the peer, every
    further sequence of [SetRound] and [AddByAddress] calls leaves that
    record as it is, and every later vote of the peer for a round that
    has no entry is dropped with [(false, 0, nil)], allocating nothing
    and changing nothing. *)
Theorem catch_up_is_granted_once hvs ops hvs' peerKey k :
  HeightVoteSet.peerCatchupRounds hvs !! peerKey = Some k ->
  hrun hvs ops = Ok hvs' ->
  HeightVoteSet.peerCatchupRounds hvs' !! peerKey = Some k
  /\ forall address vote,
       HeightVoteSet.roundVoteSets hvs' !! types.Round vote = None ->
       HeightVoteSet.AddByAddress hvs' address vote peerKey
       = Ok (hvs', {| added := false; index_ := 0; err := None |}).
Proof.
  intros Hpeer Hrun.
  assert (HeightVoteSet.peerCatchupRounds hvs' !! peerKey = Some k) as Hkept.
  { revert hvs Hpeer Hrun. induction ops as [|o ops IH]; intros hvs Hpeer Hrun.
    - simpl in Hrun. by injection Hrun as <-.
    - simpl in Hrun. destruct (apply_hop hvs o) as [hvs1| |] eqn:Hop; [|done..].
      apply (IH hvs1); [|done].
      by apply (apply_hop_keeps _ _ _ Hop). }
  split; [done|]. intros address vote Hnone.
  unfold HeightVoteSet.AddByAddress, HeightVoteSet.getVoteSet.
  by rewrite Hnone; simpl; rewrite Hkept.
Qed.

(** Extra X19.  A vote for a round that has an entry is handed to the
    vote set of its round and type, and the result of that vote set is
    returned as it is.  Afterwards [Prevotes] or [Precommits] of the
    round returns the vote set that the add has left; the vote set of
    the other type, the vote sets of every other round, the current
    round and the catch-up rounds are unchanged. *)
Theorem AddByAddress_delegates_to_the_vote_set hvs address vote peerKey rvs :
  HeightVoteSet.roundVoteSets hvs !! types.Round vote = Some rvs ->
  let r := types.Round vote in
  let target :=
    match Type_ vote with
    | VoteTypePrecommit => RoundVoteSet.Precommits rvs
    | _ => RoundVoteSet.Prevotes rvs
    end in
  Type_ vote = VoteTypePrevote \/ Type_ vote = VoteTypePrecommit ->
  forall vs' res,
    VoteSet.AddByAddress target address vote = Ok (vs', res) ->
    exists hvs',
      HeightVoteSet.AddByAddress hvs address vote peerKey = Ok (hvs', res)
      /\ HeightVoteSet.getVoteSet hvs' r (Type_ vote) = Ok (Some vs')
      /\ (Type_ vote = VoteTypePrevote ->
          HeightVoteSet.Precommits hvs' r = HeightVoteSet.Precommits hvs r)
      /\ (Type_ vote = VoteTypePrecommit ->
          HeightVoteSet.Prevotes hvs' r = HeightVoteSet.Prevotes hvs r)
      /\ (forall k, k <> r ->
            HeightVoteSet.roundVoteSets hvs' !! k
            = HeightVoteSet.roundVoteSets hvs !! k)
      /\ HeightVoteSet.Round hvs' = HeightVoteSet.Round hvs
      /\ HeightVoteSet.peerCatchupRounds hvs'
         = HeightVoteSet.peerCatchupRounds hvs.
Proof.
  intros Hr r target Hty vs' res Hadd. subst r target.
  unfold HeightVoteSet.AddByAddress, HeightVoteSet.Prevotes,
    HeightVoteSet.Precommits, HeightVoteSet.getVoteSet,
    HeightVoteSet.putVoteSet. rewrite Hr.
  destruct Hty as [Hty|Hty]; rewrite Hty in Hadd |- *; simpl;
    rewrite Hadd; simpl; eexists; (split; [reflexivity|]); simpl;
    rewrite !lookup_insert_eq;
    repeat split; try done; intros k Hk; by rewrite lookup_insert_ne.
Qed.

End HeightAdd.

(** ** Histories of the height vote set *)

Section HeightInvariants.
Context `{Codec}.

Lemma NewVoteSet_fields height round type_ valSet vs :
  VoteSet.NewVoteSet height round type_ valSet = Ok vs ->
  VoteSet.height vs = height
  /\ VoteSet.round vs = round
  /\ VoteSet.type_ vs = type_
  /\ VoteSet.valSet vs = valSet.
Proof.
  unfold VoteSet.NewVoteSet. destruct (height =? 0); [done|].
  by intros [= <-].
Qed.

Lemma stored_ok_new hvs r type_ vs :
  VoteSet.NewVoteSet (HeightVoteSet.height hvs) r type_
    (HeightVoteSet.valSet hvs) = Ok vs ->
  stored_ok hvs r type_ vs.
Proof.
  intros Hnew. destruct (NewVoteSet_fields _ _ _ _ _ Hnew) as (? & ? & ? & ?).
  split; [by eapply reachable_new|]. done.
Qed.

Lemma stored_ok_add hvs r type_ vs address vote vs' res :
  stored_ok hvs r type_ vs ->
  VoteSet.AddByAddress vs address vote = Ok (vs', res) ->
  stored_ok hvs r type_ vs'.
Proof.
  intros (Hr & Hh & Hro & Hty & Hvs) Hadd.
  assert (apply_op vs (OpAddByAddress address vote) = Ok (vs', res)) as Hop
    by exact Hadd.
  split; [by eapply reachable_add|].
  apply apply_op_inv in Hop
    as [[_ ->] | (_ & _ & val & _ & _ & _ & _ & _ & Hh' & Hro' & Hty' & Hvs')];
    [done|].
  by rewrite Hh', Hro', Hty', Hvs'.
Qed.

Lemma rounds_ok_addRound hvs r hvs' :
  rounds_ok hvs ->
  HeightVoteSet.addRound hvs r = Ok hvs' ->
  rounds_ok hvs'.
Proof.
  intros [Hh Hall] Hadd.
  apply addRound_inv in Hadd as (_ & _ & pv & pc & Hpv & Hpc & ->).
  split; [done|]. simpl. intros k rvs Hk.
  destruct (decide (r = k)) as [<-|Hne].
  - rewrite lookup_insert_eq in Hk. injection Hk as <-. simpl.
    split; by apply (stored_ok_new hvs).
  - rewrite lookup_insert_ne in Hk by done. by apply (Hall k).
Qed.

Lemma rounds_ok_step hvs o hvs' :
  rounds_ok hvs ->
  apply_hop hvs o = Ok hvs' ->
  rounds_ok hvs'.
Proof.
  intros Hok. destruct o as [r | address vote peerKey]; simpl.
  - intros Hset.
    apply SetRound_inv in Hset as [_ [-> | (hvs1 & Hadd & ->)]]; [done|].
    by apply (rounds_ok_addRound _ _ _ Hok) in Hadd.
  - destruct (HeightVoteSet.AddByAddress _ _ _ _) as [[hvs1 res]| |] eqn:Hadd;
      [|done..].
    intros [= <-].
    apply HeightVoteSet_AddByAddress_inv in Hadd
      as [(_ & _ & -> & _)
         | [(_ & _ & _ & hvs2 & Ha & ->)
           | (rvs & vs' & Hr & Hcases)]].
    + done.
    + by apply (rounds_ok_addRound _ _ _ Hok) in Ha.
    + destruct Hok as [Hh Hall]. destruct (Hall _ _ Hr) as [Hpv Hpc].
      destruct Hcases as [(_ & Hv & ->) | (_ & Hv & ->)];
        (split; [done|]); simpl; intros k rvs' Hk;
        (destruct (decide (types.Round vote = k)) as [<-|Hne];
         [rewrite lookup_insert_eq in Hk; injection Hk as <-; simpl
         |rewrite lookup_insert_ne in Hk by done; by apply (Hall k)]).
      * split; [by eapply (stored_ok_add hvs) | done].
      * split; [done | by eapply (stored_ok_add hvs)].
Qed.

Lemma rounds_ok_new height valSet hvs :
  HeightVoteSet.NewHeightVoteSet height valSet = Ok hvs ->
  rounds_ok hvs
  /\ HeightVoteSet.height hvs = height
  /\ HeightVoteSet.valSet hvs = valSet.
Proof.
  unfold HeightVoteSet.NewHeightVoteSet.
  destruct (HeightVoteSet.addRound _ 0) as [hvs1| |] eqn:Hadd; simpl; [|done..].
  intros [= <-].
  apply addRound_inv in Hadd as (_ & Hh & pv & pc & Hpv & Hpc & ->).
  simpl in *. split; [|done]. split; [done|]. simpl. intros k rvs Hk.
  destruct (decide (0 = k)) as [<-|Hne].
  - rewrite lookup_insert_eq in Hk. injection Hk as <-. simpl.
    split; by apply stored_ok_new.
  - by rewrite lookup_insert_ne, lookup_empty in Hk.
Qed.

Lemma hreachable_rounds_ok hvs : hreachable hvs -> rounds_ok hvs.
Proof.
  induction 1 as [height valSet hvs Hnew | hvs o hvs' _ IH Hop].
  - by apply rounds_ok_new in Hnew as [? _].
  - by eapply rounds_ok_step.
Qed.

(** Extra X20.  In every height vote set that the constructor,
    [SetRound] and [AddByAddress] can produce, the vote set that
    [Prevotes] or [Precommits] returns for a round was built by
    [NewVoteSet] for the height, that round, that type and the validator
    set of the height vote set and has only seen add calls since; so
    every vote it stores is a vote for that height, round and type. *)
Theorem stored_vote_sets_belong_to_their_round hvs r type_ vs :
  hreachable hvs ->
  HeightVoteSet.getVoteSet hvs r type_ = Ok (Some vs) ->
  reachable vs
  /\ VoteSet.Height (Some vs) = HeightVoteSet.Height hvs
  /\ VoteSet.Round (Some vs) = r
  /\ VoteSet.type_ vs = type_
  /\ VoteSet.valSet vs = HeightVoteSet.valSet hvs
  /\ forall i vote,
       VoteSet.GetByIndex (Some vs) i = Ok (Some vote) ->
       types.Height vote = HeightVoteSet.Height hvs
       /\ types.Round vote = r
       /\ Type_ vote = type_.
Proof.
  intros Hreach Hget. destruct (hreachable_rounds_ok _ Hreach) as [_ Hall].
  assert (stored_ok hvs r type_ vs) as (Hr & Hh & Hro & Hty & Hvs).
  { revert Hget. unfold HeightVoteSet.getVoteSet.
    destruct (HeightVoteSet.roundVoteSets hvs !! r) as [rvs|] eqn:Hrvs; [|done].
    destruct (Hall _ _ Hrvs) as [Hpv Hpc].
    destruct type_; [by intros [= <-]..|done]. }
  do 5 (split; [done|]).
  intros i vote Hi. destruct (reachable_slots _ Hr) as [_ Hvalid].
  simpl in Hi.
  destruct (index (VoteSet.votes vs) i) as [slot|] eqn:Hslot; [|done].
  injection Hi as ->.
  destruct (Hvalid _ _ Hslot) as (val & _ & Hvh & Hvr & Hvt & _).
  unfold HeightVoteSet.Height. by rewrite Hvh, Hvr, Hvt.
Qed.

End HeightInvariants.

Section HeightBounds.
Context `{Codec}.

(** When the loop of [SetRound] starts at or below the target round and
    returns, the target round has an entry. *)
Lemma SetRound_loop_reaches fuel hvs k r hvs' :
  - 2 ^ 63 <= k <= r ->
  r < MaxInt64 ->
  HeightVoteSet.SetRound_loop fuel hvs k r = Ok hvs' ->
  is_Some (HeightVoteSet.roundVoteSets hvs' !! r).
Proof.
  unfold MaxInt64. intros Hk Hr. revert hvs k Hk.
  induction fuel as [|fuel IH]; intros hvs k Hk; simpl;
    destruct (Z.leb_spec k r); try lia; [done|].
  destruct (HeightVoteSet.roundVoteSets hvs !! k) as [rvs|] eqn:Hlook.
  - destruct (decide (k = r)) as [->|Hne].
    + intros Hloop. apply SetRound_loop_inv in Hloop as [->|Hadd]; [by eexists|].
      apply addRound_inv in Hadd as [Hnone _]. congruence.
    + rewrite wrap64_id by lia. apply IH. lia.
  - destruct (HeightVoteSet.addRound hvs r) as [hvs1| |] eqn:Hadd;
      simpl; [|done..].
    intros Hloop.
    apply addRound_inv in Hadd as (_ & _ & pv & pc & _ & _ & ->).
    apply SetRound_loop_inv in Hloop as [->|Hagain].
    + simpl. rewrite lookup_insert_eq. by eexists.
    + apply addRound_inv in Hagain as [Hnone _]. simpl in Hnone.
      by rewrite lookup_insert_eq in Hnone.
Qed.

Lemma SetRound_round_present hvs r hvs' :
  rounds_bounded hvs ->
  0 <= r < MaxInt64 ->
  HeightVoteSet.SetRound hvs r = Ok hvs' ->
  is_Some (HeightVoteSet.roundVoteSets hvs' !! r)
  /\ HeightVoteSet.round hvs <= r.
Proof.
  intros (Hround & H0 & _ & _) Hr. unfold MaxInt64 in *.
  unfold HeightVoteSet.SetRound.
  rewrite (wrap64_id (HeightVoteSet.round hvs + 1)) by lia.
  destruct (negb (HeightVoteSet.round hvs =? 0)
            && (r <? HeightVoteSet.round hvs + 1)) eqn:Hguard; [done|].
  destruct (HeightVoteSet.SetRound_loop _ _ _ _) as [hvs1| |] eqn:Hloop;
    simpl; [|done..].
  intros [= <-]. simpl.
  destruct (Z.le_gt_cases (HeightVoteSet.round hvs + 1) r) as [Hle|Hgt].
  - split; [|lia].
    eapply SetRound_loop_reaches in Hloop;
      [exact Hloop | lia | unfold MaxInt64; lia].
  - apply andb_false_iff in Hguard as [Hz|Hlt]; [|apply Z.ltb_ge in Hlt; lia].
    apply negb_false_iff, Z.eqb_eq in Hz.
    assert (r = 0) as -> by lia. split; [|lia].
    apply SetRound_loop_inv in Hloop as [->|Hadd]; [done|].
    apply addRound_inv in Hadd as [Hnone _]. rewrite Hnone in H0.
    by destruct H0.
Qed.

Lemma rounds_bounded_step hvs o hvs' :
  rounds_bounded hvs ->
  hop_ok o ->
  apply_hop hvs o = Ok hvs' ->
  rounds_bounded hvs' /\ HeightVoteSet.round hvs <= HeightVoteSet.round hvs'.
Proof.
  intros Hb Hok Hop. pose proof Hb as (Hround & H0 & Hcur & Hkeys).
  destruct (apply_hop_keeps _ _ _ Hop) as (_ & _ & Hpeers & Hsome).
  destruct o as [r | address vote peerKey]; simpl in Hop, Hok.
  - destruct (SetRound_round_present _ _ _ Hb Hok Hop) as [Hpresent Hle].
    apply SetRound_inv in Hop as [_ Hcases].
    assert (HeightVoteSet.round hvs' = r) as Hr'
      by (destruct Hcases as [-> | (hvs1 & _ & ->)]; done).
    unfold rounds_bounded. rewrite Hr'. split; [|done].
    split; [done|]. split; [by apply Hsome|]. split; [done|].
    intros k Hk.
    assert (k = r \/ is_Some (HeightVoteSet.roundVoteSets hvs !! k)) as [->|Hold].
    { destruct Hcases as [-> | (hvs1 & Hadd & ->)]; [by right|].
      apply addRound_inv in Hadd as (_ & _ & pv & pc & _ & _ & ->).
      simpl in Hk. destruct (decide (r = k)) as [<-|Hne]; [by left|].
      rewrite lookup_insert_ne in Hk by done. by right. }
    + left. lia.
    + destruct (Hkeys _ Hold) as [Hin | [p Hp]]; [left; lia|].
      right. exists p. by apply Hpeers.
  - destruct (HeightVoteSet.AddByAddress _ _ _ _) as [[hvs1 res]| |] eqn:Hadd;
      [|done..].
    injection Hop as <-.
    apply HeightVoteSet_AddByAddress_inv in Hadd
      as [(_ & _ & -> & _)
         | [(Hnone & Hpeer & _ & hvs2 & Ha & ->)
           | (rvs & vs' & Hr & Hcases)]].
    + split; [done|lia].
    + apply addRound_inv in Ha as (_ & _ & pv & pc & _ & _ & ->).
      unfold rounds_bounded. simpl.
      split; [|lia]. split; [done|].
      split; [by apply Hsome in H0|]. split; [by apply Hsome in Hcur|].
      simpl. intros k Hk.
      destruct (decide (types.Round vote = k)) as [<-|Hne].
      * right. exists peerKey. by rewrite lookup_insert_eq.
      * rewrite lookup_insert_ne in Hk by done.
        destruct (Hkeys _ Hk) as [Hin | [p Hp]]; [by left|].
        right. exists p. rewrite lookup_insert_ne; [done|]. congruence.
    + assert (HeightVoteSet.round hvs1 = HeightVoteSet.round hvs
              /\ HeightVoteSet.peerCatchupRounds hvs1
                 = HeightVoteSet.peerCatchupRounds hvs
              /\ forall k,
                   is_Some (HeightVoteSet.roundVoteSets hvs1 !! k) ->
                   is_Some (HeightVoteSet.roundVoteSets hvs !! k))
        as (Hr1 & Hp1 & Hback).
      { destruct Hcases as [(_ & _ & ->) | (_ & _ & ->)]; simpl;
          (split; [done|]); (split; [done|]); intros k Hk;
          (destruct (decide (types.Round vote = k)) as [<-|Hne];
           [by eexists | by rewrite lookup_insert_ne in Hk]). }
      unfold rounds_bounded. rewrite Hr1, Hp1. split; [|lia]. split; [done|].
      split; [by apply Hsome in H0|].
      split; [rewrite <- Hr1; apply Hsome; by rewrite Hr1|].
      intros k Hk. by apply Hkeys, Hback.
Qed.

Lemma rounds_bounded_new height valSet hvs :
  HeightVoteSet.NewHeightVoteSet height valSet = Ok hvs ->
  rounds_bounded hvs.
Proof.
  unfold HeightVoteSet.NewHeightVoteSet.
  destruct (HeightVoteSet.addRound _ 0) as [hvs1| |] eqn:Hadd; simpl; [|done..].
  intros [= <-].
  apply addRound_inv in Hadd as (_ & _ & pv & pc & _ & _ & ->).
  unfold rounds_bounded, MaxInt64. simpl. rewrite lookup_insert_eq.
  split; [lia|]. split; [by eexists|]. split; [by eexists|].
  intros k Hk. destruct (decide (0 = k)) as [<-|Hne]; [left; lia|].
  rewrite lookup_insert_ne, lookup_empty in Hk by done. by destruct Hk.
Qed.

(** A latched prevote majority of a round survives every hop. *)
Lemma prevoteMaj23_step hvs o hvs' r :
  rounds_ok hvs ->
  valSet_ok (HeightVoteSet.valSet hvs) ->
  apply_hop hvs o = Ok hvs' ->
  prevoteMaj23 hvs r = true ->
  prevoteMaj23 hvs' r = true.
Proof.
  intros [_ Hall] Hvok Hop. rewrite !prevoteMaj23_unfold.
  destruct (HeightVoteSet.roundVoteSets hvs !! r) as [rvs|] eqn:Hrvs; [|done].
  simpl. intros Hmaj.
  destruct o as [r0 | address vote peerKey]; simpl in Hop.
  - apply SetRound_inv in Hop as [_ [-> | (hvs1 & Hadd & ->)]]; simpl.
    + by rewrite Hrvs.
    + apply addRound_inv in Hadd as (Hnone & _ & pv & pc & _ & _ & ->). simpl.
      rewrite lookup_insert_ne by congruence. by rewrite Hrvs.
  - destruct (HeightVoteSet.AddByAddress _ _ _ _) as [[hvs1 res]| |] eqn:Hadd;
      [|done..].
    injection Hop as <-.
    apply HeightVoteSet_AddByAddress_inv in Hadd
      as [(_ & _ & -> & _)
         | [(Hnone & _ & _ & hvs2 & Ha & ->)
           | (rvs0 & vs' & Hr & Hcases)]].
    + by rewrite Hrvs.
    + apply addRound_inv in Ha as (_ & _ & pv & pc & _ & _ & ->). simpl.
      rewrite lookup_insert_ne by congruence. by rewrite Hrvs.
    + destruct (decide (types.Round vote = r)) as [Heq|Hne].
      * rewrite Heq in Hr. rewrite Hr in Hrvs. injection Hrvs as ->.
        destruct Hcases as [(_ & Hv & ->) | (_ & _ & ->)]; simpl;
          rewrite Heq, lookup_insert_eq; simpl; [|done].
        destruct (Hall _ _ Hr) as [(Hreach & _ & _ & _ & Hvs) _].
        rewrite <- Hvs in Hvok.
        pose proof (reachable_Inv _ Hreach Hvok) as HI.
        assert (apply_op (RoundVoteSet.Prevotes rvs)
                  (OpAddByAddress address vote) = Ok (vs', res)) as Hop
          by exact Hv.
        by destruct (apply_op_keeps_latch _ _ _ _ Hvok HI Hmaj Hop).
      * destruct Hcases as [(_ & _ & ->) | (_ & _ & ->)]; simpl;
          rewrite lookup_insert_ne by done; by rewrite Hrvs.
Qed.

(** What a history of hops keeps. *)
Lemma hrun_keeps hvs ops hvs' :
  rounds_ok hvs ->
  rounds_bounded hvs ->
  Forall hop_ok ops ->
  hrun hvs ops = Ok hvs' ->
  rounds_ok hvs'
  /\ rounds_bounded hvs'
  /\ HeightVoteSet.round hvs <= HeightVoteSet.round hvs'
  /\ HeightVoteSet.valSet hvs' = HeightVoteSet.valSet hvs
  /\ (valSet_ok (HeightVoteSet.valSet hvs) ->
      forall r, prevoteMaj23 hvs r = true -> prevoteMaj23 hvs' r = true).
Proof.
  intros Hok Hb Hops. revert hvs Hok Hb.
  induction Hops as [|o ops Ho _ IH]; intros hvs Hok Hb; simpl.
  - intros [= <-]. split; [done|]. split; [done|]. split; [lia|]. done.
  - destruct (apply_hop hvs o) as [hvs1| |] eqn:Hop; [|done..].
    intros Hrun.
    pose proof (rounds_ok_step _ _ _ Hok Hop) as Hok1.
    destruct (rounds_bounded_step _ _ _ Hb Ho Hop) as [Hb1 Hle].
    destruct (apply_hop_keeps _ _ _ Hop) as (_ & Hvs & _).
    destruct (IH hvs1 Hok1 Hb1 Hrun) as (Hok' & Hb' & Hle' & Hvs' & Hmaj).
    split; [done|]. split; [done|]. split; [lia|].
    split; [congruence|].
    intros Hvok r Hr. apply Hmaj; [by rewrite Hvs|].
    exact (prevoteMaj23_step hvs o hvs1 r Hok Hvok Hop Hr).
Qed.

Lemma POLRound_mono hvs hvs' :
  HeightVoteSet.round hvs <= HeightVoteSet.round hvs' ->
  (forall r, prevoteMaj23 hvs r = true -> prevoteMaj23 hvs' r = true) ->
  exists a b,
    HeightVoteSet.POLRound hvs = Ok a
    /\ HeightVoteSet.POLRound hvs' = Ok b
    /\ a <= b.
Proof.
  intros Hle Hmaj. unfold HeightVoteSet.POLRound.
  destruct (POLRound_loop_spec hvs (Z.to_nat (HeightVoteSet.round hvs + 1))
              (HeightVoteSet.round hvs) ltac:(lia)) as (a & Ha & Hca).
  destruct (POLRound_loop_spec hvs' (Z.to_nat (HeightVoteSet.round hvs' + 1))
              (HeightVoteSet.round hvs') ltac:(lia)) as (b & Hb & Hcb).
  exists a, b. split; [done|]. split; [done|].
  destruct Hca as [[-> _] | (Hra & Hya & _)].
  - destruct Hcb as [[-> _] | (Hrb & _)]; lia.
  - apply Hmaj in Hya.
    destruct Hcb as [[-> Hnone] | (Hrb & _ & Habove)].
    + rewrite Hnone in Hya by lia. done.
    + destruct (Z.le_gt_cases a b) as [|Hgt]; [done|].
      rewrite Habove in Hya by lia. done.
Qed.

(** Extra X21.  Start from [NewHeightVoteSet] and call [SetRound] (with
    rounds that are not negative and below the largest [int]) and
    [AddByAddress] in any order.  Then every round that has an entry
    lies between 0 and the current round or is the catch-up round
    recorded for some peer. *)
Theorem rounds_are_admitted_or_catch_up height valSet hvs0 ops hvs k :
  HeightVoteSet.NewHeightVoteSet height valSet = Ok hvs0 ->
  Forall hop_ok ops ->
  hrun hvs0 ops = Ok hvs ->
  is_Some (HeightVoteSet.roundVoteSets hvs !! k) ->
  0 <= k <= HeightVoteSet.Round hvs
  \/ exists peerKey, HeightVoteSet.peerCatchupRounds hvs !! peerKey = Some k.
Proof.
  intros Hnew Hops Hrun.
  destruct (rounds_ok_new _ _ _ Hnew) as [Hok _].
  pose proof (rounds_bounded_new _ _ _ Hnew) as Hb.
  destruct (hrun_keeps _ _ _ Hok Hb Hops Hrun) as (_ & (_ & _ & _ & Hkeys) & _).
  apply Hkeys.
Qed.

(** Extra X22.  In such a history the current round is never negative,
    and round 0 and the current round always have their prevote and
    precommit vote sets: [Prevotes] and [Precommits] of the current
    round are never nil. *)
Theorem current_round_has_vote_sets height valSet hvs0 ops hvs :
  HeightVoteSet.NewHeightVoteSet height valSet = Ok hvs0 ->
  Forall hop_ok ops ->
  hrun hvs0 ops = Ok hvs ->
  0 <= HeightVoteSet.Round hvs
  /\ forall r, r = 0 \/ r = HeightVoteSet.Round hvs ->
       exists prevotes precommits,
         HeightVoteSet.Prevotes hvs r = Ok (Some prevotes)
         /\ HeightVoteSet.Precommits hvs r = Ok (Some precommits).
Proof.
  intros Hnew Hops Hrun.
  destruct (rounds_ok_new _ _ _ Hnew) as [Hok _].
  pose proof (rounds_bounded_new _ _ _ Hnew) as Hb.
  destruct (hrun_keeps _ _ _ Hok Hb Hops Hrun)
    as (_ & (Hround & H0 & Hcur & _) & _).
  split; [unfold HeightVoteSet.Round; lia|].
  intros r Hr.
  assert (is_Some (HeightVoteSet.roundVoteSets hvs !! r)) as [rvs Hrvs]
    by (destruct Hr as [->| ->]; done).
  unfold HeightVoteSet.Prevotes, HeightVoteSet.Precommits,
    HeightVoteSet.getVoteSet. rewrite Hrvs. eauto.
Qed.

(** Extra X23.  In such a history the current round never decreases,
    and neither does [POLRound] when the validator set has no negative
    powers and a doubled total within [int64]: a round whose prevotes
    have latched a majority keeps it. *)
Theorem round_and_POLRound_never_decrease height valSet hvs0 ops1 hvs ops2 hvs' :
  HeightVoteSet.NewHeightVoteSet height valSet = Ok hvs0 ->
  Forall hop_ok (ops1 ++ ops2) ->
  hrun hvs0 ops1 = Ok hvs ->
  hrun hvs ops2 = Ok hvs' ->
  HeightVoteSet.Round hvs <= HeightVoteSet.Round hvs'
  /\ (valSet_ok valSet ->
      exists a b,
        HeightVoteSet.POLRound hvs = Ok a
        /\ HeightVoteSet.POLRound hvs' = Ok b
        /\ a <= b).
Proof.
  intros Hnew Hops Hrun1 Hrun2. apply Forall_app in Hops as [Hops1 Hops2].
  destruct (rounds_ok_new _ _ _ Hnew) as (Hok & _ & Hvs0).
  pose proof (rounds_bounded_new _ _ _ Hnew) as Hb.
  destruct (hrun_keeps _ _ _ Hok Hb Hops1 Hrun1) as (Hok1 & Hb1 & _ & Hvs1 & _).
  destruct (hrun_keeps _ _ _ Hok1 Hb1 Hops2 Hrun2) as (_ & _ & Hle & _ & Hmaj).
  split; [done|]. intros Hvok. apply POLRound_mono; [done|].
  apply Hmaj. by rewrite Hvs1, Hvs0.
Qed.

End HeightBounds.

(** ** More on single vote sets and single calls *)

Section MoreFacts.
Context `{Codec}.

(** Extra X24.  [NewVoteSet] panics for height 0.  For every other
    height it returns a vote set of that height, round and type with one
    empty slot and one clear bit per validator and no majority:
    [TwoThirdsMajority] reports none and [MakeValidation] panics; over a
    validator set without negative powers whose doubled total fits
    [int64], [HasTwoThirdsAny] is false as well. *)
Theorem NewVoteSet_is_empty height round type_ valSet :
  (height = 0 -> is_Panic (VoteSet.NewVoteSet height round type_ valSet))
  /\ (height <> 0 ->
      exists vs,
        VoteSet.NewVoteSet height round type_ valSet = Ok vs
        /\ VoteSet.Height (Some vs) = height
        /\ VoteSet.Round (Some vs) = round
        /\ VoteSet.Size (Some vs) = sm.Size valSet
        /\ (forall i, 0 <= i < sm.Size valSet ->
              VoteSet.GetByIndex (Some vs) i = Ok None)
        /\ VoteSet.BitArray (Some vs)
           = Some (replicate (length (sm.Validators valSet)) false)
        /\ VoteSet.HasTwoThirdsMajority (Some vs) = false
        /\ VoteSet.TwoThirdsMajority (Some vs)
           = Ok ("", {| Total := 0; Hash := "" |}, false)
        /\ is_Panic (VoteSet.MakeValidation vs)
        /\ (valSet_ok valSet -> VoteSet.HasTwoThirdsAny (Some vs) = false)).
Proof.
  unfold VoteSet.NewVoteSet. split.
  - intros ->. done.
  - intros Hh. destruct (Z.eqb_spec height 0); [done|].
    eexists. split; [reflexivity|]. simpl.
    unfold sm.Size. rewrite Nat2Z.id.
    do 3 (split; [done|]). split; [|split].
    + intros i Hi. unfold index. destruct (Z.ltb_spec i 0); [lia|].
      rewrite lookup_replicate_2 by lia. done.
    + unfold BitArray_Copy, NewBitArray. by rewrite Nat2Z.id.
    + do 2 (split; [done|]). split.
      * unfold VoteSet.MakeValidation. simpl.
        by destruct (bool_decide (type_ = VoteTypePrecommit)).
      * intros Hok. destruct (twoThirds_exact _ Hok) as [Htt HT].
        rewrite Htt.
        destruct (Z.gtb_spec 0 (sm.TotalVotingPower valSet * 2 / 3)) as [Hgt|];
          [|done].
        pose proof (Z.div_pos (sm.TotalVotingPower valSet * 2) 3). lia.
Qed.

Lemma run_keeps_slot vs ops vs' i vote :
  run vs ops = Ok vs' ->
  index (VoteSet.votes vs) i = Some (Some vote) ->
  index (VoteSet.votes vs') i = Some (Some vote).
Proof.
  revert vs. induction ops as [|o ops IH]; intros vs Hrun Hslot.
  - simpl in Hrun. by injection Hrun as <-.
  - simpl in Hrun.
    destruct (apply_op vs o) as [[vs1 res]| |] eqn:Hop; [|done..].
    apply (IH vs1 Hrun).
    apply apply_op_inv in Hop
      as [[_ ->] | (_ & _ & val & _ & _ & Hempty & Hvotes & _)]; [done|].
    assert (i <> index_ res) as Hne by (intros ->; congruence).
    apply index_Some in Hempty as [Hr0 _]. pose proof Hslot as Hi'.
    apply index_Some in Hi' as [Hi0 _].
    by rewrite Hvotes, index_insert_ne.
Qed.

(** Extra X25.  A validator's vote is added at most once: after an add
    call has returned [added = true] with some index, no later add call
    on that vote set, after whatever calls in between, returns
    [added = true] with the same index. *)
Theorem vote_is_added_at_most_once vs o1 vs1 res1 ops vs2 o2 vs3 res2 :
  apply_op vs o1 = Ok (vs1, res1) ->
  added res1 = true ->
  run vs1 ops = Ok vs2 ->
  apply_op vs2 o2 = Ok (vs3, res2) ->
  index_ res2 = index_ res1 ->
  added res2 = false.
Proof.
  intros Hop1 Hadd1 Hrun Hop2 Hsame.
  apply apply_op_inv in Hop1
    as [[Hno _] | (_ & _ & val & _ & _ & Hempty & Hvotes & _)];
    [congruence|].
  assert (index (VoteSet.votes vs1) (index_ res1) = Some (Some (op_vote o1)))
    as Hfilled by (rewrite Hvotes; by eapply index_insert_eq).
  pose proof (run_keeps_slot _ _ _ _ _ Hrun Hfilled) as Hstill.
  apply apply_op_inv in Hop2
    as [[Hno _] | (_ & _ & val2 & _ & _ & Hempty2 & _)]; [done|].
  rewrite Hsame in Hempty2. congruence.
Qed.

(** Extra X26.  [AddByAddress] of the height vote set touches only the
    round of the vote and the catch-up record of the sending peer: when
    it returns, the height and the current round are unchanged, every
    other round has the entry it had, every round that had an entry
    still has one, and every other peer has the catch-up record it
    had. *)
Theorem AddByAddress_touches_only_the_round_of_the_vote
  hvs address vote peerKey hvs' res :
  HeightVoteSet.AddByAddress hvs address vote peerKey = Ok (hvs', res) ->
  HeightVoteSet.Round hvs' = HeightVoteSet.Round hvs
  /\ HeightVoteSet.Height hvs' = HeightVoteSet.Height hvs
  /\ (forall k, k <> types.Round vote ->
        HeightVoteSet.roundVoteSets hvs' !! k
        = HeightVoteSet.roundVoteSets hvs !! k)
  /\ (forall k, is_Some (HeightVoteSet.roundVoteSets hvs !! k) ->
                is_Some (HeightVoteSet.roundVoteSets hvs' !! k))
  /\ (forall p, p <> peerKey ->
        HeightVoteSet.peerCatchupRounds hvs' !! p
        = HeightVoteSet.peerCatchupRounds hvs !! p).
Proof.
  intros Hadd.
  assert (apply_hop hvs (HAddByAddress address vote peerKey) = Ok hvs') as Hop
    by (simpl; by rewrite Hadd).
  destruct (apply_hop_keeps _ _ _ Hop) as (_ & _ & _ & Hsome).
  apply HeightVoteSet_AddByAddress_inv in Hadd
    as [(_ & _ & -> & _)
       | [(_ & _ & _ & hvs2 & Ha & ->)
         | (rvs & vs' & Hr & [(_ & _ & ->) | (_ & _ & ->)])]].
  - done.
  - apply addRound_inv in Ha as (_ & _ & pv & pc & _ & _ & ->). simpl.
    repeat split; try done.
    + intros k Hk. by rewrite lookup_insert_ne.
    + intros p Hp. by rewrite lookup_insert_ne.
  - simpl. repeat split; try done. intros k Hk. by rewrite lookup_insert_ne.
  - simpl. repeat split; try done. intros k Hk. by rewrite lookup_insert_ne.
Qed.

End MoreFacts.

(** * The further properties on concrete histories *)

#[local] Existing Instance Sample.codec.

Lemma reachable_fresh_nine type_ vs :
  VoteSet.NewVoteSet 1 0 type_ Sample.nine = Ok vs -> reachable vs.
Proof. apply reachable_new. Defined.

Lemma add_mutates_only_when_it_adds_witness :
  exists vs0 vs1 res,
    VoteSet.NewVoteSet 1 0 VoteTypePrevote Sample.nine = Ok vs0
    /\ apply_op vs0 (OpAddByAddress "b" (Sample.prevote "AA")) = Ok (vs1, res)
    /\ added res = true
    /\ index_ res = 1
    /\ index (VoteSet.votes vs0) 1 = Some None
    /\ index (VoteSet.votes vs1) 1 = Some (Some (Sample.prevote "AA")).
Proof.
  eexists _, _, _. split; [reflexivity|].
  match goal with |- ?E /\ _ => eassert E as Heq by (vm_compute; reflexivity) end.
  split; [exact Heq|].
  destruct (add_mutates_only_when_it_adds _ _ _ _ Heq)
    as [[Hno _] | (Hadd & _ & val & _ & _ & Hbefore & Hafter)];
    [discriminate Hno|].
  split; [exact Hadd|]. split; [reflexivity|].
  split; [exact Hbefore | exact Hafter].
Defined.


Lemma step_and_signature_are_checked_first_witness :
  exists vs,
    VoteSet.NewVoteSet 1 0 VoteTypePrevote Sample.nine = Ok vs
    /\ apply_op vs (OpAddByIndex 0 (Sample.precommit "AA"))
       = Ok (vs, {| added := false; index_ := 0;
                    err := Some ErrVoteUnexpectedStep |})
    /\ apply_op vs (OpAddByIndex 0 (Sample.forged "AA"))
       = Ok (vs, {| added := false; index_ := 0;
                    err := Some ErrVoteInvalidSignature |}).
Proof.
  eexists. split; [reflexivity|]. split.
  - apply (step_and_signature_are_checked_first _
             (OpAddByIndex 0 (Sample.precommit "AA")) 0 (Sample.validator "a" 6));
      [reflexivity|].
    intros (_ & _ & Hty). discriminate Hty.
  - apply (step_and_signature_are_checked_first _
             (OpAddByIndex 0 (Sample.forged "AA")) 0 (Sample.validator "a" 6));
      [reflexivity | repeat split | reflexivity].
Defined.

Lemma bit_array_mirrors_slots_witness :
  exists vs0 vs1 res,
    VoteSet.NewVoteSet 1 0 VoteTypePrevote Sample.nine = Ok vs0
    /\ apply_op vs0 (OpAddByAddress "b" (Sample.prevote "AA")) = Ok (vs1, res)
    /\ exists bits,
         VoteSet.BitArray (Some vs1) = Some bits
         /\ Z.of_nat (length bits) = 2.
Proof.
  eexists _, _, _. split; [reflexivity|].
  match goal with |- ?E /\ _ => eassert E as Heq by (vm_compute; reflexivity) end.
  split; [exact Heq|].
  match type of Heq with
  | apply_op ?s _ = Ok (?s1, _) =>
      assert (reachable s1) as Hr
        by (eapply reachable_add;
            [apply (reachable_fresh_nine VoteTypePrevote s); reflexivity
            |exact Heq]);
      destruct (bit_array_mirrors_slots s1 Hr) as (bits & Hbits & Hlen & _)
  end.
  exists bits. split; [exact Hbits|]. rewrite Hlen. reflexivity.
Defined.

Lemma stored_votes_passed_the_checks_witness :
  exists vs0 vs1 res,
    VoteSet.NewVoteSet 1 0 VoteTypePrevote Sample.nine = Ok vs0
    /\ apply_op vs0 (OpAddByAddress "b" (Sample.prevote "AA")) = Ok (vs1, res)
    /\ VoteSet.GetByIndex (Some vs1) 1 = Ok (Some (Sample.prevote "AA"))
    /\ Type_ (Sample.prevote "AA") = VoteSet.type_ vs1.
Proof.
  eexists _, _, _. split; [reflexivity|].
  match goal with |- ?E /\ _ => eassert E as Heq by (vm_compute; reflexivity) end.
  split; [exact Heq|].
  match type of Heq with
  | apply_op ?s _ = Ok (?s1, _) =>
      assert (reachable s1) as Hr
        by (eapply reachable_add;
            [apply (reachable_fresh_nine VoteTypePrevote s); reflexivity
            |exact Heq]);
      destruct (stored_votes_passed_the_checks s1 1 (Sample.prevote "AA") Hr
                  eq_refl) as (_ & _ & Hty & _)
  end.
  split; [reflexivity | exact Hty].
Defined.

Lemma filled_slot_is_never_overwritten_witness :
  exists vs0 vs1 res vs2,
    VoteSet.NewVoteSet 1 0 VoteTypePrevote Sample.nine = Ok vs0
    /\ apply_op vs0 (OpAddByAddress "b" (Sample.prevote "AA")) = Ok (vs1, res)
    /\ run vs1 [OpAddByIndex 1 (Sample.prevote "CC");
                OpAddByIndex 0 (Sample.prevote "CC");
                OpAddByAddress "b" (Sample.prevote "DD")] = Ok vs2
    /\ VoteSet.GetByIndex (Some vs2) 1 = Ok (Some (Sample.prevote "AA")).
Proof.
  eexists _, _, _, _. split; [reflexivity|]. split; [reflexivity|].
  match goal with |- ?E /\ _ => eassert E as Hrun by (vm_compute; reflexivity) end.
  split; [exact Hrun|].
  exact (filled_slot_is_never_overwritten _ _ _ 1 (Sample.prevote "AA")
           Hrun eq_refl).
Defined.

Lemma accepted_vote_is_read_back_witness :
  exists vs0 vs1,
    VoteSet.NewVoteSet 1 0 VoteTypePrevote Sample.nine = Ok vs0
    /\ apply_op vs0 (OpAddByIndex 1 (Sample.prevote "AA"))
       = Ok (vs1, {| added := true; index_ := 1; err := None |})
    /\ VoteSet.GetByIndex (Some vs1) 1 = Ok (Some (Sample.prevote "AA"))
    /\ VoteSet.GetByAddress (Some vs1) "b" = Ok (Some (Sample.prevote "AA"))
    /\ VoteSet.GetByIndex (Some vs1) 0 = Ok None.
Proof.
  eexists. 
  match goal with
  | |- exists vs1, ?N = Ok ?s /\ _ =>
      assert (N = Ok s) as Hnew by reflexivity;
      destruct (accepted_vote_is_read_back s
                  (OpAddByIndex 1 (Sample.prevote "AA")) 1
                  (Sample.validator "b" 3)
                  (reachable_fresh_nine _ _ Hnew) eq_refl)
        as (vs1 & bits & Hop & Hget & Haddr & _ & _ & Hother)
  end.
  - repeat split; reflexivity.
  - reflexivity.
  - exists vs1. split; [exact Hnew|]. split; [exact Hop|].
    split; [exact Hget|]. split; [exact (Haddr "b" _ eq_refl)|].
    rewrite (Hother 0) by lia. reflexivity.
Defined.

Lemma reads_panic_outside_the_validator_set_witness :
  exists vs,
    VoteSet.NewVoteSet 1 0 VoteTypePrevote Sample.nine = Ok vs
    /\ is_Ok (VoteSet.GetByIndex (Some vs) 1)
    /\ is_Panic (VoteSet.GetByIndex (Some vs) 2)
    /\ is_Ok (VoteSet.GetByAddress (Some vs) "b")
    /\ is_Panic (VoteSet.GetByAddress (Some vs) "zz").
Proof.
  eexists.
  match goal with
  | |- ?N = Ok ?s /\ _ =>
      assert (N = Ok s) as Hnew by reflexivity;
      destruct (reads_panic_outside_the_validator_set s
                  (reachable_fresh_nine _ _ Hnew))
        as (HokI & HpI & HokA & HpA)
  end.
  split; [exact Hnew|].
  split; [apply HokI; simpl; unfold sm.Size; simpl; lia|].
  split; [apply HpI; simpl; unfold sm.Size; simpl; lia|].
  split; [apply HokA; right; left; reflexivity|].
  apply HpA. repeat constructor; simpl; discriminate.
Defined.

Lemma reachable_after_one_vote valSet type_ o vs0 vs1 res :
  VoteSet.NewVoteSet 1 0 type_ valSet = Ok vs0 ->
  apply_op vs0 o = Ok (vs1, res) ->
  reachable vs1.
Proof.
  intros Hnew Hop. eapply reachable_add; [|exact Hop].
  eapply reachable_new. exact Hnew.
Defined.

Lemma total_votes_is_the_voted_power_witness :
  exists vs0 vs1 res,
    VoteSet.NewVoteSet 1 0 VoteTypePrevote Sample.nine = Ok vs0
    /\ apply_op vs0 (OpAddByAddress "b" (Sample.prevote "AA")) = Ok (vs1, res)
    /\ VoteSet.totalVotes vs1 = 3
    /\ 0 <= VoteSet.totalVotes vs1 <= 9.
Proof.
  eexists _, _, _.
  match goal with |- ?E /\ _ => eassert E as Hnew by (vm_compute; reflexivity) end.
  split; [exact Hnew|].
  match goal with |- ?E /\ _ => eassert E as Hop by (vm_compute; reflexivity) end.
  split; [exact Hop|].
  destruct (total_votes_is_the_voted_power _
              (reachable_after_one_vote _ _ _ _ _ _ Hnew Hop) valSet_ok_nine)
    as (Htot & Hrange & _).
  split; [etransitivity; [exact Htot | reflexivity] | exact Hrange].
Defined.

Lemma tally_is_the_power_behind_the_key_witness :
  exists vs0 vs1 res,
    VoteSet.NewVoteSet 1 0 VoteTypePrevote Sample.nine = Ok vs0
    /\ apply_op vs0 (OpAddByAddress "b" (Sample.prevote "AA")) = Ok (vs1, res)
    /\ VoteSet.votesByBlock vs1 !! "AABB" = Some 3
    /\ keyPower "AABB" (VoteSet.votes vs1) (sm.Validators Sample.nine) = 3
    /\ keyPower "CCBB" (VoteSet.votes vs1) (sm.Validators Sample.nine) = 0.
Proof.
  eexists _, _, _.
  match goal with |- ?E /\ _ => eassert E as Hnew by (vm_compute; reflexivity) end.
  split; [exact Hnew|].
  match goal with |- ?E /\ _ => eassert E as Hop by (vm_compute; reflexivity) end.
  split; [exact Hop|].
  split; [reflexivity|]. split.
  - destruct (tally_is_the_power_behind_the_key _ "AABB"
                (reachable_after_one_vote _ _ _ _ _ _ Hnew Hop) valSet_ok_nine)
      as [Ht _].
    etransitivity; [symmetry; exact Ht | reflexivity].
  - destruct (tally_is_the_power_behind_the_key _ "CCBB"
                (reachable_after_one_vote _ _ _ _ _ _ Hnew Hop) valSet_ok_nine)
      as [Ht _].
    etransitivity; [symmetry; exact Ht | reflexivity].
Defined.

Lemma latched_block_is_above_two_thirds_witness :
  exists vs0 vs1 res,
    VoteSet.NewVoteSet 1 0 VoteTypePrevote Sample.one = Ok vs0
    /\ apply_op vs0 (OpAddByAddress "a" (Sample.prevote "AA")) = Ok (vs1, res)
    /\ VoteSet.TwoThirdsMajority (Some vs1) = Ok ("AA", Sample.parts 1 "BB", true)
    /\ 0 < keyPower "AABB" (VoteSet.votes vs1) (sm.Validators Sample.one)
    /\ VoteSet.HasTwoThirdsAny (Some vs1) = true.
Proof.
  eexists _, _, _.
  match goal with |- ?E /\ _ => eassert E as Hnew by (vm_compute; reflexivity) end.
  split; [exact Hnew|].
  match goal with |- ?E /\ _ => eassert E as Hop by (vm_compute; reflexivity) end.
  split; [exact Hop|].
  split; [reflexivity|].
  exact (latched_block_is_above_two_thirds _ "AA" (Sample.parts 1 "BB")
           (reachable_after_one_vote _ _ _ _ _ _ Hnew Hop) valSet_ok_one
           eq_refl).
Defined.

Lemma majority_iff_some_key_above_two_thirds_witness :
  exists vs0 vs1 res,
    VoteSet.NewVoteSet 1 0 VoteTypePrevote Sample.one = Ok vs0
    /\ apply_op vs0 (OpAddByAddress "a" (Sample.prevote "AA")) = Ok (vs1, res)
    /\ VoteSet.HasTwoThirdsMajority (Some vs1) = true
    /\ exists key,
         0 < keyPower key (VoteSet.votes vs1) (sm.Validators Sample.one).
Proof.
  eexists _, _, _.
  match goal with |- ?E /\ _ => eassert E as Hnew by (vm_compute; reflexivity) end.
  split; [exact Hnew|].
  match goal with |- ?E /\ _ => eassert E as Hop by (vm_compute; reflexivity) end.
  split; [exact Hop|].
  split; [reflexivity|].
  destruct (majority_iff_some_key_above_two_thirds _
              (reachable_after_one_vote _ _ _ _ _ _ Hnew Hop) valSet_ok_one)
    as [[Hex _] _].
  exact (Hex eq_refl).
Defined.

Lemma validation_holds_signed_precommits_for_the_block_witness :
  exists vs0 vs1 res validation,
    VoteSet.NewVoteSet 1 0 VoteTypePrecommit Sample.one = Ok vs0
    /\ apply_op vs0 (OpAddByAddress "a" (Sample.precommit "AA")) = Ok (vs1, res)
    /\ VoteSet.MakeValidation vs1 = Ok validation
    /\ index (Precommits validation) 0 = Some (Some (Sample.precommit "AA"))
    /\ VoteSet.GetByIndex (Some vs1) 0 = Ok (Some (Sample.precommit "AA"))
    /\ BlockHash (Sample.precommit "AA") = VoteSet.maj23Hash vs1.
Proof.
  eexists _, _, _, _.
  match goal with |- ?E /\ _ => eassert E as Hnew by (vm_compute; reflexivity) end.
  split; [exact Hnew|].
  match goal with |- ?E /\ _ => eassert E as Hop by (vm_compute; reflexivity) end.
  split; [exact Hop|].
  match goal with |- ?E /\ _ => eassert E as Hmake by (vm_compute; reflexivity) end.
  split; [exact Hmake|].
  split; [reflexivity|].
  destruct (validation_holds_signed_precommits_for_the_block _ _ 0
              (Sample.precommit "AA")
              (reachable_after_one_vote _ _ _ _ _ _ Hnew Hop) Hmake eq_refl)
    as (Hget & Hhash & _).
  split; [exact Hget | exact Hhash].
Defined.

Lemma NewHeightVoteSet_starts_at_round_0_witness :
  is_Panic (HeightVoteSet.NewHeightVoteSet 0 Sample.one)
  /\ exists hvs,
       HeightVoteSet.NewHeightVoteSet 1 Sample.one = Ok hvs
       /\ HeightVoteSet.Round hvs = 0
       /\ HeightVoteSet.Prevotes hvs 1 = Ok None
       /\ HeightVoteSet.POLRound hvs = Ok (-1).
Proof.
  split.
  - apply (NewHeightVoteSet_starts_at_round_0 0 Sample.one). reflexivity.
  - destruct (NewHeightVoteSet_starts_at_round_0 1 Sample.one) as [_ Hok].
    destruct Hok as (hvs & pv & pc & Hnew & _ & Hround & _ & _ & _ & _
                     & Hother & _ & Hpol); [lia|].
    exists hvs. split; [exact Hnew|]. split; [exact Hround|].
    split; [apply (Hother 1); lia | exact Hpol].
Defined.

Lemma SetRound_must_advance_except_from_round_0_witness :
  exists hvs0 hvs1,
    HeightVoteSet.NewHeightVoteSet 1 Sample.one = Ok hvs0
    /\ HeightVoteSet.SetRound hvs0 1 = Ok hvs1
    /\ HeightVoteSet.SetRound hvs1 1
       = Panic "SetRound() must increment hvs.round"
    /\ HeightVoteSet.SetRound hvs1 0
       = Panic "SetRound() must increment hvs.round"
    /\ HeightVoteSet.SetRound hvs0 0 = Ok (HeightVoteSet.with_round hvs0 0)
    /\ HeightVoteSet.SetRound hvs0 (-3) = Ok (HeightVoteSet.with_round hvs0 (-3)).
Proof.
  eexists _, _. split; [reflexivity|]. split; [reflexivity|].
  split; [|split; [|split]].
  - apply SetRound_must_advance_except_from_round_0;
      simpl; unfold MaxInt64; lia.
  - apply SetRound_must_advance_except_from_round_0;
      simpl; unfold MaxInt64; lia.
  - apply SetRound_must_advance_except_from_round_0; [reflexivity | lia].
  - apply SetRound_must_advance_except_from_round_0; [reflexivity | lia].
Defined.

Lemma SetRound_keeps_existing_rounds_witness :
  exists hvs0 hvs1 res hvs2 vs,
    HeightVoteSet.NewHeightVoteSet 1 Sample.one = Ok hvs0
    /\ HeightVoteSet.AddByAddress hvs0 "a"
         (Sample.vote 1 7 VoteTypePrecommit "AA" (Sample.parts 1 "BB")) "P1"
       = Ok (hvs1, res)
    /\ HeightVoteSet.SetRound hvs1 1 = Ok hvs2
    /\ HeightVoteSet.Round hvs2 = 1
    /\ HeightVoteSet.Precommits hvs1 7 = Ok (Some vs)
    /\ HeightVoteSet.Precommits hvs2 7 = Ok (Some vs).
Proof.
  eexists _, _, _, _, _. split; [reflexivity|]. split; [reflexivity|].
  match goal with |- ?E /\ _ => eassert E as Hset by (vm_compute; reflexivity) end.
  split; [exact Hset|].
  destruct (SetRound_keeps_existing_rounds _ _ _ Hset)
    as (Hround & _ & _ & _ & Hpc).
  split; [exact Hround|].
  match goal with |- ?E /\ _ => eassert E as Hbefore by (vm_compute; reflexivity) end.
  split; [exact Hbefore|].
  exact (Hpc 7 _ Hbefore).
Defined.

Lemma SetRound_by_one_allocates_the_round_witness :
  exists hvs0 hvs1 prevotes,
    HeightVoteSet.NewHeightVoteSet 1 Sample.one = Ok hvs0
    /\ HeightVoteSet.SetRound hvs0 1 = Ok hvs1
    /\ HeightVoteSet.Round hvs1 = 1
    /\ HeightVoteSet.Prevotes hvs1 1 = Ok (Some prevotes).
Proof.
  eexists. 
  match goal with
  | |- exists hvs1 prevotes, ?N = Ok ?s /\ _ =>
      assert (N = Ok s) as Hnew by reflexivity;
      destruct (SetRound_by_one_allocates_the_round s)
        as (hvs1 & pv & pc & Hset & Hround & Hpv & _)
  end.
  - simpl. lia.
  - simpl. lia.
  - simpl. unfold MaxInt64. lia.
  - exists hvs1, pv. split; [exact Hnew|]. split; [exact Hset|].
    split; [exact Hround | exact Hpv].
Defined.

Lemma catch_up_is_granted_once_witness :
  exists hvs0 hvs1 res hvs2,
    HeightVoteSet.NewHeightVoteSet 1 Sample.one = Ok hvs0
    /\ HeightVoteSet.AddByAddress hvs0 "a"
         (Sample.vote 1 7 VoteTypePrecommit "AA" (Sample.parts 1 "BB")) "P1"
       = Ok (hvs1, res)
    /\ HeightVoteSet.peerCatchupRounds hvs1 !! "P1" = Some 7
    /\ hrun hvs1
         [HSetRound 1;
          HAddByAddress "a"
            (Sample.vote 1 7 VoteTypePrecommit "AA" (Sample.parts 1 "BB")) "P2"]
       = Ok hvs2
    /\ HeightVoteSet.peerCatchupRounds hvs2 !! "P1" = Some 7
    /\ HeightVoteSet.AddByAddress hvs2 "a"
         (Sample.vote 1 9 VoteTypePrecommit "AA" (Sample.parts 1 "BB")) "P1"
       = Ok (hvs2, {| added := false; index_ := 0; err := None |}).
Proof.
  eexists _, _, _, _. split; [reflexivity|]. split; [reflexivity|].
  match goal with |- ?E /\ _ => eassert E as Hpeer by (vm_compute; reflexivity) end.
  split; [exact Hpeer|].
  match goal with |- ?E /\ _ => eassert E as Hrun by (vm_compute; reflexivity) end.
  split; [exact Hrun|].
  destruct (catch_up_is_granted_once _ _ _ _ _ Hpeer Hrun) as [Hkept Hdrop].
  split; [exact Hkept|]. apply Hdrop. reflexivity.
Defined.

Lemma AddByAddress_delegates_to_the_vote_set_witness :
  exists hvs0 hvs1 vs1,
    HeightVoteSet.NewHeightVoteSet 1 Sample.one = Ok hvs0
    /\ HeightVoteSet.AddByAddress hvs0 "a" (Sample.prevote "AA") ""
       = Ok (hvs1, {| added := true; index_ := 0; err := None |})
    /\ HeightVoteSet.Prevotes hvs1 0 = Ok (Some vs1)
    /\ VoteSet.GetByIndex (Some vs1) 0 = Ok (Some (Sample.prevote "AA"))
    /\ HeightVoteSet.Precommits hvs1 0 = HeightVoteSet.Precommits hvs0 0.
Proof.
  eexists.
  match goal with
  | |- exists hvs1 vs1, ?N = Ok ?s /\ _ =>
      assert (N = Ok s) as Hnew by reflexivity;
      eassert (HeightVoteSet.roundVoteSets s
               !! types.Round (Sample.prevote "AA") = Some _) as Hr
        by reflexivity;
      eassert (VoteSet.AddByAddress _ "a" (Sample.prevote "AA")
               = Ok (_, {| added := true; index_ := 0; err := None |})) as Hv;
      [|destruct (AddByAddress_delegates_to_the_vote_set s "a"
                   (Sample.prevote "AA") "" _ Hr (or_introl eq_refl) _ _ Hv)
          as (hvs1 & Hadd & Hget & Hpc & _)]
  end.
  - reflexivity.
  - eexists hvs1, _. split; [exact Hnew|]. split; [exact Hadd|].
    split; [exact Hget|]. split; [reflexivity|]. apply Hpc. reflexivity.
Defined.

Lemma stored_vote_sets_belong_to_their_round_witness :
  exists hvs0 hvs1 hvs2 vs,
    HeightVoteSet.NewHeightVoteSet 1 Sample.one = Ok hvs0
    /\ apply_hop hvs0 (HSetRound 1) = Ok hvs1
    /\ apply_hop hvs1
         (HAddByAddress "a"
            (Sample.vote 1 1 VoteTypePrevote "AA" (Sample.parts 1 "BB")) "")
       = Ok hvs2
    /\ HeightVoteSet.getVoteSet hvs2 1 VoteTypePrevote = Ok (Some vs)
    /\ VoteSet.Round (Some vs) = 1
    /\ VoteSet.Height (Some vs) = 1.
Proof.
  eexists _, _, _, _.
  match goal with |- ?E /\ _ => eassert E as Hnew by (vm_compute; reflexivity) end.
  split; [exact Hnew|].
  match goal with |- ?E /\ _ => eassert E as Hop1 by (vm_compute; reflexivity) end.
  split; [exact Hop1|].
  match goal with |- ?E /\ _ => eassert E as Hop2 by (vm_compute; reflexivity) end.
  split; [exact Hop2|].
  match goal with |- ?E /\ _ => eassert E as Hget by (vm_compute; reflexivity) end.
  split; [exact Hget|].
  destruct (stored_vote_sets_belong_to_their_round _ _ _ _
              (hreachable_step _ _ _
                 (hreachable_step _ _ _ (hreachable_new _ _ _ Hnew) Hop1) Hop2)
              Hget)
    as (_ & Hheight & Hround & _).
  split; [exact Hround | exact Hheight].
Defined.

Lemma hops_ok_sample :
  Forall hop_ok
    [HAddByAddress "a"
       (Sample.vote 1 7 VoteTypePrecommit "AA" (Sample.parts 1 "BB")) "P1";
     HSetRound 1;
     HAddByAddress "a"
       (Sample.vote 1 1 VoteTypePrevote "AA" (Sample.parts 1 "BB")) "";
     HSetRound 3].
Proof.
  repeat (constructor; [first [exact I | unfold hop_ok, MaxInt64; lia]|]).
  constructor.
Defined.

Lemma rounds_are_admitted_or_catch_up_witness :
  exists hvs0 hvs,
    HeightVoteSet.NewHeightVoteSet 1 Sample.one = Ok hvs0
    /\ hrun hvs0
         [HAddByAddress "a"
            (Sample.vote 1 7 VoteTypePrecommit "AA" (Sample.parts 1 "BB")) "P1";
          HSetRound 1;
          HAddByAddress "a"
            (Sample.vote 1 1 VoteTypePrevote "AA" (Sample.parts 1 "BB")) "";
          HSetRound 3]
       = Ok hvs
    /\ HeightVoteSet.Round hvs = 3
    /\ is_Some (HeightVoteSet.roundVoteSets hvs !! 7)
    /\ (0 <= 7 <= HeightVoteSet.Round hvs
        \/ exists peerKey,
             HeightVoteSet.peerCatchupRounds hvs !! peerKey = Some 7).
Proof.
  eexists _, _.
  match goal with |- ?E /\ _ => eassert E as Hnew by (vm_compute; reflexivity) end.
  split; [exact Hnew|].
  match goal with |- ?E /\ _ => eassert E as Hrun by (vm_compute; reflexivity) end.
  split; [exact Hrun|].
  split; [reflexivity|].
  match goal with
  | |- ?P /\ _ => assert P as Hsome by (eexists; vm_compute; reflexivity)
  end.
  split; [exact Hsome|].
  exact (rounds_are_admitted_or_catch_up _ _ _ _ _ 7 Hnew hops_ok_sample
           Hrun Hsome).
Defined.

Lemma current_round_has_vote_sets_witness :
  exists hvs0 hvs prevotes precommits,
    HeightVoteSet.NewHeightVoteSet 1 Sample.one = Ok hvs0
    /\ hrun hvs0
         [HAddByAddress "a"
            (Sample.vote 1 7 VoteTypePrecommit "AA" (Sample.parts 1 "BB")) "P1";
          HSetRound 1;
          HAddByAddress "a"
            (Sample.vote 1 1 VoteTypePrevote "AA" (Sample.parts 1 "BB")) "";
          HSetRound 3]
       = Ok hvs
    /\ HeightVoteSet.Prevotes hvs (HeightVoteSet.Round hvs) = Ok (Some prevotes)
    /\ HeightVoteSet.Precommits hvs (HeightVoteSet.Round hvs)
       = Ok (Some precommits).
Proof.
  eexists _, _.
  match goal with
  | |- exists prevotes precommits, ?E1 /\ ?E2 /\ _ =>
      eassert E1 as Hnew by (vm_compute; reflexivity);
      eassert E2 as Hrun by (vm_compute; reflexivity)
  end.
  destruct (current_round_has_vote_sets _ _ _ _ _ Hnew hops_ok_sample Hrun)
    as [_ Hsets].
  destruct (Hsets _ (or_intror eq_refl)) as (pv & pc & Hpv & Hpc).
  exists pv, pc. split; [exact Hnew|]. split; [exact Hrun|].
  split; [exact Hpv | exact Hpc].
Defined.

Lemma round_and_POLRound_never_decrease_witness :
  exists hvs0 hvs hvs' a b,
    HeightVoteSet.NewHeightVoteSet 1 Sample.one = Ok hvs0
    /\ hrun hvs0
         [HAddByAddress "a"
            (Sample.vote 1 7 VoteTypePrecommit "AA" (Sample.parts 1 "BB")) "P1";
          HSetRound 1]
       = Ok hvs
    /\ hrun hvs
         [HAddByAddress "a"
            (Sample.vote 1 1 VoteTypePrevote "AA" (Sample.parts 1 "BB")) "";
          HSetRound 3]
       = Ok hvs'
    /\ HeightVoteSet.Round hvs <= HeightVoteSet.Round hvs'
    /\ HeightVoteSet.POLRound hvs = Ok a
    /\ HeightVoteSet.POLRound hvs' = Ok b
    /\ a <= b.
Proof.
  eexists _, _, _.
  match goal with
  | |- exists a b, ?E1 /\ ?E2 /\ ?E3 /\ _ =>
      eassert E1 as Hnew by (vm_compute; reflexivity);
      eassert E2 as Hrun1 by (vm_compute; reflexivity);
      eassert E3 as Hrun2 by (vm_compute; reflexivity)
  end.
  pose proof (fun Hops =>
                round_and_POLRound_never_decrease _ _ _ _ _ _ _ Hnew Hops
                  Hrun1 Hrun2) as Hthm.
  destruct (Hthm hops_ok_sample) as [Hle Hpol].
  destruct (Hpol valSet_ok_one) as (a & b & Ha & Hb & Hab).
  exists a, b. split; [exact Hnew|]. split; [exact Hrun1|].
  split; [exact Hrun2|]. split; [exact Hle|]. split; [exact Ha|].
  split; [exact Hb | exact Hab].
Defined.

(** The same history, evaluated: the catch-up round 7 and the rounds 0,
    1 and 3 have entries, round 2 has none, and [POLRound] is 1. *)
Example history_evaluated :
  (hvs ← HeightVoteSet.NewHeightVoteSet 1 Sample.one;
   hvs ← hrun hvs
           [HAddByAddress "a"
              (Sample.vote 1 7 VoteTypePrecommit "AA" (Sample.parts 1 "BB")) "P1";
            HSetRound 1;
            HAddByAddress "a"
              (Sample.vote 1 1 VoteTypePrevote "AA" (Sample.parts 1 "BB")) "";
            HSetRound 3];
   Ok (HeightVoteSet.Round hvs, rounds_present hvs 8,
       HeightVoteSet.POLRound hvs))
  = Ok (3, [0; 1; 3; 7], Ok 1).
Proof. vm_compute. reflexivity. Qed.

Lemma NewVoteSet_is_empty_witness :
  is_Panic (VoteSet.NewVoteSet 0 0 VoteTypePrevote Sample.nine)
  /\ exists vs,
       VoteSet.NewVoteSet 1 0 VoteTypePrevote Sample.nine = Ok vs
       /\ VoteSet.GetByIndex (Some vs) 1 = Ok None
       /\ VoteSet.HasTwoThirdsAny (Some vs) = false.
Proof.
  split.
  - apply (NewVoteSet_is_empty 0 0 VoteTypePrevote Sample.nine). reflexivity.
  - destruct (NewVoteSet_is_empty 1 0 VoteTypePrevote Sample.nine) as [_ Hok].
    destruct Hok as (vs & Hnew & _ & _ & _ & Hslots & _ & _ & _ & _ & Hany);
      [lia|].
    exists vs. split; [exact Hnew|].
    split; [apply Hslots; unfold sm.Size; simpl; lia|].
    exact (Hany valSet_ok_nine).
Defined.

Lemma vote_is_added_at_most_once_witness :
  exists vs0 vs1 res1 vs2 vs3 res2,
    VoteSet.NewVoteSet 1 0 VoteTypePrevote Sample.nine = Ok vs0
    /\ apply_op vs0 (OpAddByAddress "b" (Sample.prevote "AA")) = Ok (vs1, res1)
    /\ added res1 = true
    /\ run vs1 [OpAddByIndex 0 (Sample.prevote "CC")] = Ok vs2
    /\ apply_op vs2 (OpAddByIndex 1 (Sample.prevote "AA")) = Ok (vs3, res2)
    /\ index_ res2 = index_ res1
    /\ added res2 = false.
Proof.
  eexists _, _, _, _, _, _. split; [reflexivity|].
  match goal with |- ?E /\ _ => eassert E as Hop1 by (vm_compute; reflexivity) end.
  split; [exact Hop1|]. split; [reflexivity|].
  match goal with |- ?E /\ _ => eassert E as Hrun by (vm_compute; reflexivity) end.
  split; [exact Hrun|].
  match goal with |- ?E /\ _ => eassert E as Hop2 by (vm_compute; reflexivity) end.
  split; [exact Hop2|]. split; [reflexivity|].
  exact (vote_is_added_at_most_once _ _ _ _ _ _ _ _ _ Hop1 eq_refl Hrun Hop2
           eq_refl).
Defined.

Lemma AddByAddress_touches_only_the_round_of_the_vote_witness :
  exists hvs0 hvs1 res,
    HeightVoteSet.NewHeightVoteSet 1 Sample.one = Ok hvs0
    /\ HeightVoteSet.AddByAddress hvs0 "a"
         (Sample.vote 1 7 VoteTypePrecommit "AA" (Sample.parts 1 "BB")) "P1"
       = Ok (hvs1, res)
    /\ HeightVoteSet.Round hvs1 = 0
    /\ HeightVoteSet.roundVoteSets hvs1 !! 0 = HeightVoteSet.roundVoteSets hvs0 !! 0
    /\ HeightVoteSet.peerCatchupRounds hvs1 !! "P2" = None.
Proof.
  eexists _, _, _. split; [reflexivity|].
  match goal with |- ?E /\ _ => eassert E as Hadd by (vm_compute; reflexivity) end.
  split; [exact Hadd|].
  destruct (AddByAddress_touches_only_the_round_of_the_vote _ _ _ _ _ _ Hadd)
    as (Hround & _ & Hother & _ & Hpeers).
  split; [exact Hround|].
  split; [apply Hother; simpl; lia|].
  rewrite Hpeers by discriminate. reflexivity.
Defined.
